(** * Ops Manager dashboard: the fetch-and-cache aggregation engine

    A shallow embedding of the cache store, the single-source fetch policy,
    the concurrent aggregator, the sequential page loops and the status
    messages of [app.py], together with the backup-storage adapter of
    [get_backup_storage.py]; further, of the request handling of the backup
    and backup-storage pages, the single-source page, the status dashboard
    with its three checks, and the URL truncation filter.

    Conventions of the embedding:
    - the cache directory is a finite map from file names to file contents;
    - remote calls, the clock and I/O failures are frozen in a [world];
    - Python exceptions are the [Raise] results of a state-and-error monad;
    - Python truthiness ([if cached_data:], [if error_msg:], [if errors:])
      is written out by the [truthy_*] functions;
    - a cache file holds a record list, bare or in its timestamped envelope,
      or cannot be read; strings are ASCII, and [os.path.join] is written
      with "/";
    - the tasks of the worker pool are run one at a time, in the order in
      which they complete; that order is an argument of the aggregator.  The
      real tasks overlap in time, so the order in which tasks of different
      sources reach their adapters is a choice of the model: no theorem
      states it, the calls of several tasks are compared as multisets, and
      for sources with pairwise different cache files, whose tasks touch
      different files, the cache directory is shown not to depend on the
      order ([run_tasks_order]);
    - a write to a cache file that fails leaves the file as it was or, once
      the file has been opened for writing, unreadable; [urlparse] may
      reject a URL; response headers are found whatever the case of their
      names;
    - the HTTP requests of the status checks are answered by a [network], a
      function of the request; a check returns the requests it has sent;
      response times are left out. *)

From Stdlib Require Import Ascii String.
From stdpp Require Import gmap strings list pretty sorting.

(** ** Strings *)

(** [re.sub(r'[^a-zA-Z0-9]', '_', s)] on ASCII text. *)
Definition is_alnum (c : ascii) : bool :=
  let n := nat_of_ascii c in
  (((48 <=? n) && (n <=? 57)) || ((65 <=? n) && (n <=? 90)) ||
   ((97 <=? n) && (n <=? 122)))%nat.

Fixpoint sanitize (s : string) : string :=
  match s with
  | EmptyString => EmptyString
  | String c r => String (if is_alnum c then c else "_"%char) (sanitize r)
  end.

(** [sep.join(l)] is [String.concat sep l]. *)
Definition join (sep : string) (l : list string) : string := String.concat sep l.

(** [str(n)] for a non-negative integer. *)
Definition str_of_nat (n : nat) : string := pretty n.

Fixpoint prefixb (p s : string) : bool :=
  match p, s with
  | EmptyString, _ => true
  | String a p', String b s' => if Ascii.eqb a b then prefixb p' s' else false
  | String _ _, EmptyString => false
  end.

(** [sub in s] *)
Fixpoint containsb (sub s : string) : bool :=
  prefixb sub s ||
  match s with
  | EmptyString => false
  | String _ s' => containsb sub s'
  end.

Definition contains (sub s : string) : Prop :=
  ∃ pre post, s = pre +:+ sub +:+ post.

(** ** Data model *)

(** One row of domain data: a flat JSON object. *)
Definition record : Type := gmap string string.

(** One entry of [list_opsmanager['ops_manager']].  [url], [public_key] and
    [private_key] are indexed unconditionally by the code; [region] and
    [environment] are read with [.get(key, 'Unknown')] by the concurrent
    path and indexed by the page loops. *)
Record ops_manager : Type := OpsManager {
  url : string;
  public_key : string;
  private_key : string;
  region : option string;
  environment : option string
}.

#[global] Instance ops_manager_eq_dec : EqDecision ops_manager.
Proof. solve_decision. Defined.

(** Contents of one cache file as [json.load] sees it. *)
Inductive file : Type :=
  | Envelope (timestamp : string) (payload : list record)
  | Legacy (payload : list record)
  | Corrupt (reason : string).

(** The mutable part of a request: the cache directory and the log of
    adapter invocations, each logged as (data_type, url). *)
Record state : Type := State {
  fs : gmap string file;
  calls : list (string * string)
}.

(** What a source adapter does when called: it returns a list, returns
    [None], or raises. *)
Inductive adapter_result : Type :=
  | Returned (data : option (list record))
  | Failed (reason : string).

(** The four endpoint results read by the backup-storage adapter, as the
    four endpoint functions return them: each of them catches its own
    exceptions and returns the empty list in their place. *)
Record storage_reply : Type := StorageReply {
  snapshot_blockstore : list record;
  snapshot_s3config : list record;
  oplog_store : list record;
  oplog_s3config : list record
}.

(** A value, or the message of the exception raised in its place. *)
Inductive res (A : Type) : Type :=
  | Ok (a : A)
  | Raise (e : string).
Arguments Ok {A} a.
Arguments Raise {A} e.

(** Everything outside the process, frozen for one request.

    [hostname u] is [urlparse(u).hostname], which raises [ValueError] on a
    malformed URL such as one with an unbalanced bracket.

    [write_error f] is the exception a write to [f] ends in, if any, and
    [write_damage f] tells what such a write leaves behind: [None] when it
    fails before the file is opened, so that the file is as it was, and
    [Some reason] when it fails after [open(filename, 'w')] has truncated
    the file, which [json.load] then rejects with [reason]. *)
Record world : Type := World {
  now : string;
  api_backup : string → string → string → adapter_result;
  api_monitoring : string → string → string → adapter_result;
  api_storage : string → string → string → storage_reply;
  hostname : string → res (option string);
  write_error : string → option string;
  write_damage : string → option string;
  remove_error : string → option string
}.

(** The dict returned by [fetch_single_ops_manager]. *)
Record outcome : Type := Outcome {
  o_data : list record;
  o_fetched : nat;
  o_cached : nat;
  o_error : option string
}.

(** The tuple returned by the aggregator and computed by the page loops. *)
Record aggregate : Type := Aggregate {
  all_data : list record;
  status_message : string;
  status_type : string;
  total_fetched : nat;
  total_cached : nat;
  errors : list string
}.

(** ** Python truthiness *)

Definition truthy_cached (c : option (list record)) : bool :=
  match c with
  | Some (_ :: _) => true
  | _ => false
  end.

Definition truthy_str (s : string) : bool := negb (String.eqb s "").

Definition truthy_error (e : option string) : bool :=
  match e with
  | Some s => truthy_str s
  | None => false
  end.

Definition truthy_list {A} (l : list A) : bool :=
  match l with
  | [] => false
  | _ :: _ => true
  end.

(** ** State and exceptions *)

Definition M (A : Type) : Type := state → res A * state.

#[global] Instance M_ret : MRet M := λ A a st, (Ok a, st).

#[global] Instance M_bind : MBind M := λ A B f m st,
  match m st with
  | (Ok a, st') => f a st'
  | (Raise e, st') => (Raise e, st')
  end.

Definition raise {A} (e : string) : M A := λ st, (Raise e, st).

(** [try: body / except Exception as e: handler e] *)
Definition try_except {A} (body : M A) (handler : string → M A) : M A := λ st,
  match body st with
  | (Ok a, st') => (Ok a, st')
  | (Raise e, st') => handler e st'
  end.

(** ** Cache store *)

Definition CACHE_DIR : string := "cache".

Definition get_cache_filename (ops_manager_name cache_type : string) : string :=
  let safe_name := sanitize ops_manager_name in
  let filename := "cached_" +:+ safe_name +:+ ".json" in
  CACHE_DIR +:+ "/" +:+ cache_type +:+ "/" +:+ filename.

Definition load_cache (filename : string) : M (option (list record)) := λ st,
  match fs st !! filename with
  | Some (Envelope _ d) => (Ok (Some d), st)
  | Some (Legacy d) => (Ok (Some d), st)
  | Some (Corrupt e) => (Raise e, st)
  | None => (Ok None, st)
  end.

(** The directory after a write to [filename] has failed. *)
Definition damaged (w : world) (filename : string) (st : state) : state :=
  match write_damage w filename with
  | Some reason => State (<[filename := Corrupt reason]> (fs st)) (calls st)
  | None => st
  end.

(** [save_cache] prints and re-raises whatever [os.makedirs], [open] or
    [json.dump] raise. *)
Definition save_cache (w : world) (data : list record) (filename : string) : M unit := λ st,
  match write_error w filename with
  | Some e => (Raise e, damaged w filename st)
  | None => (Ok (), State (<[filename := Envelope (now w) data]> (fs st)) (calls st))
  end.

Definition get_cache_timestamp (filename : string) : M (option string) := λ st,
  match fs st !! filename with
  | Some (Envelope t _) => (Ok (Some t), st)
  | Some (Legacy _) => (Ok None, st)
  | Some (Corrupt e) => (Raise e, st)
  | None => (Ok None, st)
  end.

Definition clear_cache (w : world) (filename : string) : M unit := λ st,
  match fs st !! filename with
  | Some _ =>
      match remove_error w filename with
      | Some e => (Raise e, st)
      | None => (Ok (), State (delete filename (fs st)) (calls st))
      end
  | None => (Ok (), st)
  end.

(** ** Source adapters *)

(** [urlparse(url).hostname or url] *)
Definition hostname_or_url (w : world) (url : string) : res string :=
  match hostname w url with
  | Ok (Some h) => Ok (if truthy_str h then h else url)
  | Ok None => Ok url
  | Raise e => Raise e
  end.

(** [gather_backup_storage_for_credentials]: the four endpoint lists are
    concatenated, every config gets its ['Ops Manager'] label, and an empty
    total is returned as [None].  The label is computed in the loop over
    the configs, so it is not computed when there is none; an exception in
    the loop is caught and makes the adapter return [None]. *)
Definition gather_backup_storage_for_credentials
    (w : world) (domain_url public private : string) : option (list record) :=
  let reply := api_storage w domain_url public private in
  let all_configs :=
    snapshot_blockstore reply ++ snapshot_s3config reply ++
    oplog_store reply ++ oplog_s3config reply in
  if truthy_list all_configs then
    match hostname_or_url w domain_url with
    | Ok label => Some ((λ config : record, <["Ops Manager" := label]> config) <$> all_configs)
    | Raise _ => None
    end
  else None.

(** The adapter chosen by [data_type], as in [fetch_and_cache_data]. *)
Definition adapter (w : world) (data_type domain_url public private : string) : adapter_result :=
  if String.eqb data_type "monitoring" then api_monitoring w domain_url public private
  else if String.eqb data_type "backup_storage" then
    Returned (gather_backup_storage_for_credentials w domain_url public private)
  else api_backup w domain_url public private.

(** The state after one more adapter invocation has been logged. *)
Definition logged (data_type : string) (om : ops_manager) (st : state) : state :=
  State (fs st) (calls st ++ [(data_type, url om)]).

Definition call_adapter (w : world) (data_type : string) (om : ops_manager)
    : M (option (list record)) := λ st,
  let st' := logged data_type om st in
  match adapter w data_type (url om) (public_key om) (private_key om) with
  | Returned d => (Ok d, st')
  | Failed e => (Raise e, st')
  end.

(** ** Fetch and cache *)

Definition fetch_and_cache_data (w : world) (om : ops_manager) (data_type : string)
    : M (list record * option string) :=
  try_except
    (data ← call_adapter w data_type om;
     match data with
     | Some d =>
         let filename := get_cache_filename (url om) data_type in
         try_except
           (_ ← save_cache w d filename; mret (d, None))
           (λ _, mret (d, None))
     | None =>
         let error_msg := "No " +:+ data_type +:+ " data returned from API for " +:+ url om in
         mret ([], Some error_msg)
     end)
    (λ e,
       let error_msg :=
         "Failed to fetch " +:+ data_type +:+ " data from " +:+ url om +:+ ": " +:+ e in
       mret ([], Some error_msg)).

(** [f"{ops_manager.get('region', 'Unknown')}-{ops_manager.get('environment', 'Unknown')}"] *)
Definition get_tag (om : ops_manager) : string :=
  default "Unknown" (region om) +:+ "-" +:+ default "Unknown" (environment om).

(** The body of the [try] of [fetch_single_ops_manager]. *)
Definition fetch_single_body (w : world) (data_type : string) (refresh_requested : bool)
    (om : ops_manager) : M outcome :=
  let domain_url := url om in
  let filename := get_cache_filename domain_url data_type in
  cached_data ← load_cache filename;
  if refresh_requested || negb (truthy_cached cached_data) then
    _ ← (if refresh_requested && truthy_cached cached_data
         then clear_cache w filename else mret ());
    r ← fetch_and_cache_data w om data_type;
    let '(fresh_data, error_msg) := r in
    if truthy_error error_msg then
      if truthy_cached cached_data then
        mret (Outcome (default [] cached_data) 0 (length (default [] cached_data))
                (Some (get_tag om +:+ ": " +:+ default "" error_msg +:+ " (using cache)")))
      else
        mret (Outcome [] 0 0 (Some (get_tag om +:+ ": " +:+ default "" error_msg)))
    else
      mret (Outcome fresh_data (length fresh_data) 0 None)
  else
    mret (Outcome (default [] cached_data) 0 (length (default [] cached_data)) None).

Definition fetch_single_ops_manager (w : world) (data_type : string)
    (refresh_requested : bool) (om : ops_manager) : M outcome :=
  try_except
    (fetch_single_body w data_type refresh_requested om)
    (λ e, mret (Outcome [] 0 0 (Some (url om +:+ ": Unexpected error: " +:+ e)))).

(** ** Concurrent aggregator *)

(** The accumulators [all_data], [total_fetched], [total_cached], [errors]. *)
Record accum : Type := Accum {
  acc_data : list record;
  acc_fetched : nat;
  acc_cached : nat;
  acc_errors : list string
}.

Definition accum_init : accum := Accum [] 0 0 [].

(** [f"{'; '.join(errors[:3])}{'...' if len(errors) > 3 else ''}"] *)
Definition shown_errors (errs : list string) : string :=
  join "; " (take 3 errs) +:+ (if 3 <? length errs then "..." else "").

(** The completion status of [fetch_multiple_ops_managers_concurrent]:
    (status_message, status_type). *)
Definition completion_status (refresh_requested : bool) (fetched cached n : nat)
    (errs : list string) : string * string :=
  if truthy_list errs then
    if (0 <? fetched) || (0 <? cached) then
      (if refresh_requested then
         "Refresh completed with warnings. Fetched " +:+ str_of_nat fetched +:+
         " records, used " +:+ str_of_nat cached +:+ " cached records from " +:+
         str_of_nat n +:+ " Ops Managers. Issues: " +:+ shown_errors errs
       else
         "Data loaded with warnings. Fetched " +:+ str_of_nat fetched +:+
         " records from API (cache missing), used " +:+ str_of_nat cached +:+
         " cached records from " +:+ str_of_nat n +:+ " Ops Managers. Issues: " +:+
         shown_errors errs,
       "warning")
    else
      (if refresh_requested then "Refresh failed. Errors: " +:+ shown_errors errs
       else "Data loading failed. Errors: " +:+ shown_errors errs,
       "error")
  else
    (if refresh_requested then
       "Refresh successful! Fetched " +:+ str_of_nat fetched +:+ " records from " +:+
       str_of_nat n +:+ " Ops Managers simultaneously."
     else
       "Data loaded successfully! Fetched " +:+ str_of_nat fetched +:+
       " records from API (cache was missing) across " +:+ str_of_nat n +:+
       " Ops Managers.",
     "success").

(** What the draining loop does with one result. *)
Definition absorb (acc : accum) (result : outcome) : accum :=
  Accum (acc_data acc ++ o_data result)
        (acc_fetched acc + o_fetched result)
        (acc_cached acc + o_cached result)
        (if truthy_error (o_error result)
         then acc_errors acc ++ [default "" (o_error result)]
         else acc_errors acc).

(** The loop over [as_completed]: [completed] lists the sources in the order
    in which their tasks finish, which is the order in which the loop
    absorbs their results.  A task is run as one step, at the point where
    it completes; [executor.submit] starts the real tasks earlier and lets
    them overlap, so the position of a call in the call log is the
    model's, not the program's.  Tasks of sources with different cache
    files read and write different files and can be reordered freely. *)
Fixpoint collect_results (w : world) (data_type : string) (refresh_requested : bool)
    (completed : list ops_manager) (acc : accum) : M accum :=
  match completed with
  | [] => mret acc
  | om :: rest =>
      acc' ← try_except
        (result ← fetch_single_ops_manager w data_type refresh_requested om;
         mret (absorb acc result))
        (λ e,
           let error_msg := url om +:+ ": Exception during processing: " +:+ e in
           mret (Accum (acc_data acc) (acc_fetched acc) (acc_cached acc)
                   (acc_errors acc ++ [error_msg])));
      collect_results w data_type refresh_requested rest acc'
  end.

(** [max_workers] only bounds how many tasks are in flight; what it decides
    is the completion order, which is the argument [completed]. *)
Definition fetch_multiple_ops_managers_concurrent (w : world)
    (ops_managers_list : list ops_manager) (data_type : string)
    (refresh_requested : bool) (completed : list ops_manager) : M aggregate :=
  acc ← collect_results w data_type refresh_requested completed accum_init;
  let st := completion_status refresh_requested (acc_fetched acc) (acc_cached acc)
              (length ops_managers_list) (acc_errors acc) in
  mret (Aggregate (acc_data acc) st.1 st.2 (acc_fetched acc) (acc_cached acc)
          (acc_errors acc)).

(** ** The backup page *)

(** [ops_manager[key]] *)
Definition index_key (key : string) (v : option string) : M string :=
  match v with
  | Some s => mret s
  | None => raise ("KeyError: '" +:+ key +:+ "'")
  end.

(** The loop that counts the sources whose [load_cache] result is falsy. *)
Fixpoint missing_cache_count (data_type : string) (managers : list ops_manager)
    (count : nat) : M nat :=
  match managers with
  | [] => mret count
  | om :: rest =>
      cached_data ← load_cache (get_cache_filename (url om) data_type);
      missing_cache_count data_type rest
        (if truthy_cached cached_data then count else count + 1)
  end.

Definition use_concurrent (refresh_requested : bool) (missing : nat) : bool :=
  refresh_requested || (2 <=? missing).

(** One iteration of the sequential loop of [backup_page]. *)
Definition backup_page_step (w : world) (refresh_requested : bool)
    (om : ops_manager) (acc : accum) : M accum :=
  let filename := get_cache_filename (url om) "backup" in
  cached_data ← load_cache filename;
  if refresh_requested || negb (truthy_cached cached_data) then
    _ ← (if refresh_requested && truthy_cached cached_data
         then clear_cache w filename else mret ());
    r ← fetch_and_cache_data w om "backup";
    let '(fresh_data, error_msg) := r in
    if truthy_error error_msg then
      rg ← index_key "region" (region om);
      env ← index_key "environment" (environment om);
      let errs := acc_errors acc ++ [rg +:+ "-" +:+ env +:+ ": " +:+ default "" error_msg] in
      if truthy_cached cached_data then
        mret (Accum (acc_data acc ++ default [] cached_data) (acc_fetched acc)
                (acc_cached acc + length (default [] cached_data)) errs)
      else
        mret (Accum (acc_data acc) (acc_fetched acc) (acc_cached acc) errs)
    else
      mret (Accum (acc_data acc ++ fresh_data) (acc_fetched acc + length fresh_data)
              (acc_cached acc) (acc_errors acc))
  else
    mret (Accum (acc_data acc ++ default [] cached_data) (acc_fetched acc)
            (acc_cached acc + length (default [] cached_data)) (acc_errors acc)).

Fixpoint backup_page_loop (w : world) (refresh_requested : bool)
    (managers : list ops_manager) (acc : accum) : M accum :=
  match managers with
  | [] => mret acc
  | om :: rest =>
      acc' ← backup_page_step w refresh_requested om acc;
      backup_page_loop w refresh_requested rest acc'
  end.

(** The status set after the sequential loop; the message and the type are
    the empty strings they were initialised to when no branch assigns them. *)
Definition backup_page_status (refresh_requested : bool) (fetched cached : nat)
    (errs : list string) : string * string :=
  if refresh_requested then
    if truthy_list errs then
      ("Refresh completed with errors. Fetched " +:+ str_of_nat fetched +:+
       " clusters, used " +:+ str_of_nat cached +:+ " cached clusters. Errors: " +:+
       join "; " errs,
       "warning")
    else
      ("Data refreshed successfully! Fetched " +:+ str_of_nat fetched +:+
       " clusters from API.",
       "success")
  else if 0 <? fetched then
    ("Data retrieval completed! Fetched " +:+ str_of_nat fetched +:+
     " clusters from API (cache was missing).",
     "success")
  else ("", "").

Definition backup_page_sequential (w : world) (refresh_requested : bool)
    (managers : list ops_manager) : M aggregate :=
  acc ← backup_page_loop w refresh_requested managers accum_init;
  let st := backup_page_status refresh_requested (acc_fetched acc) (acc_cached acc)
              (acc_errors acc) in
  mret (Aggregate (acc_data acc) st.1 st.2 (acc_fetched acc) (acc_cached acc)
          (acc_errors acc)).

(** The part of [backup_page] that runs once sources are selected: the
    result is paired with the value of [use_concurrent]. *)
Definition backup_page_aggregate (w : world) (refresh_requested : bool)
    (matching_ops_managers completed : list ops_manager) : M (bool * aggregate) :=
  missing ← missing_cache_count "backup" matching_ops_managers 0;
  if use_concurrent refresh_requested missing then
    r ← fetch_multiple_ops_managers_concurrent w matching_ops_managers "backup"
          refresh_requested completed;
    mret (true, r)
  else
    r ← backup_page_sequential w refresh_requested matching_ops_managers;
    mret (false, r).

(** ** The backup-storage page *)

(** The direct adapter call of the sequential loop of [backup_storage_page]. *)
Definition call_storage (w : world) (om : ops_manager) : M (option (list record)) := λ st,
  (Ok (gather_backup_storage_for_credentials w (url om) (public_key om) (private_key om)),
   logged "backup_storage" om st).

(** [if fresh_data:] on the adapter's result. *)
Definition backup_storage_page_step (w : world) (refresh_requested : bool)
    (om : ops_manager) (acc : accum) : M accum :=
  let filename := get_cache_filename (url om) "backup_storage" in
  cached_data ← load_cache filename;
  if refresh_requested || negb (truthy_cached cached_data) then
    _ ← (if refresh_requested && truthy_cached cached_data
         then clear_cache w filename else mret ());
    fresh_data ← call_storage w om;
    if truthy_cached fresh_data then
      let fresh := default [] fresh_data in
      let added := Accum (acc_data acc ++ fresh) (acc_fetched acc + length fresh)
                     (acc_cached acc) (acc_errors acc) in
      try_except (_ ← save_cache w fresh filename; mret added) (λ _, mret added)
    else
      rg ← index_key "region" (region om);
      env ← index_key "environment" (environment om);
      let errs := acc_errors acc ++ [rg +:+ "-" +:+ env +:+ ": No backup storage data returned"] in
      if truthy_cached cached_data then
        mret (Accum (acc_data acc ++ default [] cached_data) (acc_fetched acc)
                (acc_cached acc + length (default [] cached_data)) errs)
      else
        mret (Accum (acc_data acc) (acc_fetched acc) (acc_cached acc) errs)
  else
    mret (Accum (acc_data acc ++ default [] cached_data) (acc_fetched acc)
            (acc_cached acc + length (default [] cached_data)) (acc_errors acc)).

Fixpoint backup_storage_page_loop (w : world) (refresh_requested : bool)
    (managers : list ops_manager) (acc : accum) : M accum :=
  match managers with
  | [] => mret acc
  | om :: rest =>
      acc' ← backup_storage_page_step w refresh_requested om acc;
      backup_storage_page_loop w refresh_requested rest acc'
  end.

(** ** Vocabulary of the statements *)

(** The cache file of a source for a category. *)
Definition cache_file (data_type : string) (om : ops_manager) : string :=
  get_cache_filename (url om) data_type.

(** The records [load_cache] returns for a stored file, when it returns. *)
Definition payload_of (entry : option file) : option (list record) :=
  match entry with
  | Some (Envelope _ d) => Some d
  | Some (Legacy d) => Some d
  | _ => None
  end.

(** No cache file exists for the source. *)
Definition cache_absent (data_type : string) (st : state) (om : ops_manager) : bool :=
  bool_decide (fs st !! cache_file data_type om = None).

(** No cache file exists for the source, or the one that exists holds an
    empty record list. *)
Definition cache_absent_or_empty (data_type : string) (st : state) (om : ops_manager) : bool :=
  negb (truthy_cached (payload_of (fs st !! cache_file data_type om))).

(** The value a run returns, or a default when it raises. *)
Definition result_of {A} (d : A) (run : res A * state) : A :=
  match run.1 with
  | Ok a => a
  | Raise _ => d
  end.

Definition no_aggregate : aggregate := Aggregate [] "" "" 0 0 [].

(** How many sources of a list satisfy a test. *)
Definition count_sources (p : ops_manager → bool) (l : list ops_manager) : nat :=
  length (List.filter p l).

(** The text of the aggregator's message that precedes the errors. *)
Definition issues_header (refresh_requested : bool) (fetched cached n : nat) : string :=
  if (0 <? fetched) || (0 <? cached) then
    if refresh_requested then
      "Refresh completed with warnings. Fetched " +:+ str_of_nat fetched +:+
      " records, used " +:+ str_of_nat cached +:+ " cached records from " +:+
      str_of_nat n +:+ " Ops Managers. Issues: "
    else
      "Data loaded with warnings. Fetched " +:+ str_of_nat fetched +:+
      " records from API (cache missing), used " +:+ str_of_nat cached +:+
      " cached records from " +:+ str_of_nat n +:+ " Ops Managers. Issues: "
  else if refresh_requested then "Refresh failed. Errors: "
  else "Data loading failed. Errors: ".

(** A source the sequential loop can process without raising: it carries its
    region and environment, its cache file is readable if it exists, and it
    can be deleted. *)
Definition serviceable (w : world) (data_type : string) (st : state) (om : ops_manager) : Prop :=
  is_Some (region om) ∧ is_Some (environment om) ∧
  remove_error w (cache_file data_type om) = None ∧
  ∀ e, fs st !! cache_file data_type om ≠ Some (Corrupt e).

(** The adapter call for a source does not deliver a list. *)
Definition adapter_fails (w : world) (data_type : string) (om : ops_manager) : Prop :=
  ∀ d, adapter w data_type (url om) (public_key om) (private_key om) ≠ Returned (Some d).

(** The outcome of the fetch policy for one source, run on a given state. *)
Definition outcome_at (w : world) (data_type : string) (refresh_requested : bool)
    (st : state) (om : ops_manager) : outcome :=
  match (fetch_single_ops_manager w data_type refresh_requested om st).1 with
  | Ok o => o
  | Raise _ => Outcome [] 0 0 None
  end.

(** The outcome of the policy written as a function of what the cache file
    of the source holds; [policy_outcome_correct] relates it to the code. *)
Definition unexpected (om : ops_manager) (e : string) : outcome :=
  Outcome [] 0 0 (Some (url om +:+ ": Unexpected error: " +:+ e)).

Definition failure_outcome (om : ops_manager) (cached : option (list record))
    (error_msg : string) : outcome :=
  if truthy_cached cached then
    Outcome (default [] cached) 0 (length (default [] cached))
      (Some (get_tag om +:+ ": " +:+ error_msg +:+ " (using cache)"))
  else Outcome [] 0 0 (Some (get_tag om +:+ ": " +:+ error_msg)).

Definition fetch_outcome (w : world) (data_type : string) (om : ops_manager)
    (cached : option (list record)) : outcome :=
  match adapter w data_type (url om) (public_key om) (private_key om) with
  | Returned (Some d) => Outcome d (length d) 0 None
  | Returned None =>
      failure_outcome om cached
        ("No " +:+ data_type +:+ " data returned from API for " +:+ url om)
  | Failed e =>
      failure_outcome om cached
        ("Failed to fetch " +:+ data_type +:+ " data from " +:+ url om +:+ ": " +:+ e)
  end.

Definition policy_outcome (w : world) (data_type : string) (refresh_requested : bool)
    (om : ops_manager) (entry : option file) : outcome :=
  match entry with
  | Some (Corrupt e) => unexpected om e
  | _ =>
      let cached := payload_of entry in
      if refresh_requested || negb (truthy_cached cached) then
        if refresh_requested && truthy_cached cached then
          match remove_error w (cache_file data_type om) with
          | Some e => unexpected om e
          | None => fetch_outcome w data_type om cached
          end
        else fetch_outcome w data_type om cached
      else Outcome (default [] cached) 0 (length (default [] cached)) None
  end.

(** The outcomes of the tasks of a run, in the order in which the tasks
    are run, each on the state its predecessors left. *)
Fixpoint task_outcomes (w : world) (data_type : string) (refresh_requested : bool)
    (managers : list ops_manager) (st : state) : list outcome :=
  match managers with
  | [] => []
  | om :: rest =>
      outcome_at w data_type refresh_requested st om ::
      task_outcomes w data_type refresh_requested rest
        (fetch_single_ops_manager w data_type refresh_requested om st).2
  end.

(** ** Sample inputs *)

Module Sample.

Definition alice : record := {[ "Username" := "alice" ]}.
Definition bob : record := {[ "Username" := "bob" ]}.
Definition blockstore : record := {[ "type" := "snapshot_blockstore" ]}.

Definition east : ops_manager :=
  OpsManager "https://om-east.example.com:8443" "pub" "priv" (Some "us-east") (Some "prod").
Definition west : ops_manager :=
  OpsManager "https://om-west.example.com:8443" "pub" "priv" (Some "us-west") (Some "prod").
Definition north : ops_manager :=
  OpsManager "https://om-north.example.com:8443" "pub" "priv" (Some "eu-north") (Some "dev").
Definition south : ops_manager :=
  OpsManager "https://om-south.example.com:8443" "pub" "priv" (Some "eu-south") (Some "dev").

Definition stamp : string := "2024-05-01T10:00:00".

(** Every source is reachable: [east] has one backup record, [west] has
    two, the others have none; no source has any storage configuration. *)
Definition healthy : world :=
  World "2024-05-02T09:30:00"
    (λ u _ _,
       if String.eqb u (url east) then Returned (Some [alice])
       else if String.eqb u (url west) then Returned (Some [bob; alice])
       else Returned (Some []))
    (λ _ _ _, Returned (Some []))
    (λ _ _ _, StorageReply [] [] [] [])
    (λ _, Ok None) (λ _, None) (λ _, None) (λ _, None).

(** No source answers: the backup adapter returns [None]. *)
Definition down : world :=
  World "2024-05-02T09:30:00"
    (λ _ _ _, Returned None)
    (λ _ _ _, Returned None)
    (λ _ _ _, StorageReply [] [] [] [])
    (λ _, Ok None) (λ _, None) (λ _, None) (λ _, None).

(** As [healthy], on a disk that refuses every write. *)
Definition read_only : world :=
  World (now healthy) (api_backup healthy) (api_monitoring healthy) (api_storage healthy)
    (hostname healthy) (λ _, Some "[Errno 30] Read-only file system") (λ _, None)
    (λ _, None).

(** As [healthy], on a disk that is full: every write fails after the file
    has been opened, and leaves it empty. *)
Definition disk_full : world :=
  World (now healthy) (api_backup healthy) (api_monitoring healthy) (api_storage healthy)
    (hostname healthy) (λ _, Some "[Errno 28] No space left on device")
    (λ _, Some "Expecting value: line 1 column 1 (char 0)") (λ _, None).

(** Two sources whose URLs differ and sanitize to the same cache file. *)
Definition dash : ops_manager :=
  OpsManager "https://om-a-b.example.com" "pub" "priv" (Some "ap-south") (Some "test").
Definition dot : ops_manager :=
  OpsManager "https://om-a.b.example.com" "pub" "priv" (Some "ap-north") (Some "test").

(** [dash] has one backup record and [dot] has two. *)
Definition twins : world :=
  World "2024-05-02T09:30:00"
    (λ u _ _,
       if String.eqb u (url dash) then Returned (Some [alice])
       else Returned (Some [bob; alice]))
    (λ _ _ _, Returned (Some []))
    (λ _ _ _, StorageReply [] [] [] [])
    (λ _, Ok None) (λ _, None) (λ _, None) (λ _, None).

Definition five : list ops_manager := [east; west; north; south; dash].

Definition no_cache : state := State ∅ [].

(** Non-empty cache files for the first [n] sources of [five]. *)
Definition warm_first (n : nat) : state :=
  State (list_to_map ((λ om, (cache_file "backup" om, Envelope stamp [bob])) <$> take n five)) [].

(** [east] has a cache file whose record list is empty. *)
Definition empty_cache : state :=
  State {[ cache_file "backup" east := Envelope stamp [] ]} [].

(** [east] and [west] both have a cache file with an empty record list. *)
Definition two_empty_caches : state :=
  State (<[ cache_file "backup" east := Envelope stamp [] ]>
           {[ cache_file "backup" west := Envelope stamp [] ]}) [].

(** [east] has one cached backup record. *)
Definition warm : state :=
  State {[ cache_file "backup" east := Envelope stamp [bob] ]} [].

(** The cache file of [east] is not valid JSON. *)
Definition broken : state :=
  State {[ cache_file "backup" east := Corrupt "Expecting value: line 1 column 1 (char 0)" ]} [].

(** [east] has one cached storage configuration. *)
Definition warm_storage : state :=
  State {[ cache_file "backup_storage" east := Envelope stamp [blockstore] ]} [].

End Sample.

(** ** Further vocabulary *)

(** Every character of a string passes a test. *)
Fixpoint all_chars (p : ascii → bool) (s : string) : bool :=
  match s with
  | EmptyString => true
  | String c r => p c && all_chars p r
  end.

(** The characters [get_cache_filename] leaves in a name. *)
Definition is_safe (c : ascii) : bool := is_alnum c || Ascii.eqb c "_".

(** The categories the pages pass to the cache store. *)
Definition categories : list string := ["backup"; "monitoring"; "backup_storage"].

(** The state after the tasks of a list of sources have run, one after the
    other. *)
Fixpoint run_tasks (w : world) (data_type : string) (refresh_requested : bool)
    (managers : list ops_manager) (st : state) : state :=
  match managers with
  | [] => st
  | om :: rest =>
      run_tasks w data_type refresh_requested rest
        (fetch_single_ops_manager w data_type refresh_requested om st).2
  end.

(** The policy has to go to the adapter: a refresh is requested, or the
    cache of the source is missing or empty. *)
Definition needs_fetch (data_type : string) (refresh_requested : bool) (st : state)
    (om : ops_manager) : bool :=
  refresh_requested || cache_absent_or_empty data_type st om.

(** The records the cache holds for a source. *)
Definition cached_records (data_type : string) (st : state) (om : ops_manager) : list record :=
  default [] (payload_of (fs st !! cache_file data_type om)).

(** ** Filter values of the pages *)

(** The ASCII characters that [str.strip()] removes. *)
Definition is_space (c : ascii) : bool :=
  let n := nat_of_ascii c in
  (((9 <=? n) && (n <=? 13)) || ((28 <=? n) && (n <=? 32)))%nat.

Fixpoint lstrip (s : string) : string :=
  match s with
  | EmptyString => EmptyString
  | String c r => if is_space c then lstrip r else s
  end.

Fixpoint rstrip (s : string) : string :=
  match s with
  | EmptyString => EmptyString
  | String c r =>
      let r' := rstrip r in
      if is_space c && negb (truthy_str r') then EmptyString else String c r'
  end.

(** [s.strip()] *)
Definition strip (s : string) : string := rstrip (lstrip s).

(** [value and value != 'null' and str(value).strip()] on the result of
    [record.get(key)]. *)
Definition usable (value : option string) : bool :=
  match value with
  | Some s => truthy_str s && negb (String.eqb s "null") && truthy_str (strip s)
  | None => false
  end.

(** What one record adds to the set of a filter. *)
Definition filter_value (key : string) (r : record) : string :=
  if usable (r !! key) then default "" (r !! key) else "NONE".

(** The loop that fills [unique_usernames] and its siblings; it is guarded
    by [if all_data:], and an empty list adds nothing either way. *)
Definition unique_values (key : string) (all_data : list record) : gset string :=
  if truthy_list all_data then
    foldl (λ seen r, seen ∪ {[ filter_value key r ]}) ∅ all_data
  else ∅.

(** [sorted(unique_values)] *)
Definition sorted_values (key : string) (all_data : list record) : list string :=
  merge_sort String.le (elements (unique_values key all_data)).

(** ** URL truncation for the filter UI *)

(** [s.split(sep)] for a one-character separator. *)
Fixpoint split_on (sep : ascii) (s : string) : list string :=
  match s with
  | EmptyString => [EmptyString]
  | String c r =>
      if Ascii.eqb c sep then EmptyString :: split_on sep r
      else
        match split_on sep r with
        | h :: t => String c h :: t
        | [] => [String c EmptyString]
        end
  end.

(** [l[-k]] for k ≥ 1. *)
Definition index_from_end (k : nat) (l : list string) : res string :=
  if (k <=? length l)%nat then Ok (nth (length l - k) l "")
  else Raise "list index out of range".

Fixpoint drop_chars (n : nat) (s : string) : string :=
  match n, s with
  | O, _ => s
  | S n', String _ r => drop_chars n' r
  | S _, EmptyString => EmptyString
  end.

(** [s[i:]] for an integer [i] of either sign. *)
Definition slice_from (i : Z) (s : string) : string :=
  let len := Z.of_nat (String.length s) in
  let start := if (i <? 0)%Z then Z.max (len + i) 0 else Z.min i len in
  drop_chars (Z.to_nat start) s.

(** [any(word in part for word in words)] *)
Definition contains_any (words : list string) (part : string) : bool :=
  existsb (λ word, containsb word part) words.

Definition ENVIRONMENT_WORDS : list string := ["prod"; "dev"; "staging"; "test"; "non-prod"].
Definition REGION_WORDS : list string := ["us-east"; "us-west"; "eu-"; "ap-"].

(** [next((x for x in l if p(x)), default)] with its default already
    evaluated. *)
Definition first_or (p : string → bool) (l : list string) (d : string) : string :=
  default d (List.find p l).

Definition truncate_ops_manager_url (url : string) (max_length : Z) : res string :=
  if (Z.of_nat (String.length url) <=? max_length)%Z then Ok url
  else if negb (containsb "." url) then Ok url
  else
    let parts := split_on "." url in
    if containsb "elb.amazonaws.com" url || containsb "amazonaws.com" url then
      let service_parts := split_on "-" (nth 0 parts "") in
      let service_id :=
        if (3 <=? length service_parts)%nat then join "-" (take 3 service_parts)
        else nth 0 parts "" in
      match index_from_end 3 parts with
      | Raise e => Raise e
      | Ok fallback =>
          let region_part :=
            first_or (λ part, containsb "us-" part || containsb "eu-" part) parts fallback in
          Ok ("..." +:+ service_id +:+ "..." +:+ region_part +:+ ".amazonaws.com")
      end
    else if (4 <=? length parts)%nat then
      let important_parts :=
        List.filter
          (λ part, contains_any ENVIRONMENT_WORDS part || contains_any REGION_WORDS part)
          (drop 1 parts) in
      match index_from_end 3 parts, index_from_end 2 parts, index_from_end 1 parts with
      | Ok p3, Ok p2, Ok p1 =>
          let result :=
            if truthy_list important_parts then
              "..." +:+ join "." important_parts +:+ "." +:+ p2 +:+ "." +:+ p1
            else "..." +:+ p3 +:+ "." +:+ p2 +:+ "." +:+ p1 in
          if containsb ":" url then
            match index_from_end 1 (split_on ":" url) with
            | Ok port => Ok (result +:+ ":" +:+ port)
            | Raise e => Raise e
            end
          else Ok result
      | Raise e, _, _ => Raise e
      | _, Raise e, _ => Raise e
      | _, _, Raise e => Raise e
      end
    else if containsb ":" url then
      let pieces := split_on ":" url in
      let base_url := join ":" (take (length pieces - 1) pieces) in
      let port := nth (length pieces - 1) pieces "" in
      let truncated_base :=
        "..." +:+ slice_from (- (max_length - Z.of_nat (String.length port) - 4)) base_url in
      Ok (truncated_base +:+ ":" +:+ port)
    else Ok ("..." +:+ slice_from (- (max_length - 3)) url).

(** The template filter [truncate_url]. *)
Definition truncate_url_filter (url : string) : res string :=
  truncate_ops_manager_url url 35.

(** ** The status dashboard *)

(** One [requests.get]: the address, the digest credentials if any, and the
    timeout in seconds. *)
Record request : Type := Request {
  req_url : string;
  req_auth : option (string * string);
  req_timeout : nat
}.

(** What [requests.get] does: it returns a response, with its status code
    and its header fields as they were received, or raises [Timeout],
    [ConnectionError] or another exception. *)
Inductive http_reply : Type :=
  | Response (status_code : nat) (headers : list (string * string))
  | Timeout
  | ConnectionError (reason : string)
  | OtherError (reason : string).

(** [s.lower()] on ASCII text. *)
Definition lower_char (c : ascii) : ascii :=
  let n := nat_of_ascii c in
  if ((65 <=? n) && (n <=? 90))%nat then ascii_of_nat (n + 32) else c.

Fixpoint lower (s : string) : string :=
  match s with
  | EmptyString => EmptyString
  | String c r => String (lower_char c) (lower r)
  end.

(** [response.headers.get(name, default)]: the headers are a
    case-insensitive dict, in which the values of the fields that have the
    name, in whatever case, are joined by a comma and a space. *)
Definition header_get (name default : string) (headers : list (string * string)) : string :=
  match snd <$> filter (λ field, lower field.1 = lower name) headers with
  | [] => default
  | values => join ", " values
  end.

(** The network, frozen for one page load: a request is answered by what it
    asks. *)
Definition network : Type := request → http_reply.

(** The dict returned by [check_ops_manager_accessibility], without its
    response times and per-attempt details; the dashboard builds one with an
    [error] key instead of [attempts] and [details]. *)
Record accessibility : Type := Accessibility {
  a_status : string;
  a_attempts : option nat;
  a_details : option string;
  a_error : option string
}.

(** [response.status_code in [200, 401, 403]] *)
Definition service_running (status_code : nat) : bool :=
  bool_decide (status_code ∈ [200; 401; 403]).

(** Each check returns its result together with the requests it has sent,
    oldest first. *)
Definition check_ops_manager_accessibility (net : network) (url : string)
    : accessibility * list request :=
  let first := Request (url +:+ "/") None 5 in
  let second := Request (url +:+ "/") None 3 in
  let second_attempt :=
    (match net second with
     | Response status_code _ =>
         if service_running status_code then
           Accessibility "accessible" (Some 2)
             (Some ("Connected successfully on second attempt (HTTP " +:+
                    str_of_nat status_code +:+ ")")) None
         else
           Accessibility "unreachable" (Some 2)
             (Some ("Unexpected status code: " +:+ str_of_nat status_code +:+
                    " (tried 2 times)")) None
     | Timeout =>
         Accessibility "timeout" (Some 2) (Some "Both attempts timed out (5s + 3s)") None
     | ConnectionError _ =>
         Accessibility "unreachable" (Some 2) (Some "Connection failed on both attempts") None
     | OtherError e =>
         Accessibility "error" (Some 2) (Some ("Error on both attempts: " +:+ e)) None
     end, [first; second]) in
  match net first with
  | Response status_code _ =>
      if service_running status_code then
        (Accessibility "accessible" (Some 1)
           (Some ("Connected successfully on first attempt (HTTP " +:+
                  str_of_nat status_code +:+ ")")) None,
         [first])
      else second_attempt
  | Timeout => second_attempt
  | ConnectionError _ => second_attempt
  | OtherError _ => second_attempt
  end.

(** The dict returned by [check_api_authentication], without its response
    time. *)
Record authentication : Type := Authentication {
  auth_status : string;
  auth_status_code : option nat;
  auth_error : option string
}.

Definition check_api_authentication (net : network) (url public_key private_key : string)
    : authentication * list request :=
  let api_url := url +:+ "/api/public/v1.0/orgs" in
  let rq := Request api_url (Some (public_key, private_key)) 10 in
  (match net rq with
   | Response status_code _ =>
       if bool_decide (status_code = 200) then Authentication "authenticated" None None
       else if bool_decide (status_code ∈ [401; 403]) then
         Authentication "unauthorized" None None
       else Authentication "error" (Some status_code) None
   | Timeout => Authentication "timeout" None None
   | ConnectionError _ => Authentication "unreachable" None None
   | OtherError e => Authentication "error" None (Some e)
   end, [rq]).

(** [s.split(sep, 1)] for a one-character separator. *)
Fixpoint split_once (sep : ascii) (s : string) : list string :=
  match s with
  | EmptyString => [EmptyString]
  | String c r =>
      if Ascii.eqb c sep then [EmptyString; r]
      else
        match split_once sep r with
        | h :: t => String c h :: t
        | [] => [String c EmptyString]
        end
  end.

(** [l[i]] for i ≥ 0. *)
Definition index_at (i : nat) (l : list string) : res string :=
  match l !! i with
  | Some x => Ok x
  | None => Raise "list index out of range"
  end.

(** The loop over the parts of the version header; [None] when it ends
    without a [return]. *)
Fixpoint version_of_parts (parts : list string) : res (option string) :=
  match parts with
  | [] => Ok None
  | part :: rest =>
      let part := strip part in
      if prefixb "versionString=" part then
        match index_at 1 (split_once "=" part) with
        | Ok version => Ok (Some (if truthy_str version then version else "Unknown"))
        | Raise e => Raise e
        end
      else version_of_parts rest
  end.

Definition get_ops_manager_version (net : network) (url : string) : string * list request :=
  let version_url := url +:+ "/api/public/v1.0/unauth/versionManifest" in
  let rq := Request version_url None 10 in
  (match net rq with
   | Response _ headers =>
       let version_header := header_get "X-MongoDB-Service-Version" "" headers in
       if containsb "versionString=" version_header then
         match version_of_parts (split_on ";" version_header) with
         | Ok (Some version) => version
         | Ok None => "Unknown"
         | Raise _ => "Unknown"
         end
       else "Unknown"
   | Timeout => "Unknown"
   | ConnectionError _ => "Unknown"
   | OtherError _ => "Unknown"
   end, [rq]).

(** One row of the dashboard. *)
Record status_row : Type := StatusRow {
  row_url : string;
  row_hostname : string;
  row_region : string;
  row_environment : string;
  row_accessibility : accessibility;
  row_authentication : authentication;
  row_version : option string
}.

(** [ops_manager[key]] outside the cache monad. *)
Definition index_field (key : string) (v : option string) : res string :=
  match v with
  | Some s => Ok s
  | None => Raise ("KeyError: '" +:+ key +:+ "'")
  end.

Definition check_ops_manager_status (w : world) (net : network) (om : ops_manager)
    : res status_row * list request :=
  let '(accessibility_result, sent) := check_ops_manager_accessibility net (url om) in
  let '(auth_result, version, sent) :=
    if String.eqb (a_status accessibility_result) "accessible" then
      let '(auth_result, sent_auth) :=
        check_api_authentication net (url om) (public_key om) (private_key om) in
      let '(version, sent_version) := get_ops_manager_version net (url om) in
      (auth_result, version, sent ++ sent_auth ++ sent_version)
    else (Authentication "not_checked" None None, "Unknown", sent) in
  (match hostname_or_url w (url om) with
   | Raise e => Raise e
   | Ok host =>
       match index_field "region" (region om) with
       | Raise e => Raise e
       | Ok rg =>
           match index_field "environment" (environment om) with
           | Raise e => Raise e
           | Ok env =>
               Ok (StatusRow (url om) host rg env
                     accessibility_result auth_result (Some version))
           end
       end
   end, sent).

(** The row built by the dashboard when a check has raised; its entries
    are evaluated in the order of the dict: url, hostname, region,
    environment. *)
Definition failed_row (w : world) (om : ops_manager) (e : string) : res status_row :=
  match hostname_or_url w (url om) with
  | Raise e' => Raise e'
  | Ok host =>
      match index_field "region" (region om) with
      | Raise e' => Raise e'
      | Ok rg =>
          match index_field "environment" (environment om) with
          | Raise e' => Raise e'
          | Ok env =>
              Ok (StatusRow (url om) host rg env
                    (Accessibility "error" None None (Some e))
                    (Authentication "not_checked" None None) None)
          end
      end
  end.

(** The drain loop of the dashboard over the checks in completion order.
    The pool runs every submitted check, also when the loop stops early, so
    the requests of all of them are sent. *)
Fixpoint collect_status (w : world) (net : network) (completed : list ops_manager)
    (status_results : list status_row) : res (list status_row) :=
  match completed with
  | [] => Ok status_results
  | om :: rest =>
      match (check_ops_manager_status w net om).1 with
      | Ok result => collect_status w net rest (status_results ++ [result])
      | Raise e =>
          match failed_row w om e with
          | Ok result => collect_status w net rest (status_results ++ [result])
          | Raise e' => Raise e'
          end
      end
  end.

Definition requests_sent (w : world) (net : network) (completed : list ops_manager)
    : list request :=
  mjoin ((λ om, (check_ops_manager_status w net om).2) <$> completed).

(** [(x['region'], x['environment'])] compared as Python compares tuples. *)
Definition key_lt (a b : status_row) : bool :=
  String.ltb (row_region a) (row_region b) ||
  (String.eqb (row_region a) (row_region b) &&
   String.ltb (row_environment a) (row_environment b)).

(** [list.sort(key=...)] is a stable sort: a row goes behind the rows that
    are not greater than it. *)
Fixpoint insert_row (x : status_row) (l : list status_row) : list status_row :=
  match l with
  | [] => [x]
  | y :: l' => if key_lt x y then x :: l else y :: insert_row x l'
  end.

Definition sort_rows (l : list status_row) : list status_row :=
  foldl (λ sorted x, insert_row x sorted) [] l.

(** What [ops_manager_status] hands to its template. *)
Record dashboard : Type := Dashboard {
  status_results : list status_row;
  total_ops_managers : nat;
  accessible_count : nat;
  authenticated_count : nat;
  dashboard_refresh_requested : bool;
  check_timestamp : string
}.

(** [refresh_posted]: the request is a POST whose form has a [refresh]
    field. *)
Definition ops_manager_status (w : world) (net : network)
    (completed : list ops_manager) (refresh_posted : bool)
    : res dashboard * list request :=
  (match collect_status w net completed [] with
   | Raise e => Raise e
   | Ok status_results =>
       let status_results := sort_rows status_results in
       Ok (Dashboard status_results
             (length status_results)
             (length (filter (λ r, a_status (row_accessibility r) = "accessible")
                        status_results))
             (length (filter (λ r, auth_status (row_authentication r) = "authenticated")
                        status_results))
             refresh_posted
             (now w))
   end, requests_sent w net completed).

(** *** Vocabulary of the dashboard statements *)

(** The order in which the rows are shown. *)
Definition key_le (a b : status_row) : Prop := key_lt b a = false.

(** The probes of the accessibility check. *)
Definition probe (u : string) (timeout : nat) : request := Request (u +:+ "/") None timeout.

(** One of the two probes is answered by a running service. *)
Definition answered (net : network) (u : string) : bool :=
  existsb
    (λ timeout,
       match net (probe u timeout) with
       | Response status_code _ => service_running status_code
       | _ => false
       end)
    [5; 3].

(** [urlparse] accepts the URL of the source. *)
Definition parsed (w : world) (om : ops_manager) : Prop :=
  ∃ h, hostname w (url om) = Ok h.

(** The exception in which the check of a source ends, if it does: the
    one [urlparse] raises on its URL, or the [KeyError] of its missing
    region or environment. *)
Definition check_error (w : world) (om : ops_manager) : option string :=
  match hostname_or_url w (url om) with
  | Raise e => Some e
  | Ok _ =>
      match region om, environment om with
      | None, _ => Some "KeyError: 'region'"
      | Some _, None => Some "KeyError: 'environment'"
      | Some _, Some _ => None
      end
  end.

Definition credentials_request (om : ops_manager) : request :=
  Request (url om +:+ "/api/public/v1.0/orgs") (Some (public_key om, private_key om)) 10.

Definition version_request (u : string) : request :=
  Request (u +:+ "/api/public/v1.0/unauth/versionManifest") None 10.

Module StatusSample.

(** [east] answers at once, accepts the credentials and names its version
    in a header whose name arrives in lower case; [west] times out once,
    then answers and rejects the credentials; nothing else is reachable. *)
Definition online : network := λ rq,
  if prefixb (url Sample.east) (req_url rq) then
    Response 200
      [("content-type", "application/json");
       ("x-mongodb-service-version", "gitHash=abc123; versionString=7.0.1.123456789")]
  else if prefixb (url Sample.west) (req_url rq) then
    if bool_decide (req_timeout rq = 5) then Timeout else Response 401 []
  else ConnectionError "Connection refused".

(** A source configured without its region. *)
Definition unlabelled : ops_manager :=
  OpsManager "https://om-new.example.com:8443" "pub" "priv" None (Some "prod").

(** A source whose URL has an unbalanced bracket, and a world in which
    [urlparse] rejects such URLs. *)
Definition bracketed : ops_manager :=
  OpsManager "https://[om-new.example.com:8443" "pub" "priv" (Some "us-east") (Some "prod").

Definition strict : world :=
  World (now Sample.healthy) (api_backup Sample.healthy) (api_monitoring Sample.healthy)
    (api_storage Sample.healthy)
    (λ u, if containsb "[" u then Raise "Invalid IPv6 URL" else Ok None)
    (λ _, None) (λ _, None) (λ _, None).

End StatusSample.

(** ** The single-source backup page *)

(** One entry of [list_opsmanager['ops_manager']] with its optional
    [name]. *)
Record config_entry : Type := ConfigEntry {
  entry_name : option string;
  entry_source : ops_manager
}.

(** One entry of [ops_manager_options]: its [name], and the dict handed to
    [fetch_and_cache_data], which has a url and the two keys and neither
    region nor environment. *)
Record option_entry : Type := OptionEntry {
  opt_name : string;
  opt_source : ops_manager
}.

Definition ops_manager_options (config : list config_entry) : list option_entry :=
  (λ item,
     let source := entry_source item in
     OptionEntry (default (url source) (entry_name item))
       (OpsManager (url source) (public_key source) (private_key source) None None))
  <$> config.

(** What [single_bkp_opsmanager] hands to its template. *)
Record single_view : Type := SingleView {
  sv_data : list record;
  sv_selected_ops_manager : option string;
  sv_unique_usernames : list string;
  sv_status_message : string;
  sv_status_type : string;
  sv_cache_timestamp : option string
}.

(** [refresh_requested] is set by a POST whose form has a [refresh] field;
    [selected_ops_manager] is the [ops_manager] field of the form, or of the
    URL for a GET, and [None] without one.  [if selected_ops_manager:] is
    [truthy_error]: a present, non-empty string. *)
Definition single_bkp_opsmanager (w : world) (options : list option_entry)
    (refresh_requested : bool) (selected_ops_manager : option string) : M single_view :=
  let name := default "" selected_ops_manager in
  r ← (if truthy_error selected_ops_manager then
         let filename := get_cache_filename name "backup" in
         cached_data ← load_cache filename;
         if refresh_requested || negb (truthy_cached cached_data) then
           _ ← (if refresh_requested && truthy_cached cached_data
                then clear_cache w filename else mret ());
           match List.find (λ o, String.eqb (opt_name o) name) options with
           | Some selected =>
               r ← fetch_and_cache_data w (opt_source selected) "backup";
               let '(fresh_data, error_msg) := r in
               if truthy_error error_msg then
                 if truthy_cached cached_data then
                   mret (default [] cached_data,
                         "Refresh failed, using cached data: " +:+ default "" error_msg,
                         "warning")
                 else
                   mret ([], "Failed to refresh data: " +:+ default "" error_msg, "error")
               else if refresh_requested then
                 mret (fresh_data,
                       "Data refreshed successfully! Loaded " +:+
                       str_of_nat (length fresh_data) +:+ " clusters from API.",
                       "success")
               else
                 mret (fresh_data,
                       "Auto-loaded " +:+ str_of_nat (length fresh_data) +:+
                       " clusters from API (cache was missing).",
                       "info")
           | None => mret ([], "", "")
           end
         else mret (default [] cached_data, "", "")
       else mret ([], "", ""));
  let '(data, status_message, status_type) := r in
  cache_timestamp ← (if truthy_error selected_ops_manager
                     then get_cache_timestamp (get_cache_filename name "backup")
                     else mret None);
  mret (SingleView data selected_ops_manager (sorted_values "Username" data)
          status_message status_type cache_timestamp).

Module PageSample.

(** [east] is configured under a name, [west] without one. *)
Definition config : list config_entry :=
  [ConfigEntry (Some "East Coast") Sample.east; ConfigEntry None Sample.west].

Definition east_option : option_entry :=
  OptionEntry "East Coast"
    (OpsManager (url Sample.east) (public_key Sample.east) (private_key Sample.east) None None).

Definition west_option : option_entry :=
  OptionEntry (url Sample.west)
    (OpsManager (url Sample.west) (public_key Sample.west) (private_key Sample.west) None None).

(** [west] has one cached backup record, [east] has one under its URL. *)
Definition both_warm : state :=
  State (<[ cache_file "backup" Sample.west := Envelope "2024-05-03T08:00:00" [Sample.bob] ]>
           {[ cache_file "backup" Sample.east := Envelope "2024-05-04T08:00:00" [Sample.bob] ]})
    [].

End PageSample.

(** ** The pages as request handlers *)

(** A GET, or a POST with the [regions] and [environments] lists of its
    form and whether the form has the refresh field of the page. *)
Inductive page_request : Type :=
  | PageGet
  | PagePost (regions environments : list string) (refresh : bool).

(** [{record[key] for record in list_opsmanager['ops_manager']}] *)
Fixpoint index_all (key : string) (field : ops_manager → option string)
    (managers : list ops_manager) : M (gset string) :=
  match managers with
  | [] => mret ∅
  | om :: rest =>
      v ← index_key key (field om);
      seen ← index_all key field rest;
      mret ({[ v ]} ∪ seen)
  end.

(** [not selected or ops_manager[key] in selected] *)
Definition key_match (key : string) (selected : list string) (v : option string) : M bool :=
  if negb (truthy_list selected) then mret true
  else x ← index_key key v; mret (bool_decide (x ∈ selected)).

(** The loop that fills [matching_ops_managers]. *)
Fixpoint matching_loop (selected_regions selected_environments : list string)
    (managers matching_ops_managers : list ops_manager) : M (list ops_manager) :=
  match managers with
  | [] => mret matching_ops_managers
  | om :: rest =>
      region_match ← key_match "region" selected_regions (region om);
      env_match ← key_match "environment" selected_environments (environment om);
      matching_loop selected_regions selected_environments rest
        (if region_match && env_match then matching_ops_managers ++ [om]
         else matching_ops_managers)
  end.

(** [not selected or record.get(key) in selected] *)
Definition get_match (selected : list string) (v : option string) : bool :=
  negb (truthy_list selected) ||
  match v with
  | Some x => bool_decide (x ∈ selected)
  | None => false
  end.

(** The loop that finds [latest_timestamp]; the cache file is looked up
    under [record.get('name', record['url'])]. *)
Fixpoint latest_timestamp_loop (data_type : string)
    (selected_regions selected_environments : list string)
    (config : list config_entry) (latest_timestamp : option string) : M (option string) :=
  match config with
  | [] => mret latest_timestamp
  | item :: rest =>
      let source := entry_source item in
      if get_match selected_regions (region source) &&
         get_match selected_environments (environment source) then
        let filename :=
          get_cache_filename (default (url source) (entry_name item)) data_type in
        timestamp ← get_cache_timestamp filename;
        latest_timestamp_loop data_type selected_regions selected_environments rest
          (if truthy_error timestamp &&
              (negb (truthy_error latest_timestamp) ||
               String.ltb (default "" latest_timestamp) (default "" timestamp))
           then timestamp else latest_timestamp)
      else
        latest_timestamp_loop data_type selected_regions selected_environments rest
          latest_timestamp
  end.

(** What [backup_page] hands to its template. *)
Record backup_view : Type := BackupView {
  bv_unique_region : gset string;
  bv_unique_env : gset string;
  bv_data : list record;
  bv_selected_regions : list string;
  bv_selected_environments : list string;
  bv_unique_usernames : list string;
  bv_unique_backup_statuses : list string;
  bv_unique_opsmanagers : list string;
  bv_status_message : string;
  bv_status_type : string;
  bv_cache_timestamp : option string
}.

(** [schedule] gives the order in which the tasks of the concurrent path
    complete. *)
Definition backup_page (w : world) (config : list config_entry)
    (schedule : list ops_manager → list ops_manager) (rq : page_request) : M backup_view :=
  let managers := entry_source <$> config in
  unique_region ← index_all "region" region managers;
  unique_env ← index_all "environment" environment managers;
  let '(selected_regions, selected_environments, refresh_requested) :=
    match rq with
    | PageGet => ([], [], false)
    | PagePost regions environments refresh => (regions, environments, refresh)
    end in
  let status :=
    if refresh_requested &&
       negb (truthy_list selected_regions || truthy_list selected_environments)
    then ("Please select regions or environments before refreshing data.", "warning")
    else ("", "") in
  r ← (if truthy_list selected_regions || truthy_list selected_environments then
         matching_ops_managers ←
           matching_loop selected_regions selected_environments managers [];
         a ← backup_page_aggregate w refresh_requested matching_ops_managers
               (schedule matching_ops_managers);
         mret (all_data a.2, status_message a.2, status_type a.2)
       else mret ([], status.1, status.2));
  let '(data, message, kind) := r in
  cache_timestamp ←
    (if truthy_list selected_regions || truthy_list selected_environments then
       latest_timestamp_loop "backup" selected_regions selected_environments config None
     else mret None);
  mret (BackupView unique_region unique_env data selected_regions selected_environments
          (sorted_values "Username" data)
          (sorted_values "Backup Status" data)
          (sorted_values "Ops Manager" data)
          message kind cache_timestamp).

(** *** The backup-storage page *)

(** The status set after the sequential loop of [backup_storage_page]. *)
Definition backup_storage_page_status (refresh_requested : bool) (fetched cached : nat)
    (errs : list string) : string * string :=
  if refresh_requested then
    if truthy_list errs then
      ("Refresh completed with errors. Fetched " +:+ str_of_nat fetched +:+
       " storage configs, used " +:+ str_of_nat cached +:+ " cached configs. Errors: " +:+
       join "; " errs,
       "warning")
    else
      ("Data refreshed successfully! Fetched " +:+ str_of_nat fetched +:+
       " backup storage configurations from API.",
       "success")
  else if 0 <? fetched then
    ("Data retrieval completed! Fetched " +:+ str_of_nat fetched +:+
     " backup storage configurations from API (cache was missing).",
     "success")
  else ("", "").

(** The part of [backup_storage_page] that runs once sources are selected:
    the records, the status message and the status type. *)
Definition backup_storage_page_aggregate (w : world) (refresh_requested : bool)
    (matching_ops_managers completed : list ops_manager)
    : M (list record * string * string) :=
  missing ← missing_cache_count "backup_storage" matching_ops_managers 0;
  if use_concurrent refresh_requested missing then
    a ← fetch_multiple_ops_managers_concurrent w matching_ops_managers "backup_storage"
          refresh_requested completed;
    mret (all_data a, status_message a, status_type a)
  else
    acc ← backup_storage_page_loop w refresh_requested matching_ops_managers accum_init;
    let st := backup_storage_page_status refresh_requested (acc_fetched acc)
                (acc_cached acc) (acc_errors acc) in
    mret (acc_data acc, st.1, st.2).

(** The four lists into which the records are separated. *)
Record storage_lists : Type := StorageLists {
  snapshot_blockstore_data : list record;
  snapshot_s3_data : list record;
  oplog_store_data : list record;
  oplog_s3_data : list record
}.

(** One iteration of the loop that separates the records by storage type. *)
Definition separate_step (lists : storage_lists) (r : record) : storage_lists :=
  if usable (r !! "type") then
    let storage_type := default "" (r !! "type") in
    if String.eqb storage_type "snapshot_blockstore" then
      StorageLists (snapshot_blockstore_data lists ++ [r]) (snapshot_s3_data lists)
        (oplog_store_data lists) (oplog_s3_data lists)
    else if String.eqb storage_type "snapshot_s3" then
      StorageLists (snapshot_blockstore_data lists) (snapshot_s3_data lists ++ [r])
        (oplog_store_data lists) (oplog_s3_data lists)
    else if String.eqb storage_type "oplog_store" then
      StorageLists (snapshot_blockstore_data lists) (snapshot_s3_data lists)
        (oplog_store_data lists ++ [r]) (oplog_s3_data lists)
    else if String.eqb storage_type "oplog_s3" then
      StorageLists (snapshot_blockstore_data lists) (snapshot_s3_data lists)
        (oplog_store_data lists) (oplog_s3_data lists ++ [r])
    else lists
  else lists.

Definition separate (data : list record) : storage_lists :=
  if truthy_list data then foldl separate_step (StorageLists [] [] [] []) data
  else StorageLists [] [] [] [].

(** What [backup_storage_page] hands to its template. *)
Record storage_view : Type := StorageView {
  stv_unique_region : gset string;
  stv_unique_env : gset string;
  stv_data : list record;
  stv_lists : storage_lists;
  stv_selected_regions : list string;
  stv_selected_environments : list string;
  stv_unique_storage_types : list string;
  stv_unique_opsmanagers : list string;
  stv_status_message : string;
  stv_status_type : string;
  stv_cache_timestamp : option string
}.

(** [list(unique_region)] is written with [elements]; the order of the
    list is not used by the page. *)
Definition backup_storage_page (w : world) (config : list config_entry)
    (schedule : list ops_manager → list ops_manager) (rq : page_request) : M storage_view :=
  let managers := entry_source <$> config in
  unique_region ← index_all "region" region managers;
  unique_env ← index_all "environment" environment managers;
  let '(posted_regions, posted_environments, refresh_requested) :=
    match rq with
    | PageGet => ([], [], false)
    | PagePost regions environments refresh => (regions, environments, refresh)
    end in
  let auto_select :=
    refresh_requested && negb (truthy_list posted_regions) &&
    negb (truthy_list posted_environments) in
  let selected_regions := if auto_select then elements unique_region else posted_regions in
  let selected_environments :=
    if auto_select then elements unique_env else posted_environments in
  r ← (if truthy_list selected_regions || truthy_list selected_environments then
         matching_ops_managers ←
           matching_loop selected_regions selected_environments managers [];
         backup_storage_page_aggregate w refresh_requested matching_ops_managers
           (schedule matching_ops_managers)
       else mret ([], "", ""));
  let '(data, message, kind) := r in
  cache_timestamp ←
    (if truthy_list selected_regions || truthy_list selected_environments then
       latest_timestamp_loop "backup_storage" selected_regions selected_environments
         config None
     else mret None);
  mret (StorageView unique_region unique_env data (separate data)
          selected_regions selected_environments
          (sorted_values "type" data)
          (sorted_values "Ops Manager" data)
          message kind cache_timestamp).

(** *** Vocabulary of the page statements *)

(** The request selects no region and no environment. *)
Definition no_selection (rq : page_request) : bool :=
  match rq with
  | PageGet => true
  | PagePost regions environments _ =>
      negb (truthy_list regions || truthy_list environments)
  end.

(** The request asks for a refresh. *)
Definition asks_refresh (rq : page_request) : bool :=
  match rq with
  | PageGet => false
  | PagePost _ _ refresh => refresh
  end.

(** The source has a region and an environment. *)
Definition labelled (om : ops_manager) : Prop :=
  is_Some (region om) ∧ is_Some (environment om).

(** The cache file whose timestamp the pages show for a configured entry. *)
Definition timestamp_file (data_type : string) (item : config_entry) : string :=
  get_cache_filename (default (url (entry_source item)) (entry_name item)) data_type.

(** The entry is among those whose timestamp the page looks up. *)
Definition shown (selected_regions selected_environments : list string)
    (item : config_entry) : bool :=
  get_match selected_regions (region (entry_source item)) &&
  get_match selected_environments (environment (entry_source item)).

(** The timestamp a cache file contributes: that of its envelope, unless it
    is the empty string. *)
Definition stamp_of (entry : option file) : option string :=
  match entry with
  | Some (Envelope t _) => if truthy_str t then Some t else None
  | _ => None
  end.

(** * Properties *)

Ltac unfold_monad := unfold mbind, M_bind, mret, M_ret, try_except, raise in *.

(** ** Strings *)

Lemma append_nil (s : string) : "" +:+ s = s.
Proof. reflexivity. Qed.

Lemma append_cons (c : ascii) (s t : string) : String c s +:+ t = String c (s +:+ t).
Proof. reflexivity. Qed.

Lemma append_nil_r (s : string) : s +:+ "" = s.
Proof. induction s as [|c s IH]; [done |]. by rewrite append_cons, IH. Qed.

Lemma append_assoc (a b c : string) : (a +:+ b) +:+ c = a +:+ (b +:+ c).
Proof.
  induction a as [|x a IH]; [done |].
  by rewrite !append_cons, IH.
Qed.

Lemma prefixb_append (p s : string) : prefixb p (p +:+ s) = true.
Proof.
  induction p as [|a p IH]; [done |].
  rewrite append_cons. simpl. by rewrite Ascii.eqb_refl.
Qed.

Lemma prefixb_inv (p s : string) : prefixb p s = true → ∃ t, s = p +:+ t.
Proof.
  revert s; induction p as [|a p IH]; intros s H; simpl in *.
  - by exists s.
  - destruct s as [|b s]; [done |].
    destruct (Ascii.eqb a b) eqn:Hab; [| done].
    apply Ascii.eqb_eq in Hab as ->.
    destruct (IH _ H) as [t ->]. by exists t.
Qed.

Lemma containsb_contains (sub s : string) : containsb sub s = true ↔ contains sub s.
Proof.
  split.
  - induction s as [|c s IH]; simpl; intros H.
    + rewrite orb_false_r in H. destruct (prefixb_inv _ _ H) as [t Ht].
      by exists "", t.
    + apply orb_true_iff in H as [H | H].
      * destruct (prefixb_inv _ _ H) as [t Ht]. by exists "", t.
      * destruct (IH H) as (pre & post & ->). by exists (String c pre), post.
  - intros (pre & post & ->).
    induction pre as [|c pre IH].
    + rewrite append_nil.
      destruct (sub +:+ post) eqn:E; simpl.
      * destruct sub; [done | discriminate].
      * by rewrite <- E, prefixb_append.
    + rewrite append_cons. simpl. by rewrite IH, orb_true_r.
Qed.

Lemma contains_suffix (pre sub : string) : contains sub (pre +:+ sub).
Proof. exists pre, "". by rewrite append_nil_r. Qed.

Lemma contains_append_l (sub s t : string) : contains sub s → contains sub (t +:+ s).
Proof. intros (pre & post & ->). exists (t +:+ pre), post. by rewrite append_assoc. Qed.

Lemma contains_append_r (sub s t : string) : contains sub s → contains sub (s +:+ t).
Proof.
  intros (pre & post & ->). exists pre, (post +:+ t). by rewrite !append_assoc.
Qed.

Lemma append_eq_nil (a b : string) : a +:+ b = "" → a = "" ∧ b = "".
Proof. destruct a; [done | discriminate]. Qed.

Lemma append_nonempty_r (a b : string) : b ≠ "" → a +:+ b ≠ "".
Proof. intros Hb H. by apply append_eq_nil in H as [_ ?]. Qed.

Lemma truthy_str_nonempty (s : string) : truthy_str s = true ↔ s ≠ "".
Proof. destruct s; simpl; split; intros; done. Qed.

Lemma truthy_str_append (c : ascii) (s t : string) : truthy_str (String c s +:+ t) = true.
Proof. done. Qed.

(** ** Cache store and fetch *)

Lemma load_cache_unfold (f : string) (st : state) :
  load_cache f st =
    (match fs st !! f with
     | Some (Corrupt e) => Raise e
     | entry => Ok (payload_of entry)
     end, st).
Proof. unfold load_cache. by repeat case_match. Qed.

Lemma load_cache_returns (f : string) (st : state) (c : option (list record)) :
  (load_cache f st).1 = Ok c → load_cache f st = (Ok c, st) ∧ c = payload_of (fs st !! f).
Proof.
  rewrite load_cache_unfold. simpl. intros H.
  repeat case_match; simplify_eq; done.
Qed.

(** A failed write touches the file it was to write, and nothing else. *)
Lemma damaged_frame w f st g : g ≠ f → fs (damaged w f st) !! g = fs st !! g.
Proof.
  intros Hg. unfold damaged. destruct (write_damage w f); simpl; [| done].
  by rewrite lookup_insert_ne.
Qed.

Lemma damaged_calls w f st : calls (damaged w f st) = calls st.
Proof. unfold damaged. by destruct (write_damage w f). Qed.

Lemma fetch_and_cache_data_unfold w om dt st :
  fetch_and_cache_data w om dt st =
  match adapter w dt (url om) (public_key om) (private_key om) with
  | Returned (Some d) =>
      (Ok (d, None),
       match write_error w (cache_file dt om) with
       | Some _ => damaged w (cache_file dt om) (logged dt om st)
       | None => State (<[cache_file dt om := Envelope (now w) d]> (fs st))
                   (calls st ++ [(dt, url om)])
       end)
  | Returned None =>
      (Ok ([], Some ("No " +:+ dt +:+ " data returned from API for " +:+ url om)),
       logged dt om st)
  | Failed e =>
      (Ok ([], Some ("Failed to fetch " +:+ dt +:+ " data from " +:+ url om +:+ ": " +:+ e)),
       logged dt om st)
  end.
Proof.
  unfold fetch_and_cache_data, call_adapter, save_cache, logged, cache_file. unfold_monad.
  destruct (adapter _ _ _ _ _) as [[d|]|e]; simpl; try reflexivity.
  destruct (write_error _ _); reflexivity.
Qed.

Lemma clear_cache_calls w f st : (calls ∘ snd) (clear_cache w f st) = calls st.
Proof. unfold clear_cache. by repeat case_match. Qed.

(** [fetch_and_cache_data] catches everything: it always returns a pair. *)
Lemma fetch_and_cache_data_returns w om dt st :
  ∃ data error_msg st', fetch_and_cache_data w om dt st = (Ok (data, error_msg), st').
Proof.
  rewrite fetch_and_cache_data_unfold. repeat case_match; eauto.
Qed.

(** An error message of [fetch_and_cache_data] is never the empty string. *)
Lemma fetch_and_cache_data_error w om dt st data e st' :
  fetch_and_cache_data w om dt st = (Ok (data, Some e), st') →
  truthy_str e = true ∧ data = [] ∧ adapter_fails w dt om.
Proof.
  rewrite fetch_and_cache_data_unfold. unfold adapter_fails.
  repeat case_match; intros; simplify_eq; done.
Qed.

(** ** Cache hits *)

(** C1, as amended: when no refresh is requested and the cache file of the
    source holds a non-empty record list, the fetch policy returns exactly
    the cached records with fetched = 0, cached = len(records) and no error,
    and leaves the state as it was: the adapter log is unchanged (no network
    call) and so is the cache directory. *)
Theorem cache_hit_short_circuits w dt om st cached :
  (load_cache (cache_file dt om) st).1 = Ok (Some cached) →
  cached ≠ [] →
  fetch_single_ops_manager w dt false om st =
    (Ok (Outcome cached 0 (length cached) None), st).
Proof.
  intros Hload Hne.
  apply load_cache_returns in Hload as [Hload _].
  unfold fetch_single_ops_manager, fetch_single_body, cache_file in *. unfold_monad.
  rewrite Hload. destruct cached; [done |]. done.
Qed.

Lemma cache_hit_short_circuits_witness :
  fetch_single_ops_manager Sample.down "backup" false Sample.east Sample.warm =
    (Ok (Outcome [Sample.bob] 0 1 None), Sample.warm).
Proof.
  apply (cache_hit_short_circuits Sample.down "backup" Sample.east Sample.warm [Sample.bob]).
  - vm_compute. reflexivity.
  - discriminate.
Defined.

(** C1 as stated fails on a cache file whose record list is empty: the
    test [not cached_data] sends it to the adapter. *)
Lemma cache_hit_empty_list_counterexample :
  ¬ (∀ w dt om st cached,
       (load_cache (cache_file dt om) st).1 = Ok (Some cached) →
       fetch_single_ops_manager w dt false om st =
         (Ok (Outcome cached 0 (length cached) None), st)).
Proof.
  intros H.
  specialize (H Sample.healthy "backup" Sample.east Sample.empty_cache [] eq_refl).
  vm_compute in H. discriminate H.
Qed.

(** What the policy does on that input: one adapter call, one fetched record. *)
Example cache_hit_empty_list_refetches :
  let r := fetch_single_ops_manager Sample.healthy "backup" false Sample.east Sample.empty_cache in
  r.1 = Ok (Outcome [Sample.alice] 1 0 None) ∧
  calls r.2 = [("backup", url Sample.east)].
Proof. vm_compute. done. Qed.

(** ** Adapter failures *)

(** C5, as amended: when the adapter was called for a source (its call is in
    the log), the call did not deliver a list, and the snapshot read before
    the fetch held a non-empty record list, the outcome carries exactly the
    old records, fetched = 0, cached = len(old records), and a non-empty
    error that contains "(using cache)". *)
Theorem adapter_failure_falls_back_to_cache w dt r om st cached o st' :
  (load_cache (cache_file dt om) st).1 = Ok (Some cached) →
  cached ≠ [] →
  adapter_fails w dt om →
  fetch_single_ops_manager w dt r om st = (Ok o, st') →
  calls st' ≠ calls st →
  ∃ e, o = Outcome cached 0 (length cached) (Some e) ∧
       e ≠ "" ∧ contains "(using cache)" e.
Proof.
  intros Hload Hne Hfail Hrun Hcalled.
  apply load_cache_returns in Hload as [Hload Hpay].
  unfold fetch_single_ops_manager, fetch_single_body, cache_file in *. unfold_monad.
  rewrite Hload in Hrun.
  destruct cached as [|x cached]; [done |]. simpl in Hrun.
  destruct r; simpl in Hrun; [| by simplify_eq].
  destruct (clear_cache _ _ _) as [[[]|e0] st1] eqn:Hclear.
  2: { apply (f_equal (calls ∘ snd)) in Hclear. rewrite clear_cache_calls in Hclear.
       simpl in *. by simplify_eq. }
  rewrite fetch_and_cache_data_unfold in Hrun.
  destruct (adapter _ _ _ _ _) as [[d|]|e0] eqn:Had.
  - by destruct (Hfail d).
  - simpl in Hrun. simplify_eq. eexists; split; [done |]. split.
    + by do 3 apply append_nonempty_r.
    + do 3 apply contains_append_l. by exists " ", "".
  - simpl in Hrun. simplify_eq. eexists; split; [done |]. split.
    + by do 3 apply append_nonempty_r.
    + do 3 apply contains_append_l. by exists " ", "".
Qed.

Lemma adapter_failure_falls_back_to_cache_witness :
  ∃ e, Outcome [Sample.bob] 0 1
         (Some "us-east-prod: No backup data returned from API for https://om-east.example.com:8443 (using cache)")
       = Outcome [Sample.bob] 0 1 (Some e) ∧
       e ≠ "" ∧ contains "(using cache)" e.
Proof.
  apply (adapter_failure_falls_back_to_cache Sample.down "backup" true Sample.east
           Sample.warm [Sample.bob] _
           (fetch_single_ops_manager Sample.down "backup" true Sample.east Sample.warm).2).
  - vm_compute. reflexivity.
  - discriminate.
  - intros d. vm_compute. discriminate.
  - vm_compute. reflexivity.
  - vm_compute. discriminate.
Defined.

(** C5 as stated fails on a snapshot that exists but is empty: [if
    cached_data:] takes the branch without "(using cache)". *)
Lemma adapter_failure_empty_snapshot_counterexample :
  ¬ (∀ w dt r om st cached o st',
       (load_cache (cache_file dt om) st).1 = Ok (Some cached) →
       adapter_fails w dt om →
       fetch_single_ops_manager w dt r om st = (Ok o, st') →
       calls st' ≠ calls st →
       ∃ e, o = Outcome cached 0 (length cached) (Some e) ∧
            e ≠ "" ∧ contains "(using cache)" e).
Proof.
  intros H.
  destruct (H Sample.down "backup" false Sample.east Sample.empty_cache []
              (outcome_at Sample.down "backup" false Sample.empty_cache Sample.east)
              (fetch_single_ops_manager Sample.down "backup" false Sample.east
                 Sample.empty_cache).2 eq_refl)
    as (e & Ho & _ & Hc).
  - intros d. vm_compute. discriminate.
  - vm_compute. reflexivity.
  - vm_compute. discriminate.
  - apply containsb_contains in Hc. injection Ho as <-. vm_compute in Hc. discriminate Hc.
Qed.

(** ** Unexpected exceptions *)

Lemma unexpected_error_tagged (u e : string) :
  contains u (u +:+ ": Unexpected error: " +:+ e) ∧
  contains "Unexpected error" (u +:+ ": Unexpected error: " +:+ e).
Proof.
  split.
  - by exists "", (": Unexpected error: " +:+ e).
  - by exists (u +:+ ": "), (": " +:+ e); rewrite !append_assoc.
Qed.

(** C6: the fetch policy returns an outcome on every input.  When its body
    raises, the outcome is the failure shape without cache (no records,
    fetched = 0, cached = 0) and its error is the source's URL followed by
    ": Unexpected error: " and the text of the exception; otherwise the
    outcome is the one the body returned. *)
Theorem fetch_single_never_raises w dt r om st :
  ∃ o st',
    fetch_single_ops_manager w dt r om st = (Ok o, st') ∧
    match fetch_single_body w dt r om st with
    | (Raise e, st1) =>
        o = Outcome [] 0 0 (Some (url om +:+ ": Unexpected error: " +:+ e)) ∧
        st' = st1 ∧
        (∃ msg, o_error o = Some msg ∧ msg ≠ "" ∧
                contains (url om) msg ∧ contains "Unexpected error" msg)
    | (Ok o1, st1) => o = o1 ∧ st' = st1
    end.
Proof.
  unfold fetch_single_ops_manager. unfold_monad.
  destruct (fetch_single_body w dt r om st) as [[o1|e] st1].
  - by exists o1, st1.
  - eexists _, st1. split; [done |]. split; [done |]. split; [done |].
    eexists. split; [done |]. split; [| apply unexpected_error_tagged].
    destruct (url om); done.
Qed.

(** The handler is reachable: an unreadable cache file makes the body raise. *)
Example unreadable_cache_is_unexpected_error :
  (fetch_single_body Sample.healthy "backup" false Sample.east Sample.broken).1 =
    Raise "Expecting value: line 1 column 1 (char 0)" ∧
  (fetch_single_ops_manager Sample.healthy "backup" false Sample.east Sample.broken).1 =
    Ok (Outcome [] 0 0
          (Some "https://om-east.example.com:8443: Unexpected error: Expecting value: line 1 column 1 (char 0)")).
Proof. vm_compute. done. Qed.

(** ** The backup-storage adapter *)

(** The backup-storage adapter never delivers the empty list: it returns
    [None] in its place. *)
Lemma gather_backup_storage_never_empty w u pk sk :
  gather_backup_storage_for_credentials w u pk sk ≠ Some [].
Proof.
  unfold gather_backup_storage_for_credentials.
  destruct (_ ++ _) as [|x l]; simpl; [done |].
  destruct (hostname_or_url w u); simpl; congruence.
Qed.

Lemma gather_backup_storage_none_iff_empty w u pk sk :
  gather_backup_storage_for_credentials w u pk sk = None ↔
  snapshot_blockstore (api_storage w u pk sk) ++ snapshot_s3config (api_storage w u pk sk) ++
  oplog_store (api_storage w u pk sk) ++ oplog_s3config (api_storage w u pk sk) = [] ∨
  ∃ e, hostname w u = Raise e.
Proof.
  unfold gather_backup_storage_for_credentials, hostname_or_url.
  destruct (_ ++ _) as [|x l]; simpl; [split; [by left | done] |].
  destruct (hostname w u) as [[h|]|e]; simpl; split; try done.
  - intros [? | [e ?]]; done.
  - intros [? | [e ?]]; done.
  - intros _. right. by exists e.
Qed.

(** A reachable source whose four storage endpoints all answer with an
    empty list: the adapter returns [None], not the empty list, so the
    fetch policy reports "No backup_storage data returned", with the old
    records when a refresh ran over an existing cache, and the sequential
    loop of the backup-storage page records "No backup storage data
    returned".  The backup adapter of a source without clusters returns
    the empty list, which is a success. *)
Example empty_storage_reply_is_none :
  gather_backup_storage_for_credentials Sample.healthy (url Sample.east) "pub" "priv" = None ∧
  (fetch_single_ops_manager Sample.healthy "backup_storage" false Sample.east
     Sample.no_cache).1 =
    Ok (Outcome [] 0 0
          (Some "us-east-prod: No backup_storage data returned from API for https://om-east.example.com:8443")) ∧
  (fetch_single_ops_manager Sample.healthy "backup_storage" true Sample.east
     Sample.warm_storage).1 =
    Ok (Outcome [Sample.blockstore] 0 1
          (Some "us-east-prod: No backup_storage data returned from API for https://om-east.example.com:8443 (using cache)")) ∧
  (backup_storage_page_step Sample.healthy false Sample.east accum_init Sample.no_cache).1 =
    Ok (Accum [] 0 0 ["us-east-prod: No backup storage data returned"]) ∧
  (fetch_single_ops_manager Sample.healthy "backup" false Sample.north Sample.no_cache).1 =
    Ok (Outcome [] 0 0 None).
Proof. vm_compute. done. Qed.

(** ** One task *)

Lemma fetch_single_ops_manager_returns w dt r om st :
  ∃ o st', fetch_single_ops_manager w dt r om st = (Ok o, st').
Proof.
  unfold fetch_single_ops_manager. unfold_monad.
  destruct (fetch_single_body w dt r om st) as [[o|e] st1]; eauto.
Qed.

Lemma fetch_single_ops_manager_outcome_at w dt r om st :
  fetch_single_ops_manager w dt r om st =
    (Ok (outcome_at w dt r st om), (fetch_single_ops_manager w dt r om st).2).
Proof.
  unfold outcome_at.
  destruct (fetch_single_ops_manager_returns w dt r om st) as (o & st' & ->). done.
Qed.

(** The policy computes [policy_outcome] of the content of its cache file. *)
Lemma policy_outcome_correct w dt r om st :
  outcome_at w dt r st om = policy_outcome w dt r om (fs st !! cache_file dt om).
Proof.
  unfold outcome_at, fetch_single_ops_manager, fetch_single_body, policy_outcome,
    fetch_outcome, failure_outcome, unexpected, fetch_and_cache_data, call_adapter,
    save_cache, damaged, clear_cache, load_cache, cache_file.
  unfold_monad.
  destruct (adapter _ _ _ _ _) as [[d|]|ea];
    destruct (fs st !! get_cache_filename (url om) dt) as [[t c|c|e]|] eqn:Hentry;
    destruct r; try destruct c as [|x c]; simpl; rewrite ?Hentry;
    repeat (case_match; simpl in *; simplify_eq); done.
Qed.

(** ** Empty adapter results *)

(** C2: an adapter result that is a list is a success of the fetch policy
    whether the list is empty or not.  When the policy goes to the adapter
    (a refresh is requested, or the cache is missing or empty) on a cache
    file that it can read and delete, and the adapter delivers the list
    [d], then [fetch_and_cache_data] returns (d, None) and the outcome is
    [d] with fetched = len(d), cached = 0 and no error.  For the empty list
    this is records = [], fetched = 0, cached = 0, error = none, also when
    the cache held records before the refresh: the cache-fallback branch
    is not taken. *)
Theorem empty_result_is_success w dt r om st d :
  adapter w dt (url om) (public_key om) (private_key om) = Returned (Some d) →
  needs_fetch dt r st om = true →
  remove_error w (cache_file dt om) = None →
  (∀ e, fs st !! cache_file dt om ≠ Some (Corrupt e)) →
  (fetch_and_cache_data w om dt st).1 = Ok (d, None) ∧
  (fetch_single_ops_manager w dt r om st).1 = Ok (Outcome d (length d) 0 None) ∧
  (d = [] → (fetch_single_ops_manager w dt r om st).1 = Ok (Outcome [] 0 0 None)).
Proof.
  intros Ha Hneed Hrm Hread.
  assert ((fetch_single_ops_manager w dt r om st).1 = Ok (Outcome d (length d) 0 None))
    as Hrun.
  { rewrite fetch_single_ops_manager_outcome_at. simpl. f_equal.
    rewrite policy_outcome_correct. unfold policy_outcome, fetch_outcome.
    unfold needs_fetch, cache_absent_or_empty in Hneed. rewrite Hneed, Hrm, Ha.
    destruct (fs st !! cache_file dt om) as [[t c|c|e]|] eqn:Hf; simpl;
      try (by destruct (Hread e)); by destruct (r && _). }
  split; [| split; [done |]].
  - rewrite fetch_and_cache_data_unfold, Ha. done.
  - intros ->. exact Hrun.
Qed.

Lemma empty_result_is_success_witness :
  (fetch_and_cache_data Sample.healthy Sample.north "backup" (Sample.warm_first 3)).1
    = Ok ([], None) ∧
  (fetch_single_ops_manager Sample.healthy "backup" true Sample.north (Sample.warm_first 3)).1
    = Ok (Outcome [] 0 0 None) ∧
  (([] : list record) = [] →
   (fetch_single_ops_manager Sample.healthy "backup" true Sample.north (Sample.warm_first 3)).1
     = Ok (Outcome [] 0 0 None)).
Proof.
  apply (empty_result_is_success Sample.healthy "backup" true Sample.north
           (Sample.warm_first 3) []).
  - reflexivity.
  - reflexivity.
  - reflexivity.
  - intros e. vm_compute. discriminate.
Defined.

(** A task reads no cache file but its own. *)
Lemma outcome_at_local w dt r om st1 st2 :
  fs st1 !! cache_file dt om = fs st2 !! cache_file dt om →
  outcome_at w dt r st1 om = outcome_at w dt r st2 om.
Proof. intros Hfs. by rewrite !policy_outcome_correct, Hfs. Qed.

(** The error of an outcome, when there is one, is not the empty string. *)
Lemma outcome_error_truthy w dt r om st e :
  o_error (outcome_at w dt r st om) = Some e → truthy_str e = true.
Proof.
  assert (∀ a b c, truthy_str (a +:+ String c b) = true) as Htr.
  { intros a b c. apply truthy_str_nonempty, append_nonempty_r. done. }
  rewrite policy_outcome_correct.
  unfold policy_outcome, fetch_outcome, failure_outcome, unexpected.
  repeat case_match; simpl; intros; simplify_eq; apply Htr.
Qed.

(** A task writes no cache file but its own. *)
Lemma fetch_and_cache_data_frame w dt om st g :
  g ≠ cache_file dt om →
  fs (fetch_and_cache_data w om dt st).2 !! g = fs st !! g.
Proof.
  intros Hg. rewrite fetch_and_cache_data_unfold.
  repeat case_match; simpl; rewrite ?damaged_frame, ?lookup_insert_ne by done; done.
Qed.

Lemma fetch_single_ops_manager_frame w dt r om st g :
  g ≠ cache_file dt om →
  fs (fetch_single_ops_manager w dt r om st).2 !! g = fs st !! g.
Proof.
  intros Hg.
  unfold fetch_single_ops_manager, fetch_single_body, fetch_and_cache_data, call_adapter,
    save_cache, damaged, clear_cache, load_cache, cache_file in *.
  unfold_monad.
  destruct (adapter _ _ _ _ _) as [[d|]|ea];
    destruct (fs st !! get_cache_filename (url om) dt) as [[t c|c|e]|] eqn:Hentry;
    destruct r; try destruct c as [|x c]; simpl; rewrite ?Hentry;
    repeat (case_match; simpl in *; simplify_eq);
    simpl; rewrite ?lookup_insert_ne, ?lookup_delete_ne by done; done.
Qed.

(** Tasks on pairwise different cache files do not see each other. *)
Lemma task_outcomes_independent w dt r (l : list ops_manager) (st st1 : state) :
  NoDup (cache_file dt <$> l) →
  (∀ om, om ∈ l → fs st1 !! cache_file dt om = fs st !! cache_file dt om) →
  task_outcomes w dt r l st1 = outcome_at w dt r st <$> l.
Proof.
  revert st1. induction l as [|om l IH]; intros st1 Hnd Hagree; [done |].
  rewrite fmap_cons in Hnd. apply NoDup_cons in Hnd as [Hnotin Hnd].
  simpl. f_equal.
  - apply outcome_at_local, Hagree. left.
  - apply IH; [done |]. intros om' Hin.
    rewrite fetch_single_ops_manager_frame.
    + apply Hagree. by right.
    + intros Heq. apply Hnotin. rewrite <- Heq. by apply list_elem_of_fmap_2.
Qed.

(** ** The draining loop *)

Lemma collect_results_cons w dt r om rest acc st :
  collect_results w dt r (om :: rest) acc st =
    collect_results w dt r rest (absorb acc (outcome_at w dt r st om))
      (fetch_single_ops_manager w dt r om st).2.
Proof.
  simpl. unfold_monad.
  rewrite (fetch_single_ops_manager_outcome_at w dt r om st). done.
Qed.

Lemma collect_results_task_outcomes w dt r l acc st :
  (collect_results w dt r l acc st).1 = Ok (foldl absorb acc (task_outcomes w dt r l st)).
Proof.
  revert acc st. induction l as [|om l IH]; intros acc st; [done |].
  rewrite collect_results_cons. simpl. apply IH.
Qed.

Lemma foldl_absorb_fetched (os : list outcome) (acc : accum) :
  acc_fetched (foldl absorb acc os) = acc_fetched acc + sum_list_with o_fetched os.
Proof.
  revert acc. induction os as [|o os IH]; intros acc; csimpl; [lia |].
  rewrite IH. simpl. lia.
Qed.

Lemma foldl_absorb_cached (os : list outcome) (acc : accum) :
  acc_cached (foldl absorb acc os) = acc_cached acc + sum_list_with o_cached os.
Proof.
  revert acc. induction os as [|o os IH]; intros acc; csimpl; [lia |].
  rewrite IH. simpl. lia.
Qed.

Lemma foldl_absorb_data (os : list outcome) (acc : accum) :
  acc_data (foldl absorb acc os) = acc_data acc ++ mjoin (o_data <$> os).
Proof.
  revert acc. induction os as [|o os IH]; intros acc; csimpl; [by rewrite app_nil_r |].
  rewrite IH. simpl. by rewrite <- app_assoc.
Qed.

Lemma foldl_absorb_errors (os : list outcome) (acc : accum) :
  Forall (λ o, ∀ e, o_error o = Some e → truthy_str e = true) os →
  acc_errors (foldl absorb acc os) = acc_errors acc ++ omap o_error os.
Proof.
  revert acc. induction os as [|o os IH]; intros acc Hos; csimpl; [by rewrite app_nil_r |].
  apply Forall_cons in Hos as [Ho Hos]. rewrite IH by done. simpl.
  destruct (o_error o) as [e|] eqn:He; simpl; [| done].
  rewrite (Ho e eq_refl). simpl. by rewrite <- app_assoc.
Qed.

Lemma task_outcomes_errors_truthy w dt r l st :
  Forall (λ o, ∀ e, o_error o = Some e → truthy_str e = true) (task_outcomes w dt r l st).
Proof.
  revert st. induction l as [|om l IH]; intros st; simpl; constructor; [| apply IH].
  intros e. apply outcome_error_truthy.
Qed.

(** The aggregator returns on every input; its result is determined by the
    outcomes of its tasks. *)
Lemma fetch_multiple_ops_managers_concurrent_unfold w srcs dt r completed st :
  ∃ st',
    fetch_multiple_ops_managers_concurrent w srcs dt r completed st =
      (Ok (let os := task_outcomes w dt r completed st in
           let fetched := sum_list_with o_fetched os in
           let cached := sum_list_with o_cached os in
           let errs := omap o_error os in
           let status := completion_status r fetched cached (length srcs) errs in
           Aggregate (mjoin (o_data <$> os)) status.1 status.2 fetched cached errs),
       st').
Proof.
  unfold fetch_multiple_ops_managers_concurrent. unfold_monad.
  pose proof (collect_results_task_outcomes w dt r completed accum_init st) as H.
  destruct (collect_results _ _ _ _ _ _) as [[acc|e] st1]; simpl in H; [| done].
  injection H as ->. exists st1.
  rewrite foldl_absorb_fetched, foldl_absorb_cached, foldl_absorb_data,
    foldl_absorb_errors by apply task_outcomes_errors_truthy.
  done.
Qed.

(** ** Status of the concurrent aggregator *)

Lemma completion_status_type r fetched cached n errs :
  let ty := (completion_status r fetched cached n errs).2 in
  (ty = "success" ↔ errs = []) ∧
  (ty = "warning" ↔ errs ≠ [] ∧ 0 < fetched + cached) ∧
  (ty = "error" ↔ errs ≠ [] ∧ fetched + cached = 0) ∧
  ty ≠ "info".
Proof.
  unfold completion_status.
  destruct errs as [|e errs], fetched as [|f], cached as [|c]; simpl;
    repeat split; intros; destruct_and?; try done; try lia.
Qed.

(** C10: the aggregator returns on every input, and its status type is
    "success" exactly when the error list is empty, "warning" exactly when
    there are errors and fetched + cached > 0, "error" exactly when there
    are errors and fetched + cached = 0; it is never "info". *)
Theorem status_type_classification w srcs dt r completed st :
  ∃ a st',
    fetch_multiple_ops_managers_concurrent w srcs dt r completed st = (Ok a, st') ∧
    (status_type a = "success" ↔ errors a = []) ∧
    (status_type a = "warning" ↔ errors a ≠ [] ∧ 0 < total_fetched a + total_cached a) ∧
    (status_type a = "error" ↔ errors a ≠ [] ∧ total_fetched a + total_cached a = 0) ∧
    status_type a ≠ "info".
Proof.
  destruct (fetch_multiple_ops_managers_concurrent_unfold w srcs dt r completed st)
    as [st' ->].
  eexists _, st'. split; [done |]. simpl. apply completion_status_type.
Qed.

Lemma completion_status_message_header r fetched cached n errs :
  errs ≠ [] →
  (completion_status r fetched cached n errs).1 =
    issues_header r fetched cached n +:+ shown_errors errs.
Proof.
  intros Hne. unfold completion_status, issues_header.
  destruct errs as [|e errs]; [done |].
  destruct (_ || _), r; simpl; rewrite ?append_assoc; done.
Qed.

(** C7: when the error list of an aggregation is not empty, the status
    message is a header that depends on the counters only, followed by the
    first three errors at most, joined by "; ", and by "..." when there are
    more than three.  The error list that is returned is not cut: it holds
    the error of every task that has one, in completion order. *)
Theorem status_message_caps_errors w srcs dt r completed st a st' :
  fetch_multiple_ops_managers_concurrent w srcs dt r completed st = (Ok a, st') →
  errors a ≠ [] →
  status_message a =
    issues_header r (total_fetched a) (total_cached a) (length srcs) +:+
    join "; " (take 3 (errors a)) +:+
    (if 3 <? length (errors a) then "..." else "") ∧
  length (take 3 (errors a)) ≤ 3 ∧
  errors a = omap o_error (task_outcomes w dt r completed st).
Proof.
  destruct (fetch_multiple_ops_managers_concurrent_unfold w srcs dt r completed st)
    as [st1 ->].
  intros [= <- <-] Hne. simpl in *. split; [| split; [| done]].
  - by apply completion_status_message_header.
  - rewrite length_take. lia.
Qed.

(** ** Cache write failures *)

(** Two worlds that differ in the write error only give every task the same
    outcome. *)
Lemma outcome_at_write_error w w' dt r st om :
  adapter w' dt (url om) (public_key om) (private_key om) =
    adapter w dt (url om) (public_key om) (private_key om) →
  remove_error w' = remove_error w →
  outcome_at w' dt r st om = outcome_at w dt r st om.
Proof.
  intros Ha Hrm. rewrite !policy_outcome_correct.
  unfold policy_outcome, fetch_outcome. by rewrite Ha, Hrm.
Qed.

Lemma single_task_aggregate w srcs dt r om st :
  (fetch_multiple_ops_managers_concurrent w srcs dt r [om] st).1 =
    Ok (let o := outcome_at w dt r st om in
        let errs := omap o_error [o] in
        let status := completion_status r (o_fetched o + 0) (o_cached o + 0) (length srcs) errs in
        Aggregate (o_data o ++ []) status.1 status.2 (o_fetched o + 0) (o_cached o + 0) errs).
Proof.
  destruct (fetch_multiple_ops_managers_concurrent_unfold w srcs dt r [om] st) as [st' ->].
  done.
Qed.

(** C9: when the adapter delivers a list, [fetch_and_cache_data] returns
    (data, None) whether [save_cache] raises (world [w]) or succeeds (world
    [w'], which differs from [w] in the write error only).  The outcome of
    the fetch policy is the same in both worlds, and so is everything the
    aggregator returns for that source: records, counters, status message
    and type, errors.  Only the cache directory tells the two apart: after
    the failed write the file is as it was when the write failed before the
    file was opened, and unreadable when it failed after the file was
    opened for writing; after the successful write it holds the data. *)
Theorem cache_write_failure_not_reported w w' srcs om dt r st d e :
  adapter w dt (url om) (public_key om) (private_key om) = Returned (Some d) →
  adapter w' dt (url om) (public_key om) (private_key om) = Returned (Some d) →
  remove_error w' = remove_error w →
  write_error w (cache_file dt om) = Some e →
  write_error w' (cache_file dt om) = None →
  (fetch_and_cache_data w om dt st).1 = Ok (d, None) ∧
  (fetch_and_cache_data w' om dt st).1 = Ok (d, None) ∧
  (fetch_single_ops_manager w dt r om st).1 = (fetch_single_ops_manager w' dt r om st).1 ∧
  (fetch_multiple_ops_managers_concurrent w srcs dt r [om] st).1 =
    (fetch_multiple_ops_managers_concurrent w' srcs dt r [om] st).1 ∧
  fs (fetch_and_cache_data w om dt st).2 =
    match write_damage w (cache_file dt om) with
    | Some reason => <[cache_file dt om := Corrupt reason]> (fs st)
    | None => fs st
    end ∧
  fs (fetch_and_cache_data w' om dt st).2 = <[cache_file dt om := Envelope (now w') d]> (fs st).
Proof.
  intros Ha Ha' Hrm Hw Hw'.
  assert (outcome_at w' dt r st om = outcome_at w dt r st om) as Hsame.
  { apply outcome_at_write_error; [congruence | done]. }
  rewrite !fetch_and_cache_data_unfold, Ha, Ha', Hw, Hw'. simpl.
  repeat split.
  - rewrite (fetch_single_ops_manager_outcome_at w), (fetch_single_ops_manager_outcome_at w').
    simpl. by rewrite Hsame.
  - rewrite !single_task_aggregate. by rewrite Hsame.
  - unfold damaged. by destruct (write_damage w (cache_file dt om)).
Qed.

Lemma cache_write_failure_not_reported_witness :
  (fetch_and_cache_data Sample.disk_full Sample.east "backup" Sample.warm).1 =
    Ok ([Sample.alice], None) ∧
  (fetch_and_cache_data Sample.healthy Sample.east "backup" Sample.warm).1 =
    Ok ([Sample.alice], None) ∧
  (fetch_single_ops_manager Sample.disk_full "backup" true Sample.east Sample.warm).1 =
    (fetch_single_ops_manager Sample.healthy "backup" true Sample.east Sample.warm).1 ∧
  (fetch_multiple_ops_managers_concurrent Sample.disk_full [Sample.east] "backup" true
     [Sample.east] Sample.warm).1 =
    (fetch_multiple_ops_managers_concurrent Sample.healthy [Sample.east] "backup" true
       [Sample.east] Sample.warm).1 ∧
  fs (fetch_and_cache_data Sample.disk_full Sample.east "backup" Sample.warm).2 =
    match write_damage Sample.disk_full (cache_file "backup" Sample.east) with
    | Some reason => <[cache_file "backup" Sample.east := Corrupt reason]> (fs Sample.warm)
    | None => fs Sample.warm
    end ∧
  fs (fetch_and_cache_data Sample.healthy Sample.east "backup" Sample.warm).2 =
    <[cache_file "backup" Sample.east := Envelope (now Sample.healthy) [Sample.alice]]>
      (fs Sample.warm).
Proof.
  apply (cache_write_failure_not_reported Sample.disk_full Sample.healthy [Sample.east]
           Sample.east "backup" true Sample.warm [Sample.alice]
           "[Errno 28] No space left on device");
    reflexivity.
Defined.

(** What the failed write leaves behind in the two sample worlds: on the
    read-only disk the cache file of [east] is as it was, on the full disk
    it can no longer be read, and the next request for [east] ends in the
    error of the unreadable file. *)
Example failed_write_leaves :
  fs (fetch_and_cache_data Sample.read_only Sample.east "backup" Sample.warm).2
    = fs Sample.warm ∧
  fs (fetch_and_cache_data Sample.disk_full Sample.east "backup" Sample.warm).2
    !! cache_file "backup" Sample.east
    = Some (Corrupt "Expecting value: line 1 column 1 (char 0)") ∧
  (fetch_single_ops_manager Sample.disk_full "backup" false Sample.east
     (fetch_and_cache_data Sample.disk_full Sample.east "backup" Sample.warm).2).1
    = Ok (Outcome [] 0 0
            (Some "https://om-east.example.com:8443: Unexpected error: Expecting value: line 1 column 1 (char 0)")).
Proof. vm_compute. done. Qed.

(** ** Path selection *)

Lemma missing_cache_count_spec dt l n st m st' :
  missing_cache_count dt l n st = (Ok m, st') →
  st' = st ∧ m = n + count_sources (cache_absent_or_empty dt st) l.
Proof.
  unfold count_sources.
  revert n. induction l as [|om l IH]; intros n; simpl.
  - unfold_monad. intros [= <- <-]. split; [done | lia].
  - unfold_monad. rewrite load_cache_unfold.
    unfold cache_absent_or_empty at 1. fold (cache_file dt om).
    destruct (fs st !! cache_file dt om) as [[t c|c|e]|]; simpl; try done.
    all: try destruct c as [|x c]; simpl; intros H; apply IH in H as [-> ->];
      (split; [done | lia]).
Qed.

Lemma missing_cache_count_returns dt l n st :
  (∀ om e, om ∈ l → fs st !! cache_file dt om ≠ Some (Corrupt e)) →
  ∃ m, missing_cache_count dt l n st = (Ok m, st).
Proof.
  revert n. induction l as [|om l IH]; intros n Hok; simpl.
  - by eexists.
  - unfold_monad. rewrite load_cache_unfold. fold (cache_file dt om).
    destruct (fs st !! cache_file dt om) as [[t c|c|e]|] eqn:Hf; simpl.
    3: { exfalso. eapply (Hok om e); [left | done]. }
    all: apply IH; intros om' e' Hin; apply Hok; by right.
Qed.

(** C4, as amended: once the sources are selected, the page takes the
    concurrent path exactly when a refresh is requested or at least two
    sources have no cache file or a cache file with an empty record list. *)
Theorem path_selection w r matching completed st b a st' :
  backup_page_aggregate w r matching completed st = (Ok (b, a), st') →
  b = true ↔
  r = true ∨ 2 ≤ count_sources (cache_absent_or_empty "backup" st) matching.
Proof.
  unfold backup_page_aggregate. unfold_monad.
  destruct (missing_cache_count _ _ _ _) as [[m|e] st1] eqn:Hm; [| done].
  apply missing_cache_count_spec in Hm as [-> ->].
  unfold use_concurrent. rewrite Nat.add_0_l.
  destruct (r || _) eqn:Hpath.
  - destruct (fetch_multiple_ops_managers_concurrent _ _ _ _ _ _) as [[c|e] st2]; [| done].
    intros [= <- <- <-]. split; [| done]. intros _.
    apply orb_true_iff in Hpath as [-> | Hle]; [by left | right].
    by apply Nat.leb_le.
  - destruct (backup_page_sequential _ _ _ _) as [[c|e] st2]; [| done].
    intros [= <- <- <-]. split; [done |].
    apply orb_false_iff in Hpath as [-> Hle]. apply Nat.leb_gt in Hle.
    intros [? | ?]; [done | lia].
Qed.

(** C4 as stated counts the sources without a cache entry; two sources
    whose cache entries exist and are empty already select the concurrent
    path. *)
Lemma path_selection_empty_cache_counterexample :
  ¬ (∀ w r matching completed st b a st',
       backup_page_aggregate w r matching completed st = (Ok (b, a), st') →
       b = true ↔
       r = true ∨ 2 ≤ count_sources (cache_absent "backup" st) matching).
Proof.
  intros H.
  pose (run := backup_page_aggregate Sample.healthy false [Sample.east; Sample.west]
                 [Sample.west; Sample.east] Sample.two_empty_caches).
  assert (∃ a st', run = (Ok (true, a), st')) as (a & st' & Hrun).
  { vm_compute. eauto. }
  apply H in Hrun. destruct Hrun as [Hrun _].
  destruct (Hrun eq_refl) as [? | Hle]; [done |].
  vm_compute in Hle. lia.
Qed.

(** ** The quiet case of the status *)

Lemma backup_page_sequential_unfold w r l st a st' :
  backup_page_sequential w r l st = (Ok a, st') →
  ∃ acc, backup_page_loop w r l accum_init st = (Ok acc, st') ∧
    a = Aggregate (acc_data acc)
          (backup_page_status r (acc_fetched acc) (acc_cached acc) (acc_errors acc)).1
          (backup_page_status r (acc_fetched acc) (acc_cached acc) (acc_errors acc)).2
          (acc_fetched acc) (acc_cached acc) (acc_errors acc).
Proof.
  unfold backup_page_sequential. unfold_monad.
  destruct (backup_page_loop _ _ _ _ _) as [[acc|e] st1]; [| done].
  intros [= <- <-]. by exists acc.
Qed.

Lemma progress_decide (f c : nat) : (0 <? f) || (0 <? c) = bool_decide (0 < f + c).
Proof.
  destruct (decide (0 < f + c)) as [H | H];
    [rewrite bool_decide_eq_true_2 by done | rewrite bool_decide_eq_false_2 by done];
    destruct f, c; simpl in *; try done; lia.
Qed.

(** C8, as amended: the status type of the concurrent aggregator depends
    only on whether fetched + cached > 0 and on whether there are errors.
    Without a refresh, with fetched + cached = 0 and no error, the page's
    message is empty when it took the sequential path; on the concurrent
    path it is the "Data loaded successfully! Fetched 0 records ..."
    message with type "success". *)
Theorem status_narrator_table :
  (∀ r r' f c n errs f' c' n' errs',
     bool_decide (0 < f + c) = bool_decide (0 < f' + c') →
     truthy_list errs = truthy_list errs' →
     (completion_status r f c n errs).2 = (completion_status r' f' c' n' errs').2) ∧
  (∀ w matching completed st b a st',
     backup_page_aggregate w false matching completed st = (Ok (b, a), st') →
     total_fetched a + total_cached a = 0 →
     errors a = [] →
     status_message a =
       (if b then
          "Data loaded successfully! Fetched 0 records from API (cache was missing) across "
          +:+ str_of_nat (length matching) +:+ " Ops Managers."
        else "") ∧
     status_type a = (if b then "success" else "")).
Proof.
  split.
  - intros r r' f c n errs f' c' n' errs' Hprog Herrs.
    unfold completion_status. rewrite <- Herrs.
    destruct (truthy_list errs); [| done].
    rewrite !progress_decide, Hprog. destruct (bool_decide (0 < f' + c')); reflexivity.
  - intros w matching completed st b a st'.
    unfold backup_page_aggregate. unfold_monad.
    destruct (missing_cache_count _ _ _ _) as [[m|e] st1]; [| done].
    destruct (use_concurrent false m).
    + destruct (fetch_multiple_ops_managers_concurrent_unfold w matching "backup" false
                  completed st1) as [st2 ->].
      intros [= <- <- <-]. simpl. intros Hzero ->.
      assert (sum_list_with o_fetched (task_outcomes w "backup" false completed st1) = 0)
        as -> by lia.
      done.
    + destruct (backup_page_sequential _ _ _ _) as [[s|e] st2] eqn:Hseq; [| done].
      intros [= <- <- <-].
      apply backup_page_sequential_unfold in Hseq as (acc & _ & ->). simpl.
      intros Hzero _. unfold backup_page_status.
      assert (acc_fetched acc = 0) as -> by lia. done.
Qed.

Lemma status_narrator_table_witness :
  status_message
    (Aggregate [] "Data loaded successfully! Fetched 0 records from API (cache was missing) across 2 Ops Managers."
       "success" 0 0 []) =
    "Data loaded successfully! Fetched 0 records from API (cache was missing) across "
    +:+ str_of_nat 2 +:+ " Ops Managers." ∧
  status_type
    (Aggregate [] "Data loaded successfully! Fetched 0 records from API (cache was missing) across 2 Ops Managers."
       "success" 0 0 []) = "success".
Proof.
  apply (proj2 status_narrator_table Sample.healthy [Sample.north; Sample.south]
           [Sample.south; Sample.north] Sample.no_cache true _
           (backup_page_aggregate Sample.healthy false [Sample.north; Sample.south]
              [Sample.south; Sample.north] Sample.no_cache).2).
  - vm_compute. reflexivity.
  - reflexivity.
  - reflexivity.
Defined.

(** C8 as stated fails when two sources without cache both answer with an
    empty list: the concurrent path runs and reports a success message. *)
Lemma quiet_load_message_counterexample :
  ¬ (∀ w matching completed st b a st',
       backup_page_aggregate w false matching completed st = (Ok (b, a), st') →
       total_fetched a + total_cached a = 0 →
       errors a = [] →
       status_message a = "").
Proof.
  intros H.
  pose (run := backup_page_aggregate Sample.healthy false [Sample.north; Sample.south]
                 [Sample.south; Sample.north] Sample.no_cache).
  assert (run = (Ok (true,
            Aggregate [] "Data loaded successfully! Fetched 0 records from API (cache was missing) across 2 Ops Managers."
              "success" 0 0 []), run.2)) as Hrun.
  { vm_compute. reflexivity. }
  apply H in Hrun; [| done | done]. discriminate Hrun.
Qed.

(** ** Sequential against concurrent *)

(** One iteration of the sequential loop adds what the fetch policy returns
    for that source, and leaves the state the policy leaves. *)
Lemma backup_page_step_outcome w r om acc st acc' st' :
  backup_page_step w r om acc st = (Ok acc', st') →
  st' = (fetch_single_ops_manager w "backup" r om st).2 ∧
  acc_data acc' = acc_data acc ++ o_data (outcome_at w "backup" r st om) ∧
  acc_fetched acc' = acc_fetched acc + o_fetched (outcome_at w "backup" r st om) ∧
  acc_cached acc' = acc_cached acc + o_cached (outcome_at w "backup" r st om).
Proof.
  unfold outcome_at, backup_page_step, fetch_single_ops_manager, fetch_single_body,
    fetch_and_cache_data, call_adapter, save_cache, damaged, clear_cache, load_cache, index_key.
  unfold_monad.
  destruct (adapter _ _ _ _ _) as [[d|]|ea];
    destruct (fs st !! get_cache_filename (url om) "backup") as [[t c|c|e]|] eqn:Hentry;
    destruct r; try destruct c as [|x c]; simpl; rewrite ?Hentry;
    repeat (case_match; simpl in *; simplify_eq); intros; simplify_eq; simpl;
    rewrite ?app_nil_r, ?Nat.add_0_r; done.
Qed.

Lemma backup_page_loop_outcomes w r l acc st acc' st' :
  backup_page_loop w r l acc st = (Ok acc', st') →
  acc_data acc' = acc_data acc ++ mjoin (o_data <$> task_outcomes w "backup" r l st) ∧
  acc_fetched acc' =
    acc_fetched acc + sum_list_with o_fetched (task_outcomes w "backup" r l st) ∧
  acc_cached acc' =
    acc_cached acc + sum_list_with o_cached (task_outcomes w "backup" r l st).
Proof.
  revert acc st. induction l as [|om l IH]; intros acc st; simpl.
  - unfold_monad. intros [= <- <-]. csimpl. rewrite app_nil_r. split; [done | lia].
  - unfold_monad.
    destruct (backup_page_step w r om acc st) as [[acc1|e] st1] eqn:Hstep; [| done].
    apply backup_page_step_outcome in Hstep as (-> & Hd & Hf & Hc).
    intros H. apply IH in H as (-> & -> & ->).
    rewrite Hd, Hf, Hc. csimpl. rewrite <- app_assoc. split; [done | lia].
Qed.

(** C3, as amended: for sources with pairwise different cache files, a
    frozen world and one starting state, whenever the sequential loop of the
    page completes, the concurrent aggregator returns the same total_fetched
    and the same total_cached (hence the same sum) in every completion order
    of its tasks; the merged records are the same up to their order. *)
Theorem concurrent_matches_sequential w r srcs completed st s st_s :
  NoDup (cache_file "backup" <$> srcs) →
  completed ≡ₚ srcs →
  backup_page_sequential w r srcs st = (Ok s, st_s) →
  ∃ c st_c,
    fetch_multiple_ops_managers_concurrent w srcs "backup" r completed st = (Ok c, st_c) ∧
    total_fetched c = total_fetched s ∧
    total_cached c = total_cached s ∧
    total_fetched c + total_cached c = total_fetched s + total_cached s ∧
    all_data c ≡ₚ all_data s.
Proof.
  intros Hnd Hperm Hseq.
  apply backup_page_sequential_unfold in Hseq as (acc & Hloop & ->).
  apply backup_page_loop_outcomes in Hloop as (Hd & Hf & Hc).
  destruct (fetch_multiple_ops_managers_concurrent_unfold w srcs "backup" r completed st)
    as [st_c ->].
  eexists _, st_c. split; [done |]. simpl.
  assert (NoDup (cache_file "backup" <$> completed)) as Hnd' by by rewrite Hperm.
  rewrite (task_outcomes_independent w "backup" r completed st st) by done.
  rewrite (task_outcomes_independent w "backup" r srcs st st) in Hd, Hf, Hc by done.
  rewrite Hd, Hf, Hc. simpl. rewrite Hperm. done.
Qed.

Lemma concurrent_matches_sequential_witness :
  ∃ c st_c,
    fetch_multiple_ops_managers_concurrent Sample.healthy
      [Sample.east; Sample.west; Sample.north] "backup" false
      [Sample.north; Sample.east; Sample.west] Sample.warm = (Ok c, st_c) ∧
    total_fetched c = 2 ∧
    total_cached c = 1 ∧
    total_fetched c + total_cached c = 2 + 1 ∧
    all_data c ≡ₚ [Sample.bob; Sample.bob; Sample.alice].
Proof.
  apply (concurrent_matches_sequential Sample.healthy false
           [Sample.east; Sample.west; Sample.north]
           [Sample.north; Sample.east; Sample.west] Sample.warm
           (Aggregate [Sample.bob; Sample.bob; Sample.alice]
              "Data retrieval completed! Fetched 2 clusters from API (cache was missing)."
              "success" 2 1 [])
           (backup_page_sequential Sample.healthy false
              [Sample.east; Sample.west; Sample.north] Sample.warm).2).
  - apply (bool_decide_unpack _). vm_compute. reflexivity.
  - apply (bool_decide_unpack _). vm_compute. reflexivity.
  - vm_compute. reflexivity.
Defined.

(** C3 as stated fails on two kinds of input.  When two sources share a
    cache file, the task that runs first fills the cache the other one reads,
    so the totals depend on the order.  When a cache file cannot be read,
    the aggregator reports an error for that source and returns totals, while
    the sequential loop, which has no handler, raises. *)
Lemma concurrent_sequential_counterexample :
  ¬ (∀ w r srcs completed st s st_s,
       completed ≡ₚ srcs →
       backup_page_sequential w r srcs st = (Ok s, st_s) →
       ∃ c st_c,
         fetch_multiple_ops_managers_concurrent w srcs "backup" r completed st
           = (Ok c, st_c) ∧
         total_fetched c = total_fetched s ∧ total_cached c = total_cached s) ∧
  ¬ (∀ w r srcs completed st,
       NoDup (cache_file "backup" <$> srcs) →
       completed ≡ₚ srcs →
       ∃ s st_s c st_c,
         backup_page_sequential w r srcs st = (Ok s, st_s) ∧
         fetch_multiple_ops_managers_concurrent w srcs "backup" r completed st
           = (Ok c, st_c) ∧
         total_fetched c = total_fetched s ∧ total_cached c = total_cached s).
Proof.
  split.
  - intros H.
    destruct (H Sample.twins false [Sample.dash; Sample.dot] [Sample.dot; Sample.dash]
                Sample.no_cache
                (Aggregate [Sample.alice; Sample.alice]
                   "Data retrieval completed! Fetched 1 clusters from API (cache was missing)."
                   "success" 1 1 [])
                (backup_page_sequential Sample.twins false [Sample.dash; Sample.dot]
                   Sample.no_cache).2)
      as (c & st_c & Hrun & Hf & _).
    + apply (bool_decide_unpack _). vm_compute. reflexivity.
    + vm_compute. reflexivity.
    + vm_compute in Hrun. injection Hrun as <- _. vm_compute in Hf. discriminate Hf.
  - intros H.
    destruct (H Sample.healthy false [Sample.east] [Sample.east] Sample.broken)
      as (s & st_s & c & st_c & Hseq & _).
    + apply (bool_decide_unpack _). vm_compute. reflexivity.
    + done.
    + vm_compute in Hseq. discriminate Hseq.
Qed.

(** What the two paths return on the shared cache file. *)
Example shared_cache_file_totals :
  cache_file "backup" Sample.dash = cache_file "backup" Sample.dot ∧
  (let s := (backup_page_sequential Sample.twins false [Sample.dash; Sample.dot]
               Sample.no_cache).1 in
   (λ a, (total_fetched a, total_cached a)) <$> (match s with Ok a => Some a | _ => None end)
     = Some (1, 1)) ∧
  (let c := (fetch_multiple_ops_managers_concurrent Sample.twins
               [Sample.dash; Sample.dot] "backup" false [Sample.dot; Sample.dash]
               Sample.no_cache).1 in
   (λ a, (total_fetched a, total_cached a)) <$> (match c with Ok a => Some a | _ => None end)
     = Some (2, 2)).
Proof. vm_compute. done. Qed.

(** ** Completion of the sequential path *)

Lemma backup_page_step_returns w r om acc st :
  serviceable w "backup" st om →
  ∃ acc' st', backup_page_step w r om acc st = (Ok acc', st').
Proof.
  intros ([rg Hrg] & [env Henv] & Hrm & Hread).
  unfold backup_page_step, fetch_and_cache_data, call_adapter, save_cache, damaged, clear_cache,
    load_cache, index_key, cache_file in *.
  unfold_monad. rewrite Hrg, Henv, Hrm.
  destruct (adapter _ _ _ _ _) as [[d|]|ea];
    destruct (fs st !! get_cache_filename (url om) "backup") as [[t c|c|e]|] eqn:Hentry;
    try (by destruct (Hread e));
    destruct r; try destruct c as [|x c]; simpl; rewrite ?Hentry;
    repeat (case_match; simpl in *; simplify_eq); eauto.
Qed.

(** The sequential loop completes on serviceable sources with pairwise
    different cache files: no task touches the file of another. *)
Lemma backup_page_loop_returns w r l acc st :
  NoDup (cache_file "backup" <$> l) →
  (∀ om, om ∈ l → serviceable w "backup" st om) →
  ∃ acc' st', backup_page_loop w r l acc st = (Ok acc', st').
Proof.
  revert acc st. induction l as [|om l IH]; intros acc st Hnd Hok; simpl.
  - by eexists _, _.
  - rewrite fmap_cons in Hnd. apply NoDup_cons in Hnd as [Hnotin Hnd].
    unfold_monad.
    destruct (backup_page_step_returns w r om acc st) as (acc1 & st1 & Hstep).
    { apply Hok. left. }
    rewrite Hstep.
    apply backup_page_step_outcome in Hstep as (-> & _).
    apply IH; [done |]. intros om' Hin.
    destruct (Hok om') as (Hrg & Henv & Hrm & Hread); [by right |].
    repeat split; try done.
    intros e. rewrite fetch_single_ops_manager_frame; [apply Hread |].
    intros Heq. apply Hnotin. rewrite <- Heq. by apply list_elem_of_fmap_2.
Qed.

Lemma backup_page_sequential_returns w r l st :
  NoDup (cache_file "backup" <$> l) →
  (∀ om, om ∈ l → serviceable w "backup" st om) →
  ∃ a st', backup_page_sequential w r l st = (Ok a, st').
Proof.
  intros Hnd Hok. unfold backup_page_sequential. unfold_monad.
  destruct (backup_page_loop_returns w r l accum_init st Hnd Hok) as (acc & st' & ->).
  by eexists _, _.
Qed.

(** ** Errors on the sequential path of the page *)

Lemma backup_page_aggregate_unfold w r matching completed st b a st' :
  backup_page_aggregate w r matching completed st = (Ok (b, a), st') →
  b = use_concurrent r (count_sources (cache_absent_or_empty "backup" st) matching) ∧
  if b then
    fetch_multiple_ops_managers_concurrent w matching "backup" r completed st = (Ok a, st')
  else backup_page_sequential w r matching st = (Ok a, st').
Proof.
  unfold backup_page_aggregate. unfold_monad.
  destruct (missing_cache_count _ _ _ _) as [[m|e] st1] eqn:Hm; [| done].
  apply missing_cache_count_spec in Hm as [-> ->]. rewrite Nat.add_0_l.
  destruct (use_concurrent r _).
  - destruct (fetch_multiple_ops_managers_concurrent _ _ _ _ _ _) as [[c|e] st2]; [| done].
    by intros [= <- <- <-].
  - destruct (backup_page_sequential _ _ _ _) as [[c|e] st2]; [| done].
    by intros [= <- <- <-].
Qed.

(** Without a refresh, an iteration records an error only for a source
    whose cache is missing or empty. *)
Lemma backup_page_step_errors w om acc st acc' st' :
  backup_page_step w false om acc st = (Ok acc', st') →
  length (acc_errors acc') ≤
    length (acc_errors acc) + (if cache_absent_or_empty "backup" st om then 1 else 0).
Proof.
  unfold backup_page_step, fetch_and_cache_data, call_adapter, save_cache, damaged, clear_cache,
    load_cache, index_key, cache_absent_or_empty, cache_file.
  unfold_monad.
  destruct (adapter _ _ _ _ _) as [[d|]|ea];
    destruct (fs st !! get_cache_filename (url om) "backup") as [[t c|c|e]|] eqn:Hentry;
    try destruct c as [|x c]; simpl; rewrite ?Hentry;
    repeat (case_match; simpl in *; simplify_eq); intros; simplify_eq; simpl;
    rewrite ?length_app; simpl; lia.
Qed.

(** Without a refresh, no task empties or removes a cache that holds records. *)
Lemma fetch_single_ops_manager_keeps_cache w dt om st g :
  truthy_cached (payload_of (fs st !! g)) = true →
  truthy_cached (payload_of (fs (fetch_single_ops_manager w dt false om st).2 !! g)) = true.
Proof.
  destruct (decide (g = cache_file dt om)) as [-> | Hne].
  2: { by rewrite fetch_single_ops_manager_frame. }
  unfold fetch_single_ops_manager, fetch_single_body, fetch_and_cache_data, call_adapter,
    save_cache, damaged, clear_cache, load_cache, cache_file in *.
  unfold_monad.
  destruct (fs st !! get_cache_filename (url om) dt) as [[t c|c|e0]|] eqn:Hentry;
    try destruct c as [|x c]; simpl; try done; by rewrite Hentry.
Qed.

Lemma count_sources_mono (p q : ops_manager → bool) (l : list ops_manager) :
  (∀ om, p om = true → q om = true) →
  count_sources p l ≤ count_sources q l.
Proof.
  intros Hpq. unfold count_sources.
  induction l as [|om l IH]; simpl; [done |].
  destruct (p om) eqn:Hp.
  - rewrite (Hpq om Hp). simpl. lia.
  - destruct (q om); simpl; lia.
Qed.

Lemma backup_page_loop_errors w l acc st acc' st' :
  backup_page_loop w false l acc st = (Ok acc', st') →
  length (acc_errors acc') ≤
    length (acc_errors acc) + count_sources (cache_absent_or_empty "backup" st) l.
Proof.
  revert acc st. induction l as [|om l IH]; intros acc st; simpl.
  - unfold_monad. intros [= <- <-]. unfold count_sources. simpl. lia.
  - unfold_monad.
    destruct (backup_page_step w false om acc st) as [[acc1|e] st1] eqn:Hstep; [| done].
    intros Hloop. apply IH in Hloop.
    pose proof (backup_page_step_errors _ _ _ _ _ _ Hstep) as Herr.
    apply backup_page_step_outcome in Hstep as (-> & _).
    assert (count_sources
              (cache_absent_or_empty "backup"
                 (fetch_single_ops_manager w "backup" false om st).2) l
            ≤ count_sources (cache_absent_or_empty "backup" st) l) as Hmono.
    { apply count_sources_mono. intros om'. unfold cache_absent_or_empty.
      rewrite !negb_true_iff. intros Hfalsy.
      destruct (truthy_cached (payload_of (fs st !! cache_file "backup" om'))) eqn:Ht;
        [| done].
      by rewrite (fetch_single_ops_manager_keeps_cache w "backup" om st) in Hfalsy. }
    unfold count_sources in *. simpl.
    destruct (cache_absent_or_empty "backup" st om); simpl; lia.
Qed.

(** The sequential path is taken without a refresh only; it returns at most
    one error, and its message shows none. *)
Lemma sequential_path_errors w r matching completed st a st' :
  backup_page_aggregate w r matching completed st = (Ok (false, a), st') →
  r = false ∧
  length (errors a) ≤ 1 ∧
  status_message a =
    (backup_page_status false (total_fetched a) (total_cached a) []).1.
Proof.
  intros Hrun. apply backup_page_aggregate_unfold in Hrun as [Hpath Hseq].
  symmetry in Hpath. apply orb_false_iff in Hpath as [-> Hmiss].
  apply Nat.leb_gt in Hmiss. split; [done |].
  apply backup_page_sequential_unfold in Hseq as (acc & Hloop & ->). simpl.
  apply backup_page_loop_errors in Hloop. simpl in Hloop. split; [lia | done].
Qed.

(** ** Worked inputs *)

Lemma path_selection_witness :
  true = true ↔
  false = true ∨
  2 ≤ count_sources (cache_absent_or_empty "backup" Sample.warm)
        [Sample.east; Sample.west; Sample.north].
Proof.
  apply (path_selection Sample.healthy false [Sample.east; Sample.west; Sample.north]
           [Sample.north; Sample.west; Sample.east] Sample.warm true
           (result_of (true, no_aggregate)
              (backup_page_aggregate Sample.healthy false
                 [Sample.east; Sample.west; Sample.north]
                 [Sample.north; Sample.west; Sample.east] Sample.warm)).2
           (backup_page_aggregate Sample.healthy false
              [Sample.east; Sample.west; Sample.north]
              [Sample.north; Sample.west; Sample.east] Sample.warm).2).
  vm_compute. reflexivity.
Defined.

(** The three cases of the path selection over five sources: one cache
    missing, two caches missing, and a refresh with no cache missing. *)
Example path_selection_five_sources :
  (result_of (true, no_aggregate)
     (backup_page_aggregate Sample.healthy false Sample.five Sample.five
        (Sample.warm_first 4))).1 = false ∧
  (result_of (false, no_aggregate)
     (backup_page_aggregate Sample.healthy false Sample.five Sample.five
        (Sample.warm_first 3))).1 = true ∧
  (result_of (false, no_aggregate)
     (backup_page_aggregate Sample.healthy true Sample.five Sample.five
        (Sample.warm_first 5))).1 = true.
Proof. vm_compute. done. Qed.

Lemma status_message_caps_errors_witness :
  let a := result_of no_aggregate
             (fetch_multiple_ops_managers_concurrent Sample.down
                [Sample.east; Sample.west; Sample.north; Sample.south] "backup" false
                [Sample.south; Sample.east; Sample.north; Sample.west] Sample.no_cache) in
  status_message a =
    issues_header false (total_fetched a) (total_cached a) 4 +:+
    join "; " (take 3 (errors a)) +:+
    (if 3 <? length (errors a) then "..." else "") ∧
  length (take 3 (errors a)) ≤ 3 ∧
  errors a =
    omap o_error
      (task_outcomes Sample.down "backup" false
         [Sample.south; Sample.east; Sample.north; Sample.west] Sample.no_cache).
Proof.
  apply (status_message_caps_errors Sample.down
           [Sample.east; Sample.west; Sample.north; Sample.south] "backup" false
           [Sample.south; Sample.east; Sample.north; Sample.west] Sample.no_cache _
           (fetch_multiple_ops_managers_concurrent Sample.down
              [Sample.east; Sample.west; Sample.north; Sample.south] "backup" false
              [Sample.south; Sample.east; Sample.north; Sample.west] Sample.no_cache).2).
  - vm_compute. reflexivity.
  - vm_compute. discriminate.
Defined.

(** Four failing sources: four errors are returned, three are shown. *)
Example four_errors_three_shown :
  let a := result_of no_aggregate
             (fetch_multiple_ops_managers_concurrent Sample.down
                [Sample.east; Sample.west; Sample.north; Sample.south] "backup" false
                [Sample.south; Sample.east; Sample.north; Sample.west] Sample.no_cache) in
  length (errors a) = 4 ∧
  status_type a = "error" ∧
  status_message a =
    "Data loading failed. Errors: eu-south-dev: No backup data returned from API for https://om-south.example.com:8443; us-east-prod: No backup data returned from API for https://om-east.example.com:8443; eu-north-dev: No backup data returned from API for https://om-north.example.com:8443...".
Proof. vm_compute. done. Qed.

(** * Further properties of the code *)

(** ** The cache store *)

(** X1: a save that succeeds is read back: [load_cache] returns the saved
    records, [get_cache_timestamp] returns the time of the save, whatever the
    file held before (also when it could not be read), and no other file
    and no adapter is touched. *)
Theorem save_then_load w data f st :
  write_error w f = None →
  ∃ st',
    save_cache w data f st = (Ok (), st') ∧
    load_cache f st' = (Ok (Some data), st') ∧
    get_cache_timestamp f st' = (Ok (Some (now w)), st') ∧
    (∀ g, g ≠ f → fs st' !! g = fs st !! g) ∧
    calls st' = calls st.
Proof.
  intros Hw. unfold save_cache, load_cache, get_cache_timestamp. rewrite Hw.
  eexists. split; [done |]. simpl. rewrite lookup_insert_eq.
  repeat split. intros g Hg. by rewrite lookup_insert_ne.
Qed.

Lemma save_then_load_witness :
  ∃ st',
    save_cache Sample.healthy [Sample.alice] (cache_file "backup" Sample.east) Sample.broken
      = (Ok (), st') ∧
    load_cache (cache_file "backup" Sample.east) st' = (Ok (Some [Sample.alice]), st') ∧
    get_cache_timestamp (cache_file "backup" Sample.east) st'
      = (Ok (Some (now Sample.healthy)), st') ∧
    (∀ g, g ≠ cache_file "backup" Sample.east → fs st' !! g = fs Sample.broken !! g) ∧
    calls st' = calls Sample.broken.
Proof.
  apply (save_then_load Sample.healthy [Sample.alice] (cache_file "backup" Sample.east)
           Sample.broken).
  reflexivity.
Defined.

(** X2: after a [clear_cache] that does not fail, the file is gone: loading
    it returns [None] and it has no timestamp, also when the file could not
    be read before.  No other file changes, and clearing a file that does not
    exist changes nothing. *)
Theorem clear_then_load w f st :
  remove_error w f = None →
  ∃ st',
    clear_cache w f st = (Ok (), st') ∧
    load_cache f st' = (Ok None, st') ∧
    get_cache_timestamp f st' = (Ok None, st') ∧
    (∀ g, g ≠ f → fs st' !! g = fs st !! g) ∧
    (fs st !! f = None → st' = st) ∧
    clear_cache w f st' = (Ok (), st').
Proof.
  intros Hrm. unfold clear_cache, load_cache, get_cache_timestamp. rewrite Hrm.
  destruct (fs st !! f) eqn:Hf.
  - eexists. split; [done |]. simpl. rewrite lookup_delete_eq.
    repeat split; try done. intros g Hg. by rewrite lookup_delete_ne.
  - exists st. rewrite Hf. done.
Qed.

Lemma clear_then_load_witness :
  ∃ st',
    clear_cache Sample.healthy (cache_file "backup" Sample.east) Sample.broken = (Ok (), st') ∧
    load_cache (cache_file "backup" Sample.east) st' = (Ok None, st') ∧
    get_cache_timestamp (cache_file "backup" Sample.east) st' = (Ok None, st') ∧
    (∀ g, g ≠ cache_file "backup" Sample.east → fs st' !! g = fs Sample.broken !! g) ∧
    (fs Sample.broken !! cache_file "backup" Sample.east = None → st' = Sample.broken) ∧
    clear_cache Sample.healthy (cache_file "backup" Sample.east) st' = (Ok (), st').
Proof.
  apply (clear_then_load Sample.healthy (cache_file "backup" Sample.east) Sample.broken).
  reflexivity.
Defined.

(** ** Cache file names *)

Lemma is_safe_sanitized (c : ascii) : is_safe (if is_alnum c then c else "_"%char) = true.
Proof. unfold is_safe. destruct (is_alnum c) eqn:Hc; [by rewrite Hc | done]. Qed.

Lemma sanitize_fixes_safe (s : string) : all_chars is_alnum s = true → sanitize s = s.
Proof.
  induction s as [|c s IH]; simpl; [done |].
  intros [Hc Hs]%andb_true_iff. by rewrite Hc, IH.
Qed.

(** X3: the sanitized name has the length of the name, consists of letters,
    digits and underscores only, keeps every letter and digit in its place,
    and sanitizing it again changes nothing. *)
Theorem sanitize_safe (s : string) :
  String.length (sanitize s) = String.length s ∧
  all_chars is_safe (sanitize s) = true ∧
  sanitize (sanitize s) = sanitize s ∧
  (all_chars is_alnum s = true → sanitize s = s).
Proof.
  repeat split.
  - induction s as [|c s IH]; simpl; [done | by rewrite IH].
  - induction s as [|c s IH]; simpl; [done |]. by rewrite is_safe_sanitized, IH.
  - induction s as [|c s IH]; simpl; [done |]. rewrite IH.
    destruct (is_alnum c) eqn:Hc; [by rewrite Hc | done].
  - apply sanitize_fixes_safe.
Qed.

Lemma length_append (a b : string) :
  String.length (a +:+ b) = String.length a + String.length b.
Proof. induction a as [|x a IH]; [done |]. rewrite append_cons. simpl. by rewrite IH. Qed.

Lemma append_cancel_r (a b c : string) : a +:+ c = b +:+ c → a = b.
Proof.
  revert b. induction a as [|x a IH]; intros [|y b] H.
  - done.
  - apply (f_equal String.length) in H. rewrite !length_append in H. simpl in H. lia.
  - apply (f_equal String.length) in H. rewrite !length_append in H. simpl in H. lia.
  - rewrite !append_cons in H. injection H as -> H. f_equal. by apply IH.
Qed.

(** X4: cache files of two different categories are different files,
    whatever the names of the sources; within one category two names share a
    file exactly when they sanitize to the same text. *)
Theorem cache_files_by_category (n m t1 t2 : string) :
  t1 ∈ categories → t2 ∈ categories →
  get_cache_filename n t1 = get_cache_filename m t2 ↔ t1 = t2 ∧ sanitize n = sanitize m.
Proof.
  unfold categories. intros H1 H2.
  assert (∀ a b : string, a +:+ ".json" = b +:+ ".json" → a = b) as Hjson.
  { intros a b. apply append_cancel_r. }
  split.
  - intros Heq. unfold get_cache_filename, CACHE_DIR in Heq.
    apply list_elem_of_In in H1, H2. simpl in H1, H2.
    destruct H1 as [<- | [<- | [<- | []]]]; destruct H2 as [<- | [<- | [<- | []]]];
      rewrite ?append_cons, ?append_nil in Heq; simplify_eq;
      (split; [done |]); by apply Hjson.
  - intros [-> Hs]. unfold get_cache_filename. by rewrite Hs.
Qed.

Lemma cache_files_by_category_witness :
  get_cache_filename "https://om-a-b.example.com" "backup"
    = get_cache_filename "https://om-a.b.example.com" "backup" ↔
  "backup" = "backup" ∧
  sanitize "https://om-a-b.example.com" = sanitize "https://om-a.b.example.com".
Proof.
  apply (cache_files_by_category "https://om-a-b.example.com" "https://om-a.b.example.com"
           "backup" "backup"); apply (bool_decide_unpack _); vm_compute; reflexivity.
Defined.

(** ** What one task does to the state *)

Lemma fetch_single_ops_manager_state w dt r om st :
  (fetch_single_ops_manager w dt r om st).2 =
    match fs st !! cache_file dt om with
    | Some (Corrupt _) => st
    | entry =>
        if needs_fetch dt r st om then
          if r && truthy_cached (payload_of entry) then
            match remove_error w (cache_file dt om) with
            | Some _ => st
            | None =>
                (fetch_and_cache_data w om dt
                   (State (delete (cache_file dt om) (fs st)) (calls st))).2
            end
          else (fetch_and_cache_data w om dt st).2
        else st
    end.
Proof.
  unfold needs_fetch, cache_absent_or_empty.
  unfold fetch_single_ops_manager, fetch_single_body, clear_cache, load_cache.
  unfold_monad. fold (cache_file dt om).
  destruct (fs st !! cache_file dt om) as [[t c|c|e]|] eqn:Hentry; simpl; [| | done |].
  all: destruct r; try destruct c as [|x c]; simpl; rewrite ?Hentry;
    try destruct (remove_error w _); simpl; try done.
  all: match goal with
       | |- context [fetch_and_cache_data ?w0 ?om0 ?dt0 ?s] =>
           destruct (fetch_and_cache_data_returns w0 om0 dt0 s) as (fd & em & st1 & ->)
       end; simpl; by destruct (truthy_error em).
Qed.

Lemma fetch_single_ops_manager_run w dt r om st :
  fetch_single_ops_manager w dt r om st =
    (Ok (policy_outcome w dt r om (fs st !! cache_file dt om)),
     (fetch_single_ops_manager w dt r om st).2).
Proof. by rewrite (fetch_single_ops_manager_outcome_at w dt r om st), policy_outcome_correct. Qed.

(** X5: when the policy goes to the adapter and the adapter delivers, on a
    disk that works, the outcome is the fresh data, the adapter is called
    once, and the cache file of the source afterwards holds exactly that data
    with the time of the save.  If the data is not empty, the next request
    without refresh is answered from the cache, with no adapter call and no
    change of state; if it is empty, the next request goes to the adapter
    again. *)
Theorem fetched_data_is_cached w dt r om st d :
  (∀ e, fs st !! cache_file dt om ≠ Some (Corrupt e)) →
  remove_error w (cache_file dt om) = None →
  write_error w (cache_file dt om) = None →
  adapter w dt (url om) (public_key om) (private_key om) = Returned (Some d) →
  needs_fetch dt r st om = true →
  ∃ st',
    fetch_single_ops_manager w dt r om st = (Ok (Outcome d (length d) 0 None), st') ∧
    fs st' !! cache_file dt om = Some (Envelope (now w) d) ∧
    calls st' = calls st ++ [(dt, url om)] ∧
    (d ≠ [] →
     fetch_single_ops_manager w dt false om st' = (Ok (Outcome d 0 (length d) None), st')) ∧
    (d = [] → needs_fetch dt false st' om = true).
Proof.
  intros Hread Hrm Hwr Had Hneed.
  exists (fetch_single_ops_manager w dt r om st).2.
  assert (fs (fetch_single_ops_manager w dt r om st).2 !! cache_file dt om
          = Some (Envelope (now w) d)
          ∧ calls (fetch_single_ops_manager w dt r om st).2 = calls st ++ [(dt, url om)])
    as [Hfile Hcalls].
  { rewrite fetch_single_ops_manager_state, Hneed, Hrm.
    rewrite !fetch_and_cache_data_unfold, Had, Hwr.
    destruct (fs st !! cache_file dt om) as [[t c|c|e]|] eqn:Hentry;
      try (by destruct (Hread e));
      destruct (r && _); simpl; by rewrite lookup_insert_eq. }
  split; [| split; [done | split; [done | split]]].
  - rewrite fetch_single_ops_manager_run at 1. f_equal. f_equal.
    unfold needs_fetch, cache_absent_or_empty in Hneed.
    unfold policy_outcome, fetch_outcome. rewrite Had, Hrm.
    destruct (fs st !! cache_file dt om) as [[t c|c|e]|] eqn:Hentry;
      try (by destruct (Hread e)); simpl in *; rewrite Hneed; by destruct (r && _).
  - intros Hd. clear Hcalls.
    generalize dependent (fetch_single_ops_manager w dt r om st).2. intros st' Hfile.
    rewrite (fetch_single_ops_manager_run w dt false om st').
    rewrite (fetch_single_ops_manager_state w dt false om st').
    unfold needs_fetch, cache_absent_or_empty.
    rewrite Hfile. unfold policy_outcome. simpl.
    destruct d as [|x d]; [done |]. done.
  - intros ->. unfold needs_fetch, cache_absent_or_empty. by rewrite Hfile.
Qed.

Lemma fetched_data_is_cached_witness :
  ∃ st',
    fetch_single_ops_manager Sample.healthy "backup" true Sample.east Sample.warm
      = (Ok (Outcome [Sample.alice] 1 0 None), st') ∧
    fs st' !! cache_file "backup" Sample.east
      = Some (Envelope (now Sample.healthy) [Sample.alice]) ∧
    calls st' = calls Sample.warm ++ [("backup", url Sample.east)] ∧
    ([Sample.alice] ≠ [] →
     fetch_single_ops_manager Sample.healthy "backup" false Sample.east st'
       = (Ok (Outcome [Sample.alice] 0 1 None), st')) ∧
    ([Sample.alice] = [] → needs_fetch "backup" false st' Sample.east = true).
Proof.
  apply (fetched_data_is_cached Sample.healthy "backup" true Sample.east Sample.warm
           [Sample.alice]); try reflexivity.
  intros e. vm_compute. discriminate.
Defined.

(** X6: a refresh whose adapter call fails serves the old records once and
    leaves no cache behind: the file was deleted before the fetch and nothing
    writes it again, so the next request without refresh has to go to the
    adapter. *)
Theorem failed_refresh_loses_cache w dt om st cached :
  payload_of (fs st !! cache_file dt om) = Some cached →
  cached ≠ [] →
  remove_error w (cache_file dt om) = None →
  adapter_fails w dt om →
  ∃ o st',
    fetch_single_ops_manager w dt true om st = (Ok o, st') ∧
    o_data o = cached ∧
    fs st' !! cache_file dt om = None ∧
    needs_fetch dt false st' om = true.
Proof.
  intros Hpay Hne Hrm Hfail.
  eexists _, (fetch_single_ops_manager w dt true om st).2.
  split; [apply fetch_single_ops_manager_run |].
  assert (fs (fetch_single_ops_manager w dt true om st).2 !! cache_file dt om = None)
    as Hgone.
  { rewrite fetch_single_ops_manager_state. unfold needs_fetch. rewrite Hrm.
    rewrite !fetch_and_cache_data_unfold.
    destruct (fs st !! cache_file dt om) as [[t c|c|e]|] eqn:Hentry; simpl in Hpay;
      simplify_eq; (destruct cached as [|x cached]; [done |]); simpl;
      (destruct (adapter _ _ _ _ _) as [[d|]|ea] eqn:Had; [by destruct (Hfail d) | |]);
      simpl; by rewrite lookup_delete_eq. }
  split; [| split; [done |]].
  - unfold policy_outcome, fetch_outcome, failure_outcome. rewrite Hrm.
    destruct (fs st !! cache_file dt om) as [[t c|c|e]|] eqn:Hentry; simpl in Hpay;
      simplify_eq; (destruct cached as [|x cached]; [done |]); simpl;
      (destruct (adapter _ _ _ _ _) as [[d|]|ea] eqn:Had; [by destruct (Hfail d) | |]);
      done.
  - unfold needs_fetch, cache_absent_or_empty. by rewrite Hgone.
Qed.

Lemma failed_refresh_loses_cache_witness :
  ∃ o st',
    fetch_single_ops_manager Sample.down "backup" true Sample.east Sample.warm = (Ok o, st') ∧
    o_data o = [Sample.bob] ∧
    fs st' !! cache_file "backup" Sample.east = None ∧
    needs_fetch "backup" false st' Sample.east = true.
Proof.
  apply (failed_refresh_loses_cache Sample.down "backup" Sample.east Sample.warm [Sample.bob]).
  - vm_compute. reflexivity.
  - discriminate.
  - reflexivity.
  - intros d. vm_compute. discriminate.
Defined.

(** One task calls the adapter at most once, and only for its own source. *)
Lemma fetch_single_ops_manager_calls w dt r om st :
  calls (fetch_single_ops_manager w dt r om st).2 = calls st ∨
  calls (fetch_single_ops_manager w dt r om st).2 = calls st ++ [(dt, url om)].
Proof.
  rewrite fetch_single_ops_manager_state.
  assert (∀ s, calls (fetch_and_cache_data w om dt s).2 = calls s ++ [(dt, url om)]) as Hf.
  { intros s. rewrite fetch_and_cache_data_unfold.
    repeat case_match; simpl; by rewrite ?damaged_calls. }
  repeat case_match; rewrite ?Hf; simpl; auto.
Qed.

Lemma task_calls w dt r om st :
  (∀ e, fs st !! cache_file dt om ≠ Some (Corrupt e)) →
  remove_error w (cache_file dt om) = None →
  calls (fetch_single_ops_manager w dt r om st).2 =
    calls st ++ (if needs_fetch dt r st om then [(dt, url om)] else []).
Proof.
  intros Hread Hrm. rewrite fetch_single_ops_manager_state, Hrm.
  assert (∀ s, calls (fetch_and_cache_data w om dt s).2 = calls s ++ [(dt, url om)]) as Hf.
  { intros s. rewrite fetch_and_cache_data_unfold.
    repeat case_match; simpl; by rewrite ?damaged_calls. }
  destruct (fs st !! cache_file dt om) as [[t c|c|e]|] eqn:Hentry;
    try (by destruct (Hread e));
    destruct (needs_fetch dt r st om); rewrite ?app_nil_r; try done;
    destruct (r && _); by rewrite Hf.
Qed.

(** X7: on a cache that can be read and deleted, the policy calls the
    adapter of its source exactly once when a refresh is requested or the
    cache is missing or empty, and not at all otherwise. *)
Theorem adapter_called_when_needed w dt r om st :
  (∀ e, fs st !! cache_file dt om ≠ Some (Corrupt e)) →
  remove_error w (cache_file dt om) = None →
  calls (fetch_single_ops_manager w dt r om st).2 =
    calls st ++ (if needs_fetch dt r st om then [(dt, url om)] else []).
Proof. apply task_calls. Qed.

Lemma adapter_called_when_needed_witness :
  calls (fetch_single_ops_manager Sample.healthy "backup" false Sample.east
           Sample.empty_cache).2 =
    calls Sample.empty_cache ++
    (if needs_fetch "backup" false Sample.empty_cache Sample.east
     then [("backup", url Sample.east)] else []).
Proof.
  apply (adapter_called_when_needed Sample.healthy "backup" false Sample.east
           Sample.empty_cache).
  - intros e. vm_compute. discriminate.
  - reflexivity.
Defined.

(** ** What a run of tasks does to the state *)

Lemma collect_results_state w dt r l acc st :
  (collect_results w dt r l acc st).2 = run_tasks w dt r l st.
Proof.
  revert acc st. induction l as [|om l IH]; intros acc st; [done |].
  rewrite collect_results_cons. simpl. apply IH.
Qed.

Lemma fetch_multiple_ops_managers_concurrent_state w srcs dt r completed st :
  (fetch_multiple_ops_managers_concurrent w srcs dt r completed st).2 =
    run_tasks w dt r completed st.
Proof.
  unfold fetch_multiple_ops_managers_concurrent. unfold_monad.
  rewrite <- (collect_results_state w dt r completed accum_init st).
  by destruct (collect_results _ _ _ _ _ _) as [[acc|e] st1].
Qed.

Lemma backup_page_loop_state w r l acc st acc' st' :
  backup_page_loop w r l acc st = (Ok acc', st') → st' = run_tasks w "backup" r l st.
Proof.
  revert acc st. induction l as [|om l IH]; intros acc st; simpl.
  - unfold_monad. by intros [= <- <-].
  - unfold_monad.
    destruct (backup_page_step w r om acc st) as [[acc1|e] st1] eqn:Hstep; [| done].
    apply backup_page_step_outcome in Hstep as (-> & _). apply IH.
Qed.

(** The state a page leaves is the state its tasks leave. *)
Lemma backup_page_aggregate_state w r matching completed st b a st' :
  backup_page_aggregate w r matching completed st = (Ok (b, a), st') →
  st' = run_tasks w "backup" r (if b then completed else matching) st.
Proof.
  intros Hrun. apply backup_page_aggregate_unfold in Hrun as [_ Hrun].
  destruct b.
  - rewrite <- (fetch_multiple_ops_managers_concurrent_state w matching).
    by rewrite Hrun.
  - apply backup_page_sequential_unfold in Hrun as (acc & Hloop & _).
    by apply backup_page_loop_state in Hloop.
Qed.

Lemma run_tasks_frame w dt r l st g :
  g ∉ cache_file dt <$> l → fs (run_tasks w dt r l st) !! g = fs st !! g.
Proof.
  revert st. induction l as [|om l IH]; intros st Hg; [done |].
  rewrite fmap_cons, not_elem_of_cons in Hg. destruct Hg as [Hne Hg].
  simpl. rewrite IH by done. by apply fetch_single_ops_manager_frame.
Qed.

Lemma run_tasks_calls w dt r l st :
  ∃ new_calls,
    calls (run_tasks w dt r l st) = calls st ++ new_calls ∧
    length new_calls ≤ length l ∧
    ∀ c, c ∈ new_calls → ∃ om, om ∈ l ∧ c = (dt, url om).
Proof.
  revert st. induction l as [|om l IH]; intros st; simpl.
  - exists []. rewrite app_nil_r. repeat split; [done |]. by intros c Hc%elem_of_nil.
  - destruct (IH (fetch_single_ops_manager w dt r om st).2) as (new & Hnew & Hlen & Hown).
    destruct (fetch_single_ops_manager_calls w dt r om st) as [Hc | Hc]; rewrite Hc in Hnew.
    + exists new. split; [done |]. split; [lia |].
      intros c Hin. destruct (Hown c Hin) as (om' & Hom' & ->). exists om'. split; [by right | done].
    + exists ((dt, url om) :: new). rewrite <- app_assoc in Hnew. split; [done |].
      split; [simpl; lia |].
      intros c [-> | Hin]%elem_of_cons.
      * exists om. split; [left | done].
      * destruct (Hown c Hin) as (om' & Hom' & ->). exists om'. split; [by right | done].
Qed.

(** X8: whichever path it takes, the page reads and writes the cache files
    of the selected sources only, and calls the adapter of selected sources
    only, at most once for each entry of the selection. *)
Theorem page_confined_to_selection w r matching completed st b a st' :
  completed ≡ₚ matching →
  backup_page_aggregate w r matching completed st = (Ok (b, a), st') →
  (∀ g, g ∉ cache_file "backup" <$> matching → fs st' !! g = fs st !! g) ∧
  ∃ new_calls,
    calls st' = calls st ++ new_calls ∧
    length new_calls ≤ length matching ∧
    ∀ c, c ∈ new_calls → ∃ om, om ∈ matching ∧ c = ("backup", url om).
Proof.
  intros Hperm Hrun. apply backup_page_aggregate_state in Hrun as ->.
  assert ((if b then completed else matching) ≡ₚ matching) as Hl by by destruct b.
  split.
  - intros g Hg. apply run_tasks_frame. by rewrite Hl.
  - destruct (run_tasks_calls w "backup" r (if b then completed else matching) st)
      as (new & Hnew & Hlen & Hown).
    exists new. split; [done |]. split; [by rewrite <- Hl |].
    intros c Hin. destruct (Hown c Hin) as (om & Hom & ->). exists om.
    split; [by rewrite <- Hl | done].
Qed.

Lemma page_confined_to_selection_witness :
  (∀ g, g ∉ cache_file "backup" <$> [Sample.east; Sample.west; Sample.north] →
        fs (backup_page_aggregate Sample.healthy false
              [Sample.east; Sample.west; Sample.north]
              [Sample.north; Sample.west; Sample.east] Sample.warm).2 !! g
        = fs Sample.warm !! g) ∧
  ∃ new_calls,
    calls (backup_page_aggregate Sample.healthy false
             [Sample.east; Sample.west; Sample.north]
             [Sample.north; Sample.west; Sample.east] Sample.warm).2
      = calls Sample.warm ++ new_calls ∧
    length new_calls ≤ length [Sample.east; Sample.west; Sample.north] ∧
    ∀ c, c ∈ new_calls →
         ∃ om, om ∈ [Sample.east; Sample.west; Sample.north] ∧ c = ("backup", url om).
Proof.
  apply (page_confined_to_selection Sample.healthy false
           [Sample.east; Sample.west; Sample.north]
           [Sample.north; Sample.west; Sample.east] Sample.warm true
           (result_of (true, no_aggregate)
              (backup_page_aggregate Sample.healthy false
                 [Sample.east; Sample.west; Sample.north]
                 [Sample.north; Sample.west; Sample.east] Sample.warm)).2).
  - apply (bool_decide_unpack _). vm_compute. reflexivity.
  - vm_compute. reflexivity.
Defined.

(** In the model the tasks of a refresh log their calls one after the
    other.  With pairwise different cache files no task sees what another
    one does, so every task finds its file readable and calls its
    adapter. *)
Lemma refresh_run_calls w dt l st :
  NoDup (cache_file dt <$> l) →
  (∀ om, om ∈ l →
         remove_error w (cache_file dt om) = None ∧
         ∀ e, fs st !! cache_file dt om ≠ Some (Corrupt e)) →
  calls (run_tasks w dt true l st) = calls st ++ ((λ om, (dt, url om)) <$> l).
Proof.
  revert st. induction l as [|om l IH]; intros st Hnd Hok; simpl.
  - by rewrite app_nil_r.
  - rewrite fmap_cons in Hnd. apply NoDup_cons in Hnd as [Hnotin Hnd].
    rewrite IH; [| done |].
    + destruct (Hok om) as [Hrm Hread]; [left |].
      rewrite task_calls by done. simpl. by rewrite <- app_assoc.
    + intros om' Hin. destruct (Hok om') as [Hrm Hread]; [by right |].
      split; [done |]. intros e.
      rewrite fetch_single_ops_manager_frame; [apply Hread |].
      intros Heq. apply Hnotin. rewrite <- Heq. by apply list_elem_of_fmap_2.
Qed.

(** What a task leaves in its own cache file depends on that file only. *)
Lemma fetch_single_ops_manager_local w dt r om st1 st2 :
  fs st1 !! cache_file dt om = fs st2 !! cache_file dt om →
  fs (fetch_single_ops_manager w dt r om st1).2 !! cache_file dt om
  = fs (fetch_single_ops_manager w dt r om st2).2 !! cache_file dt om.
Proof.
  intros Hsame. rewrite !fetch_single_ops_manager_state.
  unfold needs_fetch, cache_absent_or_empty. rewrite <- Hsame.
  rewrite !fetch_and_cache_data_unfold. unfold damaged, logged.
  destruct (fs st1 !! cache_file dt om) as [[t c|c|e]|] eqn:Hentry; try done;
    repeat (case_match; simpl in *; simplify_eq);
    simpl; rewrite ?lookup_insert_eq, ?lookup_delete_eq; congruence.
Qed.

(** Two tasks with different cache files can run in either order. *)
Lemma fetch_single_ops_manager_swap w dt r a b st :
  cache_file dt a ≠ cache_file dt b →
  fs (fetch_single_ops_manager w dt r b (fetch_single_ops_manager w dt r a st).2).2
  = fs (fetch_single_ops_manager w dt r a (fetch_single_ops_manager w dt r b st).2).2.
Proof.
  intros Hne. apply map_eq. intros g.
  destruct (decide (g = cache_file dt a)) as [-> | Ha];
    [| destruct (decide (g = cache_file dt b)) as [-> | Hb]].
  - rewrite fetch_single_ops_manager_frame by done.
    apply fetch_single_ops_manager_local.
    by rewrite fetch_single_ops_manager_frame.
  - rewrite (fetch_single_ops_manager_frame w dt r a) by done.
    apply fetch_single_ops_manager_local.
    by rewrite fetch_single_ops_manager_frame.
  - by rewrite !fetch_single_ops_manager_frame.
Qed.

Lemma run_tasks_local w dt r l st1 st2 :
  fs st1 = fs st2 → fs (run_tasks w dt r l st1) = fs (run_tasks w dt r l st2).
Proof.
  revert st1 st2. induction l as [|om l IH]; intros st1 st2 Hfs; [done |].
  simpl. apply IH. apply map_eq. intros g.
  destruct (decide (g = cache_file dt om)) as [-> | Hg].
  - apply fetch_single_ops_manager_local. by rewrite Hfs.
  - rewrite !fetch_single_ops_manager_frame by done. by rewrite Hfs.
Qed.

(** With pairwise different cache files, the cache directory after the
    tasks have run does not depend on the order in which they ran. *)
Lemma run_tasks_order w dt r l l' st :
  l ≡ₚ l' → NoDup (cache_file dt <$> l) →
  fs (run_tasks w dt r l st) = fs (run_tasks w dt r l' st).
Proof.
  intros Hperm. revert st. induction Hperm as [|x l l' Hperm IH|x y l|l l' l'' H1 IH1 H2 IH2];
    intros st Hnd.
  - done.
  - simpl. apply IH. rewrite fmap_cons in Hnd. by apply NoDup_cons in Hnd as [_ ?].
  - simpl. apply run_tasks_local. apply fetch_single_ops_manager_swap.
    rewrite !fmap_cons in Hnd. apply NoDup_cons in Hnd as [Hnotin _].
    intros Heq. apply Hnotin. rewrite Heq. left.
  - rewrite IH1 by done. apply IH2. by rewrite <- H1.
Qed.

(** X9: when the sources have pairwise different cache files, all of which
    can be read and deleted, a refresh calls the adapter of every source
    exactly once, whatever the caches hold and in whatever order the tasks
    complete.  The calls are compared as a multiset: nothing is said about
    the order in which they are made.  The cache directory after the
    refresh does not depend on the order of the tasks either. *)
Theorem refresh_calls_every_source w srcs dt completed st :
  completed ≡ₚ srcs →
  NoDup (cache_file dt <$> srcs) →
  (∀ om, om ∈ srcs →
         remove_error w (cache_file dt om) = None ∧
         ∀ e, fs st !! cache_file dt om ≠ Some (Corrupt e)) →
  (∃ new_calls,
     calls (fetch_multiple_ops_managers_concurrent w srcs dt true completed st).2 =
       calls st ++ new_calls ∧
     new_calls ≡ₚ (λ om, (dt, url om)) <$> srcs) ∧
  fs (fetch_multiple_ops_managers_concurrent w srcs dt true completed st).2 =
    fs (fetch_multiple_ops_managers_concurrent w srcs dt true srcs st).2.
Proof.
  intros Hperm Hnd Hok. split.
  - exists ((λ om, (dt, url om)) <$> completed). split; [| by rewrite Hperm].
    rewrite fetch_multiple_ops_managers_concurrent_state.
    apply refresh_run_calls.
    + by rewrite Hperm.
    + intros om Hin. apply Hok. by rewrite <- Hperm.
  - rewrite !fetch_multiple_ops_managers_concurrent_state.
    apply run_tasks_order; [done | by rewrite Hperm].
Qed.

Lemma refresh_calls_every_source_witness :
  (∃ new_calls,
     calls (fetch_multiple_ops_managers_concurrent Sample.down
              [Sample.east; Sample.west] "backup" true [Sample.west; Sample.east]
              Sample.warm).2 =
       calls Sample.warm ++ new_calls ∧
     new_calls ≡ₚ (λ om, ("backup", url om)) <$> [Sample.east; Sample.west]) ∧
  fs (fetch_multiple_ops_managers_concurrent Sample.down
        [Sample.east; Sample.west] "backup" true [Sample.west; Sample.east] Sample.warm).2 =
    fs (fetch_multiple_ops_managers_concurrent Sample.down
          [Sample.east; Sample.west] "backup" true [Sample.east; Sample.west] Sample.warm).2.
Proof.
  apply (refresh_calls_every_source Sample.down [Sample.east; Sample.west] "backup"
           [Sample.west; Sample.east] Sample.warm).
  - apply (bool_decide_unpack _). vm_compute. reflexivity.
  - apply (bool_decide_unpack _). vm_compute. reflexivity.
  - intros om Hom. split; [reflexivity |].
    intros e. apply list_elem_of_In in Hom. simpl in Hom.
    destruct Hom as [<- | [<- | []]]; vm_compute; discriminate.
Defined.

(** ** Counters *)

(** An outcome counts each of its records once, as fetched or as cached. *)
Lemma outcome_counts w dt r st om :
  o_fetched (outcome_at w dt r st om) + o_cached (outcome_at w dt r st om) =
    length (o_data (outcome_at w dt r st om)).
Proof.
  rewrite policy_outcome_correct.
  unfold policy_outcome, fetch_outcome, failure_outcome, unexpected.
  repeat case_match; simpl; lia.
Qed.

Lemma task_outcomes_counts w dt r l st :
  sum_list_with o_fetched (task_outcomes w dt r l st) +
  sum_list_with o_cached (task_outcomes w dt r l st) =
    length (mjoin (o_data <$> task_outcomes w dt r l st)).
Proof.
  revert st. induction l as [|om l IH]; intros st; csimpl; [done |].
  rewrite length_app, <- IH, <- outcome_counts. lia.
Qed.

Lemma task_outcomes_length w dt r l st : length (task_outcomes w dt r l st) = length l.
Proof. revert st. induction l as [|om l IH]; intros st; simpl; [done | by rewrite IH]. Qed.

Lemma omap_length {A B} (f : A → option B) (l : list A) : length (omap f l) ≤ length l.
Proof. induction l as [|x l IH]; csimpl; [done |]. destruct (f x); simpl; lia. Qed.

(** X10: whichever path the page takes, the two counters add up to the
    number of records it returns, and on the concurrent path there is at most
    one error for each source. *)
Theorem page_counters_match_records w r matching completed st b a st' :
  backup_page_aggregate w r matching completed st = (Ok (b, a), st') →
  total_fetched a + total_cached a = length (all_data a) ∧
  (b = true → length (errors a) ≤ length completed).
Proof.
  intros Hrun. apply backup_page_aggregate_unfold in Hrun as [_ Hrun].
  destruct b.
  - destruct (fetch_multiple_ops_managers_concurrent_unfold w matching "backup" r
                completed st) as [st1 Hc].
    rewrite Hc in Hrun. injection Hrun as <- <-. simpl. split.
    + apply task_outcomes_counts.
    + intros _. etrans; [apply omap_length |]. by rewrite task_outcomes_length.
  - apply backup_page_sequential_unfold in Hrun as (acc & Hloop & ->). simpl.
    apply backup_page_loop_outcomes in Hloop as (-> & -> & ->). simpl.
    split; [apply task_outcomes_counts | done].
Qed.

Lemma page_counters_match_records_witness :
  let a := (result_of (true, no_aggregate)
              (backup_page_aggregate Sample.healthy false
                 [Sample.east; Sample.west; Sample.north]
                 [Sample.north; Sample.west; Sample.east] Sample.warm)).2 in
  total_fetched a + total_cached a = length (all_data a) ∧
  (true = true → length (errors a) ≤ length [Sample.north; Sample.west; Sample.east]).
Proof.
  apply (page_counters_match_records Sample.healthy false
           [Sample.east; Sample.west; Sample.north]
           [Sample.north; Sample.west; Sample.east] Sample.warm true _
           (backup_page_aggregate Sample.healthy false
              [Sample.east; Sample.west; Sample.north]
              [Sample.north; Sample.west; Sample.east] Sample.warm).2).
  vm_compute. reflexivity.
Defined.

(** ** Requests without refresh *)

Lemma fetch_single_ops_manager_keeps_file w dt om st g :
  truthy_cached (payload_of (fs st !! g)) = true →
  fs (fetch_single_ops_manager w dt false om st).2 !! g = fs st !! g.
Proof.
  intros Hg. destruct (decide (g = cache_file dt om)) as [-> | Hne].
  2: { by rewrite fetch_single_ops_manager_frame. }
  rewrite fetch_single_ops_manager_state. unfold needs_fetch, cache_absent_or_empty.
  rewrite Hg. simpl. by repeat case_match.
Qed.

Lemma run_tasks_keeps_file w dt l st g :
  truthy_cached (payload_of (fs st !! g)) = true →
  fs (run_tasks w dt false l st) !! g = fs st !! g.
Proof.
  revert st. induction l as [|om l IH]; intros st Hg; [done |].
  simpl. rewrite IH.
  - by apply fetch_single_ops_manager_keeps_file.
  - by rewrite fetch_single_ops_manager_keeps_file.
Qed.

(** X11: without a refresh, a cache file that holds records is left exactly
    as it is, whichever path the page takes and whatever the adapters do: the
    page never deletes, empties or rewrites it. *)
Theorem no_refresh_keeps_filled_caches w matching completed st b a st' g :
  backup_page_aggregate w false matching completed st = (Ok (b, a), st') →
  truthy_cached (payload_of (fs st !! g)) = true →
  fs st' !! g = fs st !! g.
Proof.
  intros Hrun Hg. apply backup_page_aggregate_state in Hrun as ->.
  by apply run_tasks_keeps_file.
Qed.

Lemma no_refresh_keeps_filled_caches_witness :
  fs (backup_page_aggregate Sample.down false [Sample.east; Sample.west; Sample.north]
        [Sample.north; Sample.west; Sample.east] Sample.warm).2
    !! cache_file "backup" Sample.east
  = fs Sample.warm !! cache_file "backup" Sample.east.
Proof.
  apply (no_refresh_keeps_filled_caches Sample.down
           [Sample.east; Sample.west; Sample.north]
           [Sample.north; Sample.west; Sample.east] Sample.warm true
           (result_of (true, no_aggregate)
              (backup_page_aggregate Sample.down false
                 [Sample.east; Sample.west; Sample.north]
                 [Sample.north; Sample.west; Sample.east] Sample.warm)).2).
  - vm_compute. reflexivity.
  - vm_compute. reflexivity.
Defined.

Lemma warm_task w dt om st :
  cache_absent_or_empty dt st om = false →
  fetch_single_ops_manager w dt false om st =
    (Ok (Outcome (cached_records dt st om) 0 (length (cached_records dt st om)) None), st).
Proof.
  intros Hwarm. rewrite fetch_single_ops_manager_run, fetch_single_ops_manager_state.
  unfold needs_fetch. rewrite Hwarm. simpl.
  unfold cache_absent_or_empty in Hwarm. apply negb_false_iff in Hwarm.
  unfold policy_outcome, cached_records. rewrite Hwarm. simpl.
  destruct (fs st !! cache_file dt om) as [[t c|c|e]|]; done.
Qed.

Lemma warm_task_outcomes w dt l st :
  Forall (λ om, cache_absent_or_empty dt st om = false) l →
  task_outcomes w dt false l st =
    (λ om, Outcome (cached_records dt st om) 0 (length (cached_records dt st om)) None) <$> l.
Proof.
  induction 1 as [|om l Hom Hl IH]; [done |].
  simpl. unfold outcome_at. rewrite (warm_task w dt om st Hom). simpl. by rewrite IH.
Qed.

(** X12: when every selected source has a cache that holds records and no
    refresh is requested, the page takes the sequential path and answers
    from the cache alone: the state is unchanged (no adapter call, no file
    written), the records are the cached lists in the order of the selection,
    all of them counted as cached, and there is no error and no message. *)
Theorem warm_selection_served_from_cache w matching completed st :
  Forall (λ om, cache_absent_or_empty "backup" st om = false) matching →
  backup_page_aggregate w false matching completed st =
    (Ok (false,
         Aggregate (mjoin (cached_records "backup" st <$> matching)) "" ""
           0 (length (mjoin (cached_records "backup" st <$> matching))) []),
     st).
Proof.
  intros Hwarm.
  assert (count_sources (cache_absent_or_empty "backup" st) matching = 0) as Hcount.
  { unfold count_sources. induction Hwarm as [|om l Hom Hl IH]; [done |].
    simpl. by rewrite Hom. }
  assert (∀ e om, om ∈ matching → fs st !! cache_file "backup" om ≠ Some (Corrupt e))
    as Hread.
  { intros e om Hin He. rewrite Forall_forall in Hwarm. specialize (Hwarm om Hin).
    unfold cache_absent_or_empty in Hwarm. by rewrite He in Hwarm. }
  unfold backup_page_aggregate. unfold_monad.
  destruct (missing_cache_count_returns "backup" matching 0 st) as [m Hm].
  { intros om e Hin. by apply Hread. }
  rewrite Hm. apply missing_cache_count_spec in Hm as [_ ->]. rewrite Hcount. simpl.
  assert (∀ acc, backup_page_loop w false matching acc st =
            (Ok (Accum (acc_data acc ++ mjoin (cached_records "backup" st <$> matching))
                   (acc_fetched acc)
                   (acc_cached acc + length (mjoin (cached_records "backup" st <$> matching)))
                   (acc_errors acc)), st)) as Hloop.
  { clear Hcount Hread. induction Hwarm as [|om l Hom Hl IH]; intros acc; simpl.
    - unfold_monad. rewrite app_nil_r, Nat.add_0_r. by destruct acc.
    - unfold_monad.
      assert (backup_page_step w false om acc st =
              (Ok (Accum (acc_data acc ++ cached_records "backup" st om) (acc_fetched acc)
                     (acc_cached acc + length (cached_records "backup" st om))
                     (acc_errors acc)), st)) as ->.
      { unfold backup_page_step, load_cache, cached_records, cache_absent_or_empty,
          cache_file in *. unfold_monad.
        destruct (fs st !! get_cache_filename (url om) "backup") as [[t c|c|e]|];
          try done; destruct c; done. }
      rewrite IH. simpl. csimpl. rewrite length_app, <- app_assoc.
      rewrite (Nat.add_assoc (acc_cached acc)). done. }
  unfold backup_page_sequential. unfold_monad. rewrite Hloop. simpl. done.
Qed.

Lemma warm_selection_served_from_cache_witness :
  backup_page_aggregate Sample.down false [Sample.east] [Sample.east] Sample.warm =
    (Ok (false,
         Aggregate (mjoin (cached_records "backup" Sample.warm <$> [Sample.east])) "" ""
           0 (length (mjoin (cached_records "backup" Sample.warm <$> [Sample.east]))) []),
     Sample.warm).
Proof.
  apply (warm_selection_served_from_cache Sample.down [Sample.east] [Sample.east]
           Sample.warm).
  repeat constructor.
Defined.

(** ** Filter values of the pages *)

Lemma foldl_union_singleton (f : record → string) (l : list record) (seen : gset string) x :
  x ∈ foldl (λ seen r, seen ∪ {[ f r ]}) seen l ↔ x ∈ seen ∨ ∃ r, r ∈ l ∧ x = f r.
Proof.
  revert seen. induction l as [|r l IH]; intros seen; simpl.
  - split; [by left |]. intros [? | (r & Hr & _)]; [done |]. by apply elem_of_nil in Hr.
  - rewrite IH. rewrite elem_of_union, elem_of_singleton. split.
    + intros [[? | ->] | (r' & Hr' & ->)].
      * by left.
      * right. exists r. split; [left | done].
      * right. exists r'. split; [by right | done].
    + intros [? | (r' & [-> | Hr']%elem_of_cons & ->)].
      * left. by left.
      * left. by right.
      * right. by exists r'.
Qed.

Lemma unique_values_elem key all_data x :
  x ∈ unique_values key all_data ↔ ∃ r, r ∈ all_data ∧ x = filter_value key r.
Proof.
  unfold unique_values. destruct all_data as [|r0 l]; simpl.
  - split; [by intros ?%elem_of_empty |]. intros (r & Hr & _). by apply elem_of_nil in Hr.
  - rewrite foldl_union_singleton. rewrite elem_of_union, elem_of_singleton, elem_of_empty.
    split.
    + intros [[[] | ->] | (r & Hr & ->)].
      * exists r0. split; [left | done].
      * exists r. split; [by right | done].
    + intros (r & [-> | Hr]%elem_of_cons & ->).
      * left. by right.
      * right. by exists r.
Qed.

Lemma usable_value s : usable (Some s) = true → s ≠ "" ∧ s ≠ "null" ∧ strip s ≠ "".
Proof.
  unfold usable. intros [[H1 H2]%andb_true_iff H3]%andb_true_iff.
  apply truthy_str_nonempty in H1, H3. apply negb_true_iff, String.eqb_neq in H2. done.
Qed.

(** X13: the list a page offers for a filter (usernames, backup statuses,
    Ops Managers) is sorted and has no duplicate.  A text is in the list
    exactly when some record holds it as a usable value under the key (not
    empty, not 'null', not blank), or when it is the text NONE and some
    record has no usable value under the key (missing, empty, 'null' or
    blank).  So NONE is in the list exactly when some record has no usable
    value or some record carries the literal text NONE: the list does not
    tell the two apart.  No entry is empty, 'null' or blank, and the list
    is empty exactly when there are no records. *)
Theorem sorted_values_spec key all_data :
  StronglySorted String.le (sorted_values key all_data) ∧
  NoDup (sorted_values key all_data) ∧
  (∀ x, x ∈ sorted_values key all_data ↔
        (x = "NONE" ∧ ∃ r, r ∈ all_data ∧ usable (r !! key) = false) ∨
        (∃ r, r ∈ all_data ∧ r !! key = Some x ∧ usable (Some x) = true)) ∧
  ("NONE" ∈ sorted_values key all_data ↔
        (∃ r, r ∈ all_data ∧ usable (r !! key) = false) ∨
        (∃ r, r ∈ all_data ∧ r !! key = Some "NONE")) ∧
  (∀ x, x ∈ sorted_values key all_data → x ≠ "" ∧ x ≠ "null" ∧ strip x ≠ "") ∧
  (sorted_values key all_data = [] ↔ all_data = []).
Proof.
  unfold sorted_values.
  assert (∀ x, x ∈ merge_sort String.le (elements (unique_values key all_data)) ↔
        (x = "NONE" ∧ ∃ r, r ∈ all_data ∧ usable (r !! key) = false) ∨
        (∃ r, r ∈ all_data ∧ r !! key = Some x ∧ usable (Some x) = true)) as Hmem.
  { intros x. rewrite merge_sort_Permutation, elem_of_elements, unique_values_elem.
    unfold filter_value. split.
    - intros (r & Hr & ->). destruct (usable (r !! key)) eqn:Hu.
      + right. exists r. destruct (r !! key) as [s|]; [| done]. done.
      + left. split; [done |]. by exists r.
    - intros [[-> (r & Hr & Hu)] | (r & Hr & Hk & Hu)]; exists r; (split; [done |]).
      + by rewrite Hu.
      + by rewrite Hk, Hu. }
  split; [| split; [| split; [done | split; [| split]]]].
  - apply StronglySorted_merge_sort; apply _.
  - rewrite merge_sort_Permutation. apply NoDup_elements.
  - rewrite Hmem. split.
    + intros [[_ H] | (r & Hr & Hk & _)]; [by left |]. right. by exists r.
    + intros [H | (r & Hr & Hk)]; [by left |]. right. exists r. by repeat split.
  - intros x [[-> _] | (r & _ & _ & Hu)]%Hmem; [done |]. by apply usable_value.
  - split.
    + intros Hnil. destruct all_data as [|r l]; [done |]. exfalso.
      assert (filter_value key r ∈ merge_sort String.le (elements (unique_values key (r :: l))))
        as Hin.
      { rewrite merge_sort_Permutation, elem_of_elements, unique_values_elem.
        exists r. split; [left | done]. }
      rewrite Hnil in Hin. by apply elem_of_nil in Hin.
    + intros ->. done.
Qed.

Example sorted_values_literal_none :
  sorted_values "Username" [ {[ "Username" := "NONE" ]}; {[ "Username" := "alice" ]} ]
  = ["NONE"; "alice"].
Proof. vm_compute. reflexivity. Qed.

Example sorted_values_sample :
  sorted_values "Username"
    [ {[ "Username" := "carol" ]}; {[ "Username" := "null" ]}; {[ "Username" := "alice" ]};
      {[ "Username" := "  " ]}; {[ "Other" := "x" ]}; {[ "Username" := "carol" ]} ]
  = ["NONE"; "alice"; "carol"].
Proof. vm_compute. reflexivity. Qed.

Lemma split_on_nonempty sep s : split_on sep s ≠ [].
Proof. destruct s; simpl; [done|]. destruct (Ascii.eqb _ _); [done|]. by destruct (split_on sep s). Qed.

Lemma nth_last (l : list string) d : nth (length l - 1) l d = List.last l d.
Proof.
  induction l as [|x l IH]; [done|]. destruct l as [|y l]; [done|].
  simpl in *. by rewrite Nat.sub_0_r in IH.
Qed.

Lemma index_from_end_last l : l ≠ [] → index_from_end 1 l = Ok (List.last l "").
Proof.
  intros Hl. unfold index_from_end. destruct l; [done|]. simpl length.
  replace (1 <=? S (length l))%nat with true by (symmetry; apply Nat.leb_le; lia).
  by rewrite <- nth_last.
Qed.

Lemma index_from_end_ok k l : (k ≤ length l)%nat → ∃ x, index_from_end k l = Ok x.
Proof.
  intros H. unfold index_from_end. apply Nat.leb_le in H. rewrite H. eauto.
Qed.

Lemma index_from_end_raise k l : (length l < k)%nat → index_from_end k l = Raise "list index out of range".
Proof.
  intros H. unfold index_from_end. apply Nat.leb_gt in H. by rewrite H.
Qed.

(** a one-character needle *)
Lemma containsb_char_cons c x s :
  containsb (String c "") (String x s) = Ascii.eqb c x || containsb (String c "") s.
Proof. simpl. destruct (Ascii.eqb c x); [done|]. simpl. by destruct s. Qed.

Lemma containsb_char_nil c : containsb (String c "") "" = false.
Proof. done. Qed.

Lemma containsb_char_app c a b :
  containsb (String c "") (a +:+ b) = containsb (String c "") a || containsb (String c "") b.
Proof.
  induction a as [|x a IH].
  - by rewrite append_nil.
  - rewrite append_cons, !containsb_char_cons, IH. by rewrite orb_assoc.
Qed.

Lemma split_on_absent c s : containsb (String c "") s = false → split_on c s = [s].
Proof.
  induction s as [|x s IH]; [done|]. rewrite containsb_char_cons. intros H.
  apply orb_false_iff in H as [H1 H2]. simpl. rewrite Ascii.eqb_sym, H1. by rewrite IH.
Qed.

Lemma split_on_app c a b :
  containsb (String c "") b = false →
  ∃ l h, split_on c a = l ++ [h] ∧ split_on c (a +:+ b) = l ++ [h +:+ b].
Proof.
  intros Hb. induction a as [|x a (l & h & E1 & E2)].
  - exists [], "". rewrite !append_nil, (split_on_absent c b) by done. done.
  - rewrite append_cons. simpl. rewrite E1, E2. destruct (Ascii.eqb x c).
    + by exists ("" :: l), h.
    + destruct l as [|y l]; simpl.
      * by exists [], (String x h).
      * by exists (String x y :: l), h.
Qed.

Lemma last_split_app c a b :
  containsb (String c "") b = false →
  List.last (split_on c (a +:+ b)) "" = List.last (split_on c a) "" +:+ b.
Proof.
  intros Hb. destruct (split_on_app c a b Hb) as (l & h & -> & ->).
  by rewrite !List.last_last.
Qed.

Lemma length_split_app c a b :
  containsb (String c "") b = false →
  length (split_on c (a +:+ b)) = length (split_on c a).
Proof.
  intros Hb. destruct (split_on_app c a b Hb) as (l & h & -> & ->).
  by rewrite !length_app.
Qed.

Lemma split_on_sep c a b :
  split_on c (a +:+ String c b) = split_on c a ++ split_on c b.
Proof.
  induction a as [|x a IH].
  - rewrite append_nil. simpl. by rewrite Ascii.eqb_refl.
  - rewrite append_cons. simpl. rewrite IH. destruct (Ascii.eqb x c); [done|].
    pose proof (split_on_nonempty c a). by destruct (split_on c a).
Qed.

Lemma length_split_present c s :
  containsb (String c "") s = true → (2 ≤ length (split_on c s))%nat.
Proof.
  induction s as [|x s IH]; [done|]. rewrite containsb_char_cons. intros H. simpl.
  pose proof (split_on_nonempty c s) as Hn. rewrite Ascii.eqb_sym in H.
  destruct (Ascii.eqb x c); simpl in *.
  - destruct (split_on c s); [done|]. simpl. lia.
  - specialize (IH H). destruct (split_on c s); [done|]. simpl in *. lia.
Qed.

Lemma containsb_elb s :
  containsb "elb.amazonaws.com" s = true → containsb "amazonaws.com" s = true.
Proof.
  rewrite !containsb_contains. intros (pre & post & ->).
  exists (pre +:+ "elb."), post. rewrite !append_assoc. f_equal.
Qed.

Lemma length_drop_chars n s : String.length (drop_chars n s) = (String.length s - n)%nat.
Proof. revert s. induction n as [|n IH]; intros [|c s]; simpl; auto with lia. Qed.

Lemma length_slice_from_neg (k : Z) s :
  (0 < k)%Z →
  Z.of_nat (String.length (slice_from (- k) s)) = Z.min k (Z.of_nat (String.length s)).
Proof.
  intros Hk. unfold slice_from. rewrite length_drop_chars.
  replace (- k <? 0)%Z with true by (symmetry; apply Z.ltb_lt; lia). lia.
Qed.

(** X14: a URL that fits, or has no dot, is shown unchanged; a longer dotted
    URL is shown with a leading ellipsis, except that a longer URL naming
    [amazonaws.com] with fewer than three dot-separated parts makes
    [truncate_ops_manager_url] raise [IndexError], because the default of
    its region search, [parts[-3]], is evaluated before the search. *)
Theorem truncate_result_shape (url : string) (max_length : Z) :
  let len := Z.of_nat (String.length url) in
  let parts := split_on "." url in
  let aws := containsb "elb.amazonaws.com" url || containsb "amazonaws.com" url in
  ((len ≤ max_length)%Z ∨ containsb "." url = false →
     truncate_ops_manager_url url max_length = Ok url) ∧
  ((max_length < len)%Z → aws = true → (length parts < 3)%nat →
     truncate_ops_manager_url url max_length = Raise "list index out of range" ∧
     containsb "amazonaws.com" url = true ∧ length parts = 2%nat) ∧
  ((max_length < len)%Z → containsb "." url = true →
     aws = false ∨ (3 ≤ length parts)%nat →
     ∃ shown, truncate_ops_manager_url url max_length = Ok ("..." +:+ shown)).
Proof.
  intros len parts aws. unfold truncate_ops_manager_url.
  fold len. fold parts. fold aws.
  split; [|split].
  - intros [H | H].
    + apply Z.leb_le in H. by rewrite H.
    + rewrite H. simpl. by destruct (len <=? max_length)%Z.
  - intros Hlen Haws Hparts.
    assert (containsb "amazonaws.com" url = true) as Hc.
    { subst aws. apply orb_true_iff in Haws as [H | H]; [by apply containsb_elb | done]. }
    assert (containsb "." url = true) as Hdot.
    { apply containsb_contains in Hc as (pre & post & E). apply containsb_contains.
      exists (pre +:+ "amazonaws"), ("com" +:+ post). rewrite E, !append_assoc. by f_equal. }
    apply Z.leb_gt in Hlen. rewrite Hlen, Hdot, Haws. simpl negb. cbv iota.
    rewrite index_from_end_raise by done. split; [done|]. split; [done|].
    pose proof (length_split_present "." url Hdot). fold parts in H. lia.
  - intros Hlen Hdot Hcase. apply Z.leb_gt in Hlen. rewrite Hlen, Hdot. simpl negb. cbv iota.
    destruct aws eqn:Haws.
    + destruct Hcase as [? | Hparts]; [done|].
      destruct (index_from_end_ok 3 parts Hparts) as [x ->]. eauto.
    + destruct (4 <=? length parts)%nat eqn:H4.
      * apply Nat.leb_le in H4.
        destruct (index_from_end_ok 3 parts ltac:(lia)) as [p3 ->].
        destruct (index_from_end_ok 2 parts ltac:(lia)) as [p2 ->].
        destruct (index_from_end_ok 1 parts ltac:(lia)) as [p1 ->].
        pose proof (split_on_nonempty ":" url) as Hn.
        rewrite (index_from_end_last _ Hn).
        destruct (truthy_list _), (containsb ":" url); rewrite ?append_assoc; eauto.
      * destruct (containsb ":" url); rewrite ?append_assoc; eauto.
Qed.

Lemma truncate_result_shape_witness :
  truncate_ops_manager_url "https://aaaaaaaaaaaaaaaaaaaaaaaaaaaaaaaaaaaaaaaaaaaaamazonaws.com" 35
    = Raise "list index out of range" ∧
  containsb "amazonaws.com" "https://aaaaaaaaaaaaaaaaaaaaaaaaaaaaaaaaaaaaaaaaaaaaamazonaws.com" = true ∧
  length (split_on "." "https://aaaaaaaaaaaaaaaaaaaaaaaaaaaaaaaaaaaaaaaaaaaaamazonaws.com") = 2%nat.
Proof.
  apply (truncate_result_shape
           "https://aaaaaaaaaaaaaaaaaaaaaaaaaaaaaaaaaaaaaaaaaaaaamazonaws.com" 35).
  - vm_compute. reflexivity.
  - vm_compute. reflexivity.
  - vm_compute. lia.
Defined.

(** X15: for a long dotted URL outside [amazonaws.com] with fewer than four
    dot-separated parts, the shown text never exceeds [max_length],
    provided the port (if there is one) leaves room for it. *)
Theorem truncate_fits (url : string) (max_length : Z) :
  (max_length < Z.of_nat (String.length url))%Z →
  containsb "." url = true →
  containsb "elb.amazonaws.com" url || containsb "amazonaws.com" url = false →
  (length (split_on "." url) < 4)%nat →
  (if containsb ":" url
   then (Z.of_nat (String.length (List.last (split_on ":" url) "")) + 4 < max_length)%Z
   else (3 < max_length)%Z) →
  ∃ shown, truncate_ops_manager_url url max_length = Ok shown ∧
           (Z.of_nat (String.length shown) ≤ max_length)%Z.
Proof.
  intros Hlen Hdot Haws Hparts Hroom. unfold truncate_ops_manager_url.
  apply Z.leb_gt in Hlen. rewrite Hlen, Hdot, Haws. simpl negb. cbv iota.
  apply Nat.leb_gt in Hparts. rewrite Hparts.
  destruct (containsb ":" url).
  - eexists. split; [done|]. rewrite nth_last.
    rewrite !length_append. rewrite !Nat2Z.inj_add.
    rewrite length_slice_from_neg by lia. simpl String.length. lia.
  - eexists. split; [done|]. rewrite length_append, Nat2Z.inj_add.
    rewrite length_slice_from_neg by lia. simpl String.length. lia.
Qed.

Lemma truncate_fits_witness :
  ∃ shown,
    truncate_ops_manager_url "https://averyveryverylonghostname-for-testing.example:8443" 35
      = Ok shown ∧
    (Z.of_nat (String.length shown) ≤ 35)%Z.
Proof.
  apply (truncate_fits "https://averyveryverylonghostname-for-testing.example:8443" 35).
  - vm_compute. reflexivity.
  - vm_compute. reflexivity.
  - vm_compute. reflexivity.
  - vm_compute. lia.
  - vm_compute. reflexivity.
Defined.

(** X16: for a long URL outside [amazonaws.com] with four or more
    dot-separated parts and a port after its last dot, the shown text ends
    with the port twice: the last dot-separated part already carries the
    port, and the port is appended once more. *)
Theorem truncate_repeats_port (host port : string) (max_length : Z) :
  let url := host +:+ ":" +:+ port in
  (max_length < Z.of_nat (String.length url))%Z →
  containsb "elb.amazonaws.com" url || containsb "amazonaws.com" url = false →
  (4 ≤ length (split_on "." url))%nat →
  containsb ":" port = false →
  containsb "." port = false →
  ∃ shown, truncate_ops_manager_url url max_length
           = Ok ("..." +:+ shown +:+ ":" +:+ port +:+ ":" +:+ port).
Proof.
  intros url Hlen Haws Hparts Hcolon Hpoint. unfold truncate_ops_manager_url.
  apply Z.leb_gt in Hlen. rewrite Hlen, Haws.
  assert (containsb "." url = true) as Hdot.
  { destruct (containsb "." url) eqn:E; [done|].
    rewrite (split_on_absent "." url E) in Hparts. simpl in Hparts. lia. }
  rewrite Hdot. simpl negb. cbv iota.
  pose proof Hparts as H4. apply Nat.leb_le in H4. rewrite H4.
  destruct (index_from_end_ok 3 (split_on "." url) ltac:(lia)) as [p3 ->].
  destruct (index_from_end_ok 2 (split_on "." url) ltac:(lia)) as [p2 ->].
  rewrite (index_from_end_last _ (split_on_nonempty "." url)).
  rewrite (index_from_end_last _ (split_on_nonempty ":" url)).
  assert (containsb ":" url = true) as ->.
  { subst url. rewrite containsb_char_app. apply orb_true_iff. right.
    rewrite containsb_char_app. by apply orb_true_iff; left. }
  assert (List.last (split_on ":" url) "" = port) as ->.
  { subst url. rewrite append_cons, append_nil, split_on_sep.
    rewrite (split_on_absent ":" port Hcolon). by rewrite List.last_last. }
  assert (List.last (split_on "." url) ""
          = List.last (split_on "." host) "" +:+ ":" +:+ port) as ->.
  { subst url. apply last_split_app. rewrite containsb_char_app, Hpoint. done. }
  destruct (truthy_list _).
  - exists (join "." (List.filter
              (λ part, contains_any ENVIRONMENT_WORDS part || contains_any REGION_WORDS part)
              (drop 1 (split_on "." url)))
            +:+ "." +:+ p2 +:+ "." +:+ List.last (split_on "." host) "").
    by rewrite !append_assoc.
  - exists (p3 +:+ "." +:+ p2 +:+ "." +:+ List.last (split_on "." host) "").
    by rewrite !append_assoc.
Qed.

Lemma truncate_repeats_port_witness :
  ∃ shown,
    truncate_ops_manager_url ("https://opsmanager.us-east-1.prod.company.com" +:+ ":" +:+ "8080") 35
      = Ok ("..." +:+ shown +:+ ":" +:+ "8080" +:+ ":" +:+ "8080").
Proof.
  apply (truncate_repeats_port "https://opsmanager.us-east-1.prod.company.com" "8080" 35).
  - vm_compute. reflexivity.
  - vm_compute. reflexivity.
  - vm_compute. lia.
  - vm_compute. reflexivity.
  - vm_compute. reflexivity.
Defined.

(** *** The order of the dashboard rows *)

Lemma ltb_leb (a b : string) : String.ltb a b = negb (String.leb b a).
Proof.
  unfold String.ltb, String.leb. rewrite (String.compare_antisym a b).
  by destruct (b ?= a)%string.
Qed.

Lemma key_le_alt a b :
  key_le a b ↔
  String.le (row_region a) (row_region b) ∧
  (row_region a = row_region b → String.le (row_environment a) (row_environment b)).
Proof.
  unfold key_le, key_lt, String.le. rewrite !ltb_leb.
  destruct (String.eqb_spec (row_region b) (row_region a)) as [E | E].
  - rewrite E. destruct (String.leb (row_region a) (row_region a)) eqn:H1; simpl.
    + destruct (String.leb (row_environment a) (row_environment b)); simpl; intuition done.
    + pose proof (reflexivity (R := String.le) (row_region a)) as Hr.
      unfold String.le in Hr. rewrite H1 in Hr. done.
  - destruct (String.leb (row_region a) (row_region b)); simpl; intuition (done || congruence).
Qed.

Lemma key_lt_alt a b : key_lt a b = true ↔ ¬ key_le b a.
Proof. unfold key_le. destruct (key_lt a b); naive_solver. Qed.

Lemma key_le_trans a b c : key_le a b → key_le b c → key_le a c.
Proof.
  rewrite !key_le_alt. intros [H1 H2] [H3 H4]. split.
  - by etrans.
  - intros E. assert (row_region a = row_region b) as E1.
    { apply (anti_symm String.le); [done|]. by rewrite E. }
    assert (row_region b = row_region c) as E2 by congruence.
    transitivity (row_environment b); auto.
Qed.

Lemma key_le_total a b : key_le a b ∨ key_le b a.
Proof.
  rewrite !key_le_alt.
  destruct (total String.le (row_region a) (row_region b)) as [H | H];
    destruct (total String.le (row_environment a) (row_environment b)) as [H' | H'].
  - left. naive_solver.
  - destruct (decide (row_region a = row_region b)) as [E | E].
    + right. rewrite E. split; [done | naive_solver].
    + left. naive_solver.
  - destruct (decide (row_region a = row_region b)) as [E | E].
    + left. rewrite E. split; [done | naive_solver].
    + right. naive_solver.
  - right. naive_solver.
Qed.

Lemma insert_row_perm x l : insert_row x l ≡ₚ x :: l.
Proof.
  induction l as [|y l IH]; simpl; [done|].
  destruct (key_lt x y); [done|]. rewrite IH. apply Permutation_swap.
Qed.

Lemma sort_rows_perm l : sort_rows l ≡ₚ l.
Proof.
  unfold sort_rows. rewrite <- (app_nil_l l) at 2. generalize (@nil status_row) as acc.
  induction l as [|x l IH]; intros acc; simpl.
  - by rewrite app_nil_r.
  - rewrite IH, insert_row_perm. simpl. apply Permutation_middle.
Qed.

Lemma insert_row_sorted x l :
  StronglySorted key_le l → StronglySorted key_le (insert_row x l).
Proof.
  induction 1 as [|y l Hs IH Hy]; simpl.
  - repeat constructor.
  - destruct (key_lt x y) eqn:E.
    + constructor; [by constructor|].
      assert (key_le x y) as Hxy.
      { destruct (key_le_total x y) as [? | H]; [done|]. by apply key_lt_alt in E. }
      constructor; [done|]. eapply Forall_impl; [exact Hy|].
      intros z Hz. by eapply key_le_trans.
    + constructor; [done|]. rewrite insert_row_perm. by constructor.
Qed.

Lemma sort_rows_sorted l : StronglySorted key_le (sort_rows l).
Proof.
  unfold sort_rows. assert (StronglySorted key_le []) as H by constructor.
  revert H. generalize (@nil status_row) as acc.
  induction l as [|x l IH]; intros acc H; simpl; [done|].
  apply IH. by apply insert_row_sorted.
Qed.

(** *** The checks *)

Lemma accessibility_spec net u :
  let result := check_ops_manager_accessibility net u in
  (result.2 = [probe u 5] ∨ result.2 = [probe u 5; probe u 3]) ∧
  a_attempts result.1 = Some (length result.2) ∧
  a_error result.1 = None ∧
  String.eqb (a_status result.1) "accessible" = answered net u ∧
  (result.2 = [probe u 5] ↔
   ∃ status_code headers,
     net (probe u 5) = Response status_code headers ∧ service_running status_code = true).
Proof.
  unfold check_ops_manager_accessibility, answered, probe. simpl.
  destruct (net (Request (u +:+ "/") None 5)) as [c1 h1| | |] eqn:E1;
    [destruct (service_running c1) eqn:S1|..];
    (destruct (net (Request (u +:+ "/") None 3)) as [c2 h2| | |] eqn:E2;
     [destruct (service_running c2) eqn:S2|..]);
    simpl; repeat split; eauto; try (intros; simplify_eq; fail);
    try (intros (? & ? & ? & ?); simplify_eq; congruence).
Qed.

Lemma check_sent w net om :
  (check_ops_manager_status w net om).2
  = (check_ops_manager_accessibility net (url om)).2 ++
    (if answered net (url om) then [credentials_request om; version_request (url om)] else []).
Proof.
  unfold check_ops_manager_status.
  destruct (accessibility_spec net (url om)) as (_ & _ & _ & Ha & _). simpl in Ha.
  destruct (check_ops_manager_accessibility net (url om)) as [acc sent]. simpl in *.
  rewrite Ha. destruct (answered net (url om)); simpl; [done|]. by rewrite app_nil_r.
Qed.

Lemma check_result w net om :
  match check_error w om with
  | Some e => (check_ops_manager_status w net om).1 = Raise e
  | None =>
      ∃ row, (check_ops_manager_status w net om).1 = Ok row ∧
             row_url row = url om ∧
             hostname_or_url w (url om) = Ok (row_hostname row) ∧
             region om = Some (row_region row) ∧
             environment om = Some (row_environment row) ∧
             row_accessibility row = (check_ops_manager_accessibility net (url om)).1 ∧
             String.eqb (a_status (row_accessibility row)) "accessible" = answered net (url om) ∧
             (answered net (url om) = false →
              row_authentication row = Authentication "not_checked" None None ∧
              row_version row = Some "Unknown") ∧
             (answered net (url om) = true →
              row_authentication row
              = (check_api_authentication net (url om) (public_key om) (private_key om)).1 ∧
              row_version row = Some (get_ops_manager_version net (url om)).1)
  end.
Proof.
  unfold check_ops_manager_status, check_error.
  destruct (accessibility_spec net (url om)) as (_ & _ & _ & Ha & _). simpl in Ha.
  destruct (check_ops_manager_accessibility net (url om)) as [acc sent]. simpl in *.
  rewrite Ha.
  destruct (hostname_or_url w (url om)) as [host | e], (region om), (environment om),
    (answered net (url om)); simpl;
    try done; eexists; (split; [done|]); simpl; repeat split; try done.
Qed.

Lemma check_result_ok w net om row :
  (check_ops_manager_status w net om).1 = Ok row →
  check_error w om = None ∧
  String.eqb (a_status (row_accessibility row)) "accessible" = answered net (url om) ∧
  (answered net (url om) = false →
   row_authentication row = Authentication "not_checked" None None ∧
   row_version row = Some "Unknown").
Proof.
  intros Hrow. pose proof (check_result w net om) as Hc.
  destruct (check_error w om) as [e |]; [congruence |].
  destruct Hc as (row' & Hr' & _ & _ & _ & _ & _ & Ha & Hn & _).
  assert (row' = row) as -> by congruence. done.
Qed.

(** The handler of a failed check evaluates what the check evaluated, and
    raises what the check raised. *)
Lemma failed_row_raises w net om e :
  (check_ops_manager_status w net om).1 = Raise e → failed_row w om e = Raise e.
Proof.
  intros H. pose proof (check_result w net om) as Hc.
  unfold check_error in Hc. unfold failed_row, index_field.
  destruct (hostname_or_url w (url om)) as [host | e0], (region om), (environment om);
    simpl in *;
    try (destruct Hc as (row & Hr & _); congruence);
    rewrite Hc in H; injection H as <-; reflexivity.
Qed.

Lemma check_error_none w om : check_error w om = None ↔ parsed w om ∧ labelled om.
Proof.
  unfold check_error, hostname_or_url, parsed, labelled.
  destruct (hostname w (url om)) as [[h |] | e], (region om), (environment om); simpl;
    split; try done;
    try (intros [[h' Hh] [[rg Hr] [env He]]]; done);
    intros _; (split; [by eexists | split; by eexists]).
Qed.

Lemma collect_status_ok w net completed acc rows :
  collect_status w net completed acc = Ok rows →
  ∃ rows', rows = acc ++ rows' ∧
           Forall2 (λ om row, (check_ops_manager_status w net om).1 = Ok row) completed rows'.
Proof.
  revert acc. induction completed as [|om rest IH]; intros acc H; simpl in H.
  - exists []. rewrite app_nil_r. split; [congruence | constructor].
  - destruct (check_ops_manager_status w net om).1 as [row | e] eqn:E.
    + destruct (IH _ H) as (rows' & -> & HF). exists (row :: rows').
      rewrite <- app_assoc. split; [done|]. by constructor.
    + rewrite (failed_row_raises w net om e E) in H. done.
Qed.

Lemma collect_status_total w net completed acc :
  Forall (λ om, check_error w om = None) completed →
  ∃ rows, collect_status w net completed acc = Ok rows.
Proof.
  intros H. revert acc. induction H as [|om rest Hom _ IH]; intros acc; simpl.
  - eauto.
  - pose proof (check_result w net om) as Hc. rewrite Hom in Hc.
    destruct Hc as (row & -> & _). apply IH.
Qed.

(** The loop stops at the first check that raised, with its exception. *)
Lemma collect_status_raises w net completed acc e :
  collect_status w net completed acc = Raise e ↔
  ∃ before om after,
    completed = before ++ om :: after ∧
    Forall (λ x, check_error w x = None) before ∧
    check_error w om = Some e.
Proof.
  revert acc. induction completed as [|om rest IH]; intros acc; simpl.
  - split; [done |]. intros (before & x & after & H & _). by destruct before.
  - pose proof (check_result w net om) as Hc.
    destruct (check_error w om) as [e0 |] eqn:Herr.
    + rewrite Hc, (failed_row_raises w net om e0 Hc). split.
      * intros [= ->]. exists [], om, rest. by repeat split.
      * intros (before & x & after & H & Hbefore & Hx).
        destruct before as [| y before]; simpl in H; injection H as <- _.
        -- congruence.
        -- apply Forall_cons in Hbefore as [Hy _]. congruence.
    + destruct Hc as (row & -> & _). rewrite IH. split.
      * intros (before & x & after & -> & Hbefore & Hx).
        exists (om :: before), x, after. split; [done |]. split; [by constructor | done].
      * intros (before & x & after & H & Hbefore & Hx).
        destruct before as [| y before]; simpl in H; injection H as <- Hrest.
        -- congruence.
        -- apply Forall_cons in Hbefore as [_ Hbefore]. by exists before, x, after.
Qed.

Lemma filter_length_le {A} (P Q : A → Prop) `{∀ x, Decision (P x)} `{∀ x, Decision (Q x)}
    (l : list A) :
  Forall (λ x, P x → Q x) l → length (filter P l) ≤ length (filter Q l).
Proof.
  induction 1 as [|x l Hx _ IH]; [done|].
  rewrite !filter_cons. destruct (decide (P x)), (decide (Q x)); simpl; try lia. naive_solver.
Qed.

Lemma rows_accessible w net completed rows :
  Forall2 (λ om row, (check_ops_manager_status w net om).1 = Ok row) completed rows →
  length (filter (λ r, a_status (row_accessibility r) = "accessible") rows)
  = length (filter (λ om, answered net (url om) = true) completed) ∧
  Forall (λ r, auth_status (row_authentication r) = "authenticated" →
               a_status (row_accessibility r) = "accessible") rows.
Proof.
  induction 1 as [|om row completed rows Hrow _ [IH1 IH2]]; [by split|].
  destruct (check_result_ok w net om row Hrow) as (_ & Ha & Hn).
  rewrite !filter_cons. split.
  - destruct (answered net (url om)) eqn:E.
    + apply String.eqb_eq in Ha. rewrite decide_True by done. rewrite decide_True by done.
      simpl. by rewrite IH1.
    + apply String.eqb_neq in Ha. rewrite decide_False by done. rewrite decide_False by done.
      done.
  - constructor; [|done]. intros Hauth. destruct (answered net (url om)) eqn:E.
    + by apply String.eqb_eq in Ha.
    + destruct (Hn eq_refl) as [Hn' _]. rewrite Hn' in Hauth. done.
Qed.

(** X17: the accessibility check sends one or two requests without
    credentials to the root of the source, with timeouts 5 and 3; it
    reports as its attempts the number of requests it sent; it sends the
    second exactly when the first was not answered with 200, 401 or 403;
    and its status is "accessible" exactly when one of them was. *)
Theorem accessibility_probes (net : network) (u : string) :
  let result := check_ops_manager_accessibility net u in
  (result.2 = [probe u 5] ∨ result.2 = [probe u 5; probe u 3]) ∧
  a_attempts result.1 = Some (length result.2) ∧
  (a_status result.1 = "accessible" ↔ answered net u = true) ∧
  (result.2 = [probe u 5] ↔
   ∃ status_code headers,
     net (probe u 5) = Response status_code headers ∧ service_running status_code = true).
Proof.
  destruct (accessibility_spec net u) as (H1 & H2 & _ & H4 & H5). simpl in *.
  repeat split; try done.
  - intros H. rewrite <- H4. by apply String.eqb_eq.
  - intros H. apply String.eqb_eq. by rewrite H4.
  - by apply H5.
  - by apply H5.
Qed.

(** X18: [check_ops_manager_status] sends the API credentials only to a
    source whose accessibility check succeeded, and only in the one request
    to the organisations endpoint; a source that did not answer receives the
    two probes and nothing else, and its row shows "not_checked" and
    version "Unknown".  No check sends more than four requests. *)
Theorem credentials_only_after_access (w : world) (net : network) (om : ops_manager) :
  let result := check_ops_manager_status w net om in
  (∀ rq, rq ∈ result.2 → req_auth rq ≠ None →
         answered net (url om) = true ∧ rq = credentials_request om) ∧
  (credentials_request om ∈ result.2 ↔ answered net (url om) = true) ∧
  (answered net (url om) = false →
     result.2 = [probe (url om) 5; probe (url om) 3] ∧
     ∀ row, result.1 = Ok row →
            auth_status (row_authentication row) = "not_checked" ∧
            row_version row = Some "Unknown") ∧
  length result.2 ≤ 4.
Proof.
  simpl. rewrite check_sent.
  destruct (accessibility_spec net (url om)) as (Hsent & _ & _ & Ha & Hone). simpl in *.
  assert (∀ rq, rq ∈ (check_ops_manager_accessibility net (url om)).2 → req_auth rq = None)
    as Hprobe.
  { intros rq. destruct Hsent as [-> | ->]; rewrite ?elem_of_cons, elem_of_nil;
      intros [-> | H]; try done; destruct H as [-> | []]; done. }
  assert (credentials_request om ∉ (check_ops_manager_accessibility net (url om)).2) as Hnot.
  { intros H. apply Hprobe in H. done. }
  destruct (answered net (url om)) eqn:E.
  - split; [|split; [|split]].
    + intros rq Hrq Hauth. split; [done|].
      apply elem_of_app in Hrq as [Hrq | Hrq]; [by apply Hprobe in Hrq|].
      apply elem_of_cons in Hrq as [-> | Hrq]; [done|].
      apply elem_of_cons in Hrq as [-> | Hrq]; [done|]. by apply elem_of_nil in Hrq.
    + split; [done|]. intros _. apply elem_of_app. right. apply elem_of_cons. by left.
    + done.
    + rewrite length_app. destruct Hsent as [-> | ->]; simpl; lia.
  - rewrite app_nil_r.
    assert ((check_ops_manager_accessibility net (url om)).2
            = [probe (url om) 5; probe (url om) 3]) as Hs.
    { destruct Hsent as [H | H]; [|done]. apply Hone in H as (c & h & Hn & Hr).
      unfold answered in E. simpl in E. rewrite Hn, Hr in E. done. }
    split; [|split; [|split]].
    + intros rq Hrq Hauth. by apply Hprobe in Hrq.
    + split; [done | done].
    + intros _. split; [done|]. intros row Hrow.
      destruct (check_result_ok w net om row Hrow) as (_ & _ & Hn).
      rewrite E in Hn. destruct (Hn eq_refl) as [Hx Hv]. by rewrite Hx, Hv.
    + rewrite Hs. simpl. lia.
Qed.

(** X19: when [urlparse] accepts the URL of every configured source and
    every source has a region and an environment, the dashboard is
    rendered, in whatever order the checks complete: its total is the
    number of configured sources, its accessible count is the number of
    sources that answered a probe, and authenticated ≤ accessible ≤ total. *)
Theorem dashboard_counts (w : world) (net : network)
    (managers completed : list ops_manager) (refresh_posted : bool) :
  completed ≡ₚ managers →
  Forall (parsed w) managers →
  Forall labelled managers →
  ∃ d,
    (ops_manager_status w net completed refresh_posted).1 = Ok d ∧
    total_ops_managers d = length managers ∧
    accessible_count d = length (filter (λ om, answered net (url om) = true) managers) ∧
    authenticated_count d ≤ accessible_count d ∧
    accessible_count d ≤ total_ops_managers d.
Proof.
  intros Hperm Hparsed Hall. unfold ops_manager_status. simpl.
  destruct (collect_status_total w net completed []) as [rows E].
  { rewrite Hperm. apply Forall_forall. intros om Hom. apply check_error_none.
    rewrite Forall_forall in Hparsed, Hall. split; auto. }
  rewrite E. eexists. split; [done|]. simpl.
  apply collect_status_ok in E as (rows' & -> & HF). simpl in *.
  destruct (rows_accessible w net completed rows' HF) as [Hacc Hauth].
  pose proof (sort_rows_perm rows') as Hsort.
  rewrite !Hsort. split; [|split; [|split]].
  - rewrite <- Hperm. symmetry. by eapply Forall2_length.
  - by rewrite Hacc, Hperm.
  - by apply filter_length_le.
  - apply length_filter.
Qed.

Lemma dashboard_counts_witness :
  ∃ d,
    (ops_manager_status StatusSample.strict StatusSample.online
       [Sample.west; Sample.north; Sample.east] true).1 = Ok d ∧
    total_ops_managers d = length [Sample.east; Sample.west; Sample.north] ∧
    accessible_count d
    = length (filter (λ om, answered StatusSample.online (url om) = true)
                [Sample.east; Sample.west; Sample.north]) ∧
    authenticated_count d ≤ accessible_count d ∧
    accessible_count d ≤ total_ops_managers d.
Proof.
  apply (dashboard_counts StatusSample.strict StatusSample.online
           [Sample.east; Sample.west; Sample.north]
           [Sample.west; Sample.north; Sample.east] true).
  - apply (bool_decide_unpack _). vm_compute. reflexivity.
  - repeat constructor; by eexists.
  - repeat constructor; by eexists.
Defined.

(** X20: when [urlparse] accepts the URL of every source and every source
    has a region and an environment, the rows of the dashboard are the
    rows of the checks, one per source, in ascending order of (region,
    environment). *)
Theorem dashboard_rows_sorted (w : world) (net : network)
    (completed : list ops_manager) (refresh_posted : bool) :
  Forall (parsed w) completed →
  Forall labelled completed →
  ∃ d rows,
    (ops_manager_status w net completed refresh_posted).1 = Ok d ∧
    StronglySorted key_le (status_results d) ∧
    Forall2 (λ om row, (check_ops_manager_status w net om).1 = Ok row) completed rows ∧
    status_results d ≡ₚ rows.
Proof.
  intros Hparsed Hall. unfold ops_manager_status. simpl.
  destruct (collect_status_total w net completed []) as [rows E].
  { apply Forall_forall. intros om Hom. apply check_error_none.
    rewrite Forall_forall in Hparsed, Hall. split; auto. }
  rewrite E. apply collect_status_ok in E as (rows' & -> & HF). simpl.
  eexists. exists rows'. split; [done|]. simpl.
  split; [apply sort_rows_sorted|]. split; [done | apply sort_rows_perm].
Qed.

Lemma dashboard_rows_sorted_witness :
  ∃ d rows,
    (ops_manager_status StatusSample.strict StatusSample.online
       [Sample.west; Sample.north; Sample.east] false).1 = Ok d ∧
    StronglySorted key_le (status_results d) ∧
    Forall2 (λ om row, (check_ops_manager_status StatusSample.strict StatusSample.online om).1
                       = Ok row)
      [Sample.west; Sample.north; Sample.east] rows ∧
    status_results d ≡ₚ rows.
Proof.
  apply (dashboard_rows_sorted StatusSample.strict StatusSample.online
           [Sample.west; Sample.north; Sample.east] false).
  - repeat constructor; by eexists.
  - repeat constructor; by eexists.
Defined.

Lemma requests_sent_probe w net completed om :
  om ∈ completed → probe (url om) 5 ∈ requests_sent w net completed.
Proof.
  intros Hom. unfold requests_sent. apply list_elem_of_join.
  exists (check_ops_manager_status w net om).2. split.
  - rewrite check_sent. apply elem_of_app. left.
    destruct (accessibility_spec net (url om)) as ([-> | ->] & _); apply elem_of_cons; by left.
  - apply list_elem_of_fmap. by exists om.
Qed.

(** X21: the dashboard is rendered exactly when, for every configured
    source, [urlparse] accepts the URL and the source has a region and an
    environment.  Otherwise the whole page raises: the handler of a failed
    check evaluates the same expressions again, so the page ends in the
    exception of the first completed check that failed, the [ValueError]
    of its URL or the [KeyError] of its missing region or environment.
    The probes of all sources are sent all the same. *)
Theorem dashboard_rendered_iff (w : world) (net : network)
    (completed : list ops_manager) (refresh_posted : bool) :
  let result := ops_manager_status w net completed refresh_posted in
  ((∃ d, result.1 = Ok d) ↔ Forall (λ om, parsed w om ∧ labelled om) completed) ∧
  (∀ e, result.1 = Raise e ↔
        ∃ before om after,
          completed = before ++ om :: after ∧
          Forall (λ x, parsed w x ∧ labelled x) before ∧
          check_error w om = Some e) ∧
  (∀ om, om ∈ completed → probe (url om) 5 ∈ result.2).
Proof.
  simpl. unfold ops_manager_status. simpl.
  assert (∀ l, Forall (λ om, check_error w om = None) l ↔
               Forall (λ om, parsed w om ∧ labelled om) l) as Hsame.
  { intros l. rewrite !Forall_forall. split; intros H om Hom; by apply check_error_none, H. }
  split; [| split].
  - split.
    + intros [d Hd]. apply Hsame.
      destruct (collect_status w net completed []) as [rows | e] eqn:E; [| done].
      apply collect_status_ok in E as (rows' & _ & HF). simpl in HF.
      apply Forall_forall. intros om Hom.
      apply list_elem_of_lookup in Hom as [i Hi].
      destruct (Forall2_lookup_l _ _ _ _ _ HF Hi) as (row & _ & Hrow).
      by destruct (check_result_ok w net om row Hrow).
    + intros Hall. apply Hsame in Hall.
      destruct (collect_status_total w net completed [] Hall) as [rows ->]. eauto.
  - intros e.
    assert (collect_status w net completed [] = Raise e ↔
            ∃ before om after,
              completed = before ++ om :: after ∧
              Forall (λ x, parsed w x ∧ labelled x) before ∧
              check_error w om = Some e) as Hiff.
    { rewrite collect_status_raises.
      split; intros (before & om & after & H1 & H2 & H3); exists before, om, after;
        (split; [done |]); (split; [by apply Hsame | done]). }
    rewrite <- Hiff.
    destruct (collect_status w net completed []) as [rows | e0]; split; congruence.
  - intros om. apply requests_sent_probe.
Qed.

Lemma dashboard_rendered_iff_witness :
  ops_manager_status StatusSample.strict StatusSample.online
    [Sample.east; StatusSample.bracketed; StatusSample.unlabelled] false
  = (Raise "Invalid IPv6 URL",
     requests_sent StatusSample.strict StatusSample.online
       [Sample.east; StatusSample.bracketed; StatusSample.unlabelled]).
Proof.
  pose proof (dashboard_rendered_iff StatusSample.strict StatusSample.online
                [Sample.east; StatusSample.bracketed; StatusSample.unlabelled] false)
    as (_ & Hraise & _).
  apply injective_projections; [| reflexivity].
  apply Hraise. exists [Sample.east], StatusSample.bracketed, [StatusSample.unlabelled].
  split; [reflexivity |]. split; [| reflexivity].
  repeat constructor; by eexists.
Defined.

(** *** The version header *)

Lemma contains_refl s : contains s s.
Proof. exists "", "". by rewrite append_nil, append_nil_r. Qed.

Lemma contains_trans a b c : contains a b → contains b c → contains a c.
Proof.
  intros (p1 & q1 & ->) (p2 & q2 & ->). exists (p2 +:+ p1), (q1 +:+ q2).
  by rewrite !append_assoc.
Qed.

Lemma contains_cons a c s : contains a s → contains a (String c s).
Proof. intros (p & q & ->). exists (String c p), q. by rewrite append_cons. Qed.

Lemma contains_prefix a b : contains a (a +:+ b).
Proof. exists "", b. by rewrite append_nil. Qed.

Lemma split_on_head c s : ∃ h t post, split_on c s = h :: t ∧ s = h +:+ post.
Proof.
  induction s as [|x s (h & t & post & E & Hs)]; simpl.
  - exists "", [], "". by rewrite append_nil.
  - destruct (Ascii.eqb x c).
    + exists "", (split_on c s), (String x s). by rewrite append_nil.
    + rewrite E. exists (String x h), t, post. by rewrite append_cons, <- Hs.
Qed.

Lemma split_on_contains c s x : x ∈ split_on c s → contains x s.
Proof.
  induction s as [|a s IH]; simpl.
  - intros ->%list_elem_of_singleton. apply contains_refl.
  - destruct (split_on_head c s) as (h & t & post & E & Hs).
    destruct (Ascii.eqb a c).
    + intros [-> | H]%elem_of_cons.
      * exists "", (String a s). by rewrite !append_nil.
      * by apply contains_cons, IH.
    + rewrite E in *. intros [-> | H]%elem_of_cons.
      * rewrite Hs, <- append_cons. apply contains_prefix.
      * apply contains_cons, IH. apply elem_of_cons. by right.
Qed.

Lemma lstrip_suffix s : ∃ pre, s = pre +:+ lstrip s.
Proof.
  induction s as [|c s [pre IH]]; simpl.
  - by exists "".
  - destruct (is_space c).
    + exists (String c pre). by rewrite append_cons, <- IH.
    + exists "". by rewrite append_nil.
Qed.

Lemma rstrip_prefix s : ∃ post, s = rstrip s +:+ post.
Proof.
  induction s as [|c s [post IH]]; simpl.
  - by exists "".
  - destruct (is_space c && negb (truthy_str (rstrip s))).
    + exists (String c s). by rewrite append_nil.
    + exists post. by rewrite append_cons, <- IH.
Qed.

Lemma strip_contains s : contains (strip s) s.
Proof.
  unfold strip. destruct (lstrip_suffix s) as [pre Hpre].
  destruct (rstrip_prefix (lstrip s)) as [post Hpost].
  exists pre, post. by rewrite <- Hpost.
Qed.

Lemma split_once_prefix (c : ascii) (name value : string) :
  containsb (String c "") name = false →
  split_once c (name +:+ String c value) = [name; value].
Proof.
  induction name as [|x name IH]; intros H.
  - rewrite append_nil. simpl. by rewrite Ascii.eqb_refl.
  - rewrite containsb_char_cons in H. apply orb_false_iff in H as [H1 H2].
    rewrite append_cons. simpl. rewrite Ascii.eqb_sym, H1. by rewrite IH.
Qed.

Lemma version_of_parts_skip before rest :
  Forall (λ f, prefixb "versionString=" (strip f) = false) before →
  version_of_parts (before ++ rest) = version_of_parts rest.
Proof. induction 1 as [|f before Hf _ IH]; cbn [version_of_parts app]; [done|]. by rewrite Hf. Qed.

Lemma version_of_parts_none parts :
  Forall (λ f, prefixb "versionString=" (strip f) = false) parts →
  version_of_parts parts = Ok None.
Proof. induction 1 as [|f before Hf _ IH]; cbn [version_of_parts app]; [done|]. by rewrite Hf. Qed.

Lemma filter_none {A} (P : A → Prop) `{∀ x, Decision (P x)} (l : list A) :
  Forall (λ x, ¬ P x) l → filter P l = [].
Proof.
  induction 1 as [|x l Hx _ IH]; [done |]. by rewrite filter_cons, decide_False, IH.
Qed.

(** A header is found under its name in whatever case it was sent. *)
Lemma header_get_found name default pre field value post :
  lower field = lower name →
  Forall (λ f, lower f.1 ≠ lower name) (pre ++ post) →
  header_get name default (pre ++ (field, value) :: post) = value.
Proof.
  intros Hname [Hpre Hpost]%Forall_app. unfold header_get.
  rewrite filter_app, filter_cons, decide_True by done.
  by rewrite (filter_none _ pre), (filter_none _ post).
Qed.

Lemma header_get_missing name default headers :
  Forall (λ f, lower f.1 ≠ lower name) headers → header_get name default headers = default.
Proof. intros H. unfold header_get. by rewrite filter_none. Qed.

(** X22: when the version endpoint answers, the version header is found
    under its name in whatever case it was sent, and the version shown is
    the text after [versionString=] in the first semicolon-separated field
    of the header that starts with it once trimmed; it is "Unknown" when
    that text is empty, when no field starts with it, or when the response
    has no such header, and it is never the empty string. *)
Theorem version_of_header (net : network) (u : string)
    (status_code : nat) (headers : list (string * string)) :
  net (version_request u) = Response status_code headers →
  let version_header := header_get "X-MongoDB-Service-Version" "" headers in
  (∀ pre name value post,
     headers = pre ++ (name, value) :: post →
     lower name = "x-mongodb-service-version" →
     Forall (λ f, lower f.1 ≠ "x-mongodb-service-version") (pre ++ post) →
     version_header = value) ∧
  (Forall (λ f, lower f.1 ≠ "x-mongodb-service-version") headers →
   (get_ops_manager_version net u).1 = "Unknown") ∧
  (∀ before field after version,
     split_on ";" version_header = before ++ field :: after →
     Forall (λ f, prefixb "versionString=" (strip f) = false) before →
     strip field = "versionString=" +:+ version →
     (get_ops_manager_version net u).1 = if truthy_str version then version else "Unknown") ∧
  (Forall (λ f, prefixb "versionString=" (strip f) = false) (split_on ";" version_header) →
   (get_ops_manager_version net u).1 = "Unknown") ∧
  (get_ops_manager_version net u).1 ≠ "".
Proof.
  intros Hnet. simpl. unfold get_ops_manager_version. fold (version_request u).
  rewrite Hnet. simpl. split; [| split; [| split; [| split]]].
  - intros pre name value post -> Hname Hrest. by apply header_get_found.
  - intros Hnone.
    by rewrite (header_get_missing "X-MongoDB-Service-Version" "" headers Hnone).
  - intros before field after version Hsplit Hbefore Hfield.
    assert (containsb "versionString="
              (header_get "X-MongoDB-Service-Version" "" headers) = true) as ->.
    { apply containsb_contains.
      apply (contains_trans _ (strip field)); [rewrite Hfield; apply contains_prefix|].
      apply (contains_trans _ field); [apply strip_contains|].
      apply (split_on_contains ";"). rewrite Hsplit. apply elem_of_app. right.
      apply elem_of_cons. by left. }
    rewrite Hsplit, version_of_parts_skip by done. cbn [version_of_parts]. rewrite Hfield.
    rewrite prefixb_append.
    change ("versionString=" +:+ version) with ("versionString" +:+ String "=" version).
    rewrite split_once_prefix by done. simpl. done.
  - intros Hnone. rewrite version_of_parts_none by done.
    by destruct (containsb _ _).
  - destruct (containsb _ _); [|done].
    induction (split_on ";" (header_get "X-MongoDB-Service-Version" "" headers))
      as [|f parts IH]; cbn [version_of_parts]; [done|].
    destruct (prefixb "versionString=" (strip f)); [|done].
    destruct (index_at 1 (split_once "=" (strip f))) as [version | e]; [|done].
    destruct (truthy_str version) eqn:E; [|done].
    unfold truthy_str in E. apply negb_true_iff, String.eqb_neq in E. done.
Qed.

Lemma version_of_header_witness :
  (get_ops_manager_version StatusSample.online (url Sample.east)).1 = "7.0.1.123456789".
Proof.
  pose proof (version_of_header StatusSample.online (url Sample.east) 200
                [("content-type", "application/json");
                 ("x-mongodb-service-version",
                  "gitHash=abc123; versionString=7.0.1.123456789")] eq_refl)
    as (_ & _ & H & _).
  apply (H ["gitHash=abc123"] " versionString=7.0.1.123456789" [] "7.0.1.123456789").
  - vm_compute. reflexivity.
  - repeat constructor.
  - vm_compute. reflexivity.
Defined.

(** *** The single-source page *)

Lemma fetch_and_cache_data_log w om dt st :
  calls (fetch_and_cache_data w om dt st).2 = calls st ++ [(dt, url om)].
Proof.
  rewrite fetch_and_cache_data_unfold. repeat case_match; simpl; by rewrite ?damaged_calls.
Qed.

Lemma get_cache_timestamp_absent f st :
  fs st !! f = None → get_cache_timestamp f st = (Ok None, st).
Proof. unfold get_cache_timestamp. by intros ->. Qed.

(** X23: a source that is configured with a name whose cache file differs
    from the cache file of its URL is never served from the cache by the
    single-source page: the page reads the file of the name,
    [fetch_and_cache_data] writes the file of the URL.  As long as no file
    exists under the name, every request for the source calls the adapter
    once, shows no cache timestamp, and leaves the file of the name missing,
    so the next request does the same. *)
Theorem named_source_never_cached (w : world) (options : list option_entry)
    (refresh_requested : bool) (name : string) (selected : option_entry) (st : state) :
  name ≠ "" →
  List.find (λ o, String.eqb (opt_name o) name) options = Some selected →
  get_cache_filename name "backup" ≠ get_cache_filename (url (opt_source selected)) "backup" →
  fs st !! get_cache_filename name "backup" = None →
  let result := single_bkp_opsmanager w options refresh_requested (Some name) st in
  (∃ view, result.1 = Ok view ∧ sv_cache_timestamp view = None) ∧
  calls result.2 = calls st ++ [("backup", url (opt_source selected))] ∧
  fs result.2 !! get_cache_filename name "backup" = None.
Proof.
  intros Hname Hfind Hkey Hfile. simpl.
  unfold single_bkp_opsmanager. unfold_monad. simpl.
  apply truthy_str_nonempty in Hname. rewrite Hname.
  rewrite load_cache_unfold, Hfile. simpl. rewrite orb_true_r, andb_false_r.
  rewrite Hfind.
  pose proof (fetch_and_cache_data_log w (opt_source selected) "backup" st) as Hlog.
  pose proof (fetch_and_cache_data_frame w "backup" (opt_source selected) st
                (get_cache_filename name "backup") Hkey) as Hframe.
  destruct (fetch_and_cache_data_returns w (opt_source selected) "backup" st)
    as (data & error_msg & st' & E).
  rewrite E in *. simpl in *. rewrite Hfile in Hframe.
  destruct (truthy_error error_msg), refresh_requested; simpl;
    rewrite (get_cache_timestamp_absent _ _ Hframe); simpl; eauto.
Qed.

Lemma named_source_never_cached_witness :
  let result :=
    single_bkp_opsmanager Sample.healthy (ops_manager_options PageSample.config) false
      (Some "East Coast") Sample.no_cache in
  (∃ view, result.1 = Ok view ∧ sv_cache_timestamp view = None) ∧
  calls result.2 = calls Sample.no_cache ++ [("backup", url (opt_source PageSample.east_option))] ∧
  fs result.2 !! get_cache_filename "East Coast" "backup" = None.
Proof.
  apply (named_source_never_cached Sample.healthy (ops_manager_options PageSample.config)
           false "East Coast" PageSample.east_option Sample.no_cache).
  - discriminate.
  - vm_compute. reflexivity.
  - vm_compute. discriminate.
  - vm_compute. reflexivity.
Defined.

(** X24: a source whose name and URL give the same cache file (as when it
    is configured without a name), whose cache file is missing and can be
    written, and whose adapter delivers a list: the first visit without
    refresh calls the adapter, shows the fetched records and stamps the
    cache.  When the adapter delivered at least one record, a second visit
    is served from the cache: it shows the same records and the same
    timestamp with an empty status, calls nothing and changes nothing.
    When the adapter delivered an empty list, the second visit takes the
    saved empty list for a missing cache and calls the adapter again. *)
Theorem cached_after_first_visit (w : world) (options : list option_entry)
    (name : string) (selected : option_entry) (st : state) (d : list record) :
  name ≠ "" →
  List.find (λ o, String.eqb (opt_name o) name) options = Some selected →
  get_cache_filename name "backup" = get_cache_filename (url (opt_source selected)) "backup" →
  fs st !! get_cache_filename name "backup" = None →
  api_backup w (url (opt_source selected)) (public_key (opt_source selected))
    (private_key (opt_source selected)) = Returned (Some d) →
  write_error w (get_cache_filename name "backup") = None →
  let first := single_bkp_opsmanager w options false (Some name) st in
  let second := single_bkp_opsmanager w options false (Some name) first.2 in
  (∃ view, first.1 = Ok view ∧ sv_data view = d ∧ sv_status_type view = "info" ∧
           sv_cache_timestamp view = Some (now w)) ∧
  calls first.2 = calls st ++ [("backup", url (opt_source selected))] ∧
  (d ≠ [] →
   (∃ view, second.1 = Ok view ∧ sv_data view = d ∧ sv_status_message view = "" ∧
            sv_cache_timestamp view = Some (now w)) ∧
   second.2 = first.2) ∧
  (d = [] →
   (∃ view, second.1 = Ok view ∧ sv_data view = [] ∧
            sv_status_message view = "Auto-loaded 0 clusters from API (cache was missing)." ∧
            sv_cache_timestamp view = Some (now w)) ∧
   calls second.2 = calls first.2 ++ [("backup", url (opt_source selected))]).
Proof.
  intros Hname Hfind Hkey Hfile Hapi Hwrite. simpl.
  apply truthy_str_nonempty in Hname.
  assert (single_bkp_opsmanager w options false (Some name) st
          = (Ok (SingleView d (Some name) (sorted_values "Username" d)
                   ("Auto-loaded " +:+ str_of_nat (length d) +:+
                    " clusters from API (cache was missing).") "info" (Some (now w))),
             State (<[get_cache_filename name "backup" := Envelope (now w) d]> (fs st))
               (calls st ++ [("backup", url (opt_source selected))]))) as Hfirst.
  { unfold single_bkp_opsmanager. unfold_monad. simpl. rewrite Hname.
    rewrite load_cache_unfold, Hfile. simpl. rewrite Hfind.
    rewrite fetch_and_cache_data_unfold. unfold adapter, cache_file. simpl.
    rewrite Hapi, <- Hkey, Hwrite. simpl.
    unfold get_cache_timestamp. simpl. by rewrite lookup_insert_eq. }
  rewrite Hfirst. simpl.
  split; [eauto 10 |]. split; [done |]. split.
  - intros Hd.
    assert (single_bkp_opsmanager w options false (Some name)
              (State (<[get_cache_filename name "backup" := Envelope (now w) d]> (fs st))
                 (calls st ++ [("backup", url (opt_source selected))]))
            = (Ok (SingleView d (Some name) (sorted_values "Username" d) "" "" (Some (now w))),
               State (<[get_cache_filename name "backup" := Envelope (now w) d]> (fs st))
                 (calls st ++ [("backup", url (opt_source selected))]))) as Hsecond.
    { unfold single_bkp_opsmanager. unfold_monad. simpl. rewrite Hname.
      rewrite load_cache_unfold. simpl. rewrite lookup_insert_eq. simpl.
      destruct d as [|r d]; [done|]. simpl.
      unfold get_cache_timestamp. simpl. by rewrite lookup_insert_eq. }
    rewrite Hsecond. simpl. split; eauto 10.
  - intros ->.
    assert (single_bkp_opsmanager w options false (Some name)
              (State (<[get_cache_filename name "backup" := Envelope (now w) []]> (fs st))
                 (calls st ++ [("backup", url (opt_source selected))]))
            = (Ok (SingleView [] (Some name) (sorted_values "Username" [])
                     "Auto-loaded 0 clusters from API (cache was missing)." "info"
                     (Some (now w))),
               State (<[get_cache_filename name "backup" := Envelope (now w) []]>
                        (<[get_cache_filename name "backup" := Envelope (now w) []]> (fs st)))
                 ((calls st ++ [("backup", url (opt_source selected))]) ++
                  [("backup", url (opt_source selected))]))) as Hsecond.
    { unfold single_bkp_opsmanager. unfold_monad. simpl. rewrite Hname.
      rewrite load_cache_unfold. simpl. rewrite lookup_insert_eq. simpl. rewrite Hfind.
      rewrite fetch_and_cache_data_unfold. unfold adapter, cache_file. simpl.
      rewrite Hapi, <- Hkey, Hwrite. simpl.
      unfold get_cache_timestamp. simpl. by rewrite lookup_insert_eq. }
    rewrite Hsecond. simpl. split; eauto 10.
Qed.

Lemma cached_after_first_visit_witness :
  let first :=
    single_bkp_opsmanager Sample.healthy (ops_manager_options PageSample.config) false
      (Some (url Sample.west)) Sample.no_cache in
  let second :=
    single_bkp_opsmanager Sample.healthy (ops_manager_options PageSample.config) false
      (Some (url Sample.west)) first.2 in
  (∃ view, first.1 = Ok view ∧ sv_data view = [Sample.bob; Sample.alice] ∧
           sv_status_type view = "info" ∧
           sv_cache_timestamp view = Some (now Sample.healthy)) ∧
  calls first.2
  = calls Sample.no_cache ++ [("backup", url (opt_source PageSample.west_option))] ∧
  (∃ view, second.1 = Ok view ∧ sv_data view = [Sample.bob; Sample.alice] ∧
           sv_status_message view = "" ∧
           sv_cache_timestamp view = Some (now Sample.healthy)) ∧
  second.2 = first.2.
Proof.
  destruct (cached_after_first_visit Sample.healthy (ops_manager_options PageSample.config)
              (url Sample.west) PageSample.west_option Sample.no_cache
              [Sample.bob; Sample.alice])
    as (Hfirst & Hcalls & Hserved & _).
  - discriminate.
  - vm_compute. reflexivity.
  - reflexivity.
  - vm_compute. reflexivity.
  - vm_compute. reflexivity.
  - reflexivity.
  - split; [exact Hfirst |]. split; [exact Hcalls |]. apply Hserved. discriminate.
Defined.

(** *** The pages as request handlers *)

Lemma index_all_ok key field l st :
  Forall (λ om, is_Some (field om)) l →
  index_all key field l st = (Ok (list_to_set (omap field l)), st).
Proof.
  induction 1 as [|om l [v Hv] _ IH]; [done|].
  simpl. unfold_monad. unfold index_key. rewrite Hv. unfold_monad. by rewrite IH.
Qed.

Lemma index_all_raise key field l st :
  Exists (λ om, field om = None) l →
  index_all key field l st = (Raise ("KeyError: '" +:+ key +:+ "'"), st).
Proof.
  induction 1 as [om l Hom | om l _ IH]; simpl; unfold_monad; unfold index_key.
  - by rewrite Hom.
  - destruct (field om); unfold_monad; [by rewrite IH | done].
Qed.

(** X25: a page whose configuration has a source without region or
    without environment fails on every request, before it reads a cache
    file or calls an adapter: [backup_page] and [backup_storage_page] raise
    [KeyError] while they collect the regions and environments. *)
Theorem pages_need_labels (w : world) (config : list config_entry)
    (schedule : list ops_manager → list ops_manager) (rq : page_request) (st : state) :
  Exists (λ item, ¬ labelled (entry_source item)) config →
  (backup_page w config schedule rq st = (Raise "KeyError: 'region'", st) ∨
   backup_page w config schedule rq st = (Raise "KeyError: 'environment'", st)) ∧
  (backup_storage_page w config schedule rq st = (Raise "KeyError: 'region'", st) ∨
   backup_storage_page w config schedule rq st = (Raise "KeyError: 'environment'", st)).
Proof.
  intros Hex. unfold backup_page, backup_storage_page. unfold_monad.
  destruct (decide (Forall (λ om, is_Some (region om)) (entry_source <$> config)))
    as [Hall | Hnot].
  - rewrite (index_all_ok "region" region _ st Hall).
    assert (Exists (λ om, environment om = None) (entry_source <$> config)) as He.
    { apply Exists_fmap. rewrite Forall_fmap in Hall.
      apply Exists_exists in Hex as (item & Hin & Hl). apply Exists_exists. exists item.
      split; [done|]. rewrite Forall_forall in Hall. specialize (Hall item Hin).
      simpl in Hall. destruct (environment (entry_source item)) eqn:E; [|done].
      destruct Hl. split; [done | by rewrite E]. }
    rewrite (index_all_raise "environment" environment _ st He). split; by right.
  - apply not_Forall_Exists in Hnot; [|apply _].
    assert (Exists (λ om, region om = None) (entry_source <$> config)) as Hr.
    { eapply Exists_impl; [exact Hnot|]. intros om H. simpl in H.
      destruct (region om); [|done]. destruct H. eauto. }
    rewrite (index_all_raise "region" region _ st Hr). split; by left.
Qed.

Lemma pages_need_labels_witness :
  (backup_page Sample.healthy [ConfigEntry None StatusSample.unlabelled] id PageGet Sample.warm
   = (Raise "KeyError: 'region'", Sample.warm) ∨
   backup_page Sample.healthy [ConfigEntry None StatusSample.unlabelled] id PageGet Sample.warm
   = (Raise "KeyError: 'environment'", Sample.warm)) ∧
  (backup_storage_page Sample.healthy [ConfigEntry None StatusSample.unlabelled] id PageGet
     Sample.warm
   = (Raise "KeyError: 'region'", Sample.warm) ∨
   backup_storage_page Sample.healthy [ConfigEntry None StatusSample.unlabelled] id PageGet
     Sample.warm
   = (Raise "KeyError: 'environment'", Sample.warm)).
Proof.
  apply (pages_need_labels Sample.healthy [ConfigEntry None StatusSample.unlabelled] id
           PageGet Sample.warm).
  apply Exists_cons_hd. intros [[x Hx] _]. discriminate Hx.
Defined.

(** X26: when every configured source has a region and an environment,
    [backup_page] without a selected region or environment does nothing: it
    shows no record, no filter value and no timestamp, calls no adapter and
    leaves the cache as it is; its status is empty, except that a refresh
    without selection is answered with the warning to select first. *)
Theorem backup_page_without_selection (w : world) (config : list config_entry)
    (schedule : list ops_manager → list ops_manager) (rq : page_request) (st : state) :
  Forall (λ item, labelled (entry_source item)) config →
  no_selection rq = true →
  ∃ view,
    backup_page w config schedule rq st = (Ok view, st) ∧
    bv_data view = [] ∧
    bv_unique_usernames view = [] ∧
    bv_unique_backup_statuses view = [] ∧
    bv_unique_opsmanagers view = [] ∧
    bv_cache_timestamp view = None ∧
    (bv_status_message view, bv_status_type view)
    = if asks_refresh rq
      then ("Please select regions or environments before refreshing data.", "warning")
      else ("", "").
Proof.
  intros Hall Hsel. unfold backup_page. unfold_monad.
  rewrite (index_all_ok "region" region _ st).
  2: { apply Forall_fmap. eapply Forall_impl; [exact Hall|]. by intros item [? ?]. }
  rewrite (index_all_ok "environment" environment _ st).
  2: { apply Forall_fmap. eapply Forall_impl; [exact Hall|]. by intros item [? ?]. }
  destruct rq as [|regions environments refresh]; simpl in *.
  - eexists. split; [done|]. simpl. repeat split; done.
  - apply negb_true_iff in Hsel. rewrite Hsel. simpl. rewrite andb_true_r.
    eexists. split; [done|]. simpl. repeat split; try done. by destruct refresh.
Qed.

Lemma backup_page_without_selection_witness :
  ∃ view,
    backup_page Sample.healthy PageSample.config id (PagePost [] [] true) Sample.warm
    = (Ok view, Sample.warm) ∧
    bv_data view = [] ∧
    bv_unique_usernames view = [] ∧
    bv_unique_backup_statuses view = [] ∧
    bv_unique_opsmanagers view = [] ∧
    bv_cache_timestamp view = None ∧
    (bv_status_message view, bv_status_type view)
    = ("Please select regions or environments before refreshing data.", "warning").
Proof.
  apply (backup_page_without_selection Sample.healthy PageSample.config id
           (PagePost [] [] true) Sample.warm).
  - repeat constructor; by eexists.
  - reflexivity.
Defined.

Lemma truthy_list_elem {A} (x : A) (l : list A) : x ∈ l → truthy_list l = true.
Proof. destruct l; [by intros ?%elem_of_nil | done]. Qed.

Lemma matching_loop_all sr se l acc st :
  truthy_list sr = true → truthy_list se = true →
  Forall (λ om, ∃ rg env, region om = Some rg ∧ rg ∈ sr ∧
                          environment om = Some env ∧ env ∈ se) l →
  matching_loop sr se l acc st = (Ok (acc ++ l), st).
Proof.
  intros Hsr Hse H. revert acc. induction H as [|om l (rg & env & Hr & Hrg & He & Henv) _ IH];
    intros acc; simpl.
  - unfold_monad. by rewrite app_nil_r.
  - unfold_monad. unfold key_match, index_key. rewrite Hsr, Hse, Hr, He. simpl. unfold_monad.
    rewrite !bool_decide_eq_true_2 by done. simpl. rewrite IH. by rewrite <- app_assoc.
Qed.

Lemma latest_timestamp_loop_state dt sr se config latest st :
  (latest_timestamp_loop dt sr se config latest st).2 = st.
Proof.
  revert latest. induction config as [|item config IH]; intros latest; simpl; [done|].
  destruct (get_match sr _ && get_match se _); [|apply IH].
  unfold_monad. unfold get_cache_timestamp.
  destruct (fs st !! _) as [[t d|d|e]|]; simpl; try apply IH. done.
Qed.

Lemma storage_aggregate_refresh_calls w matching completed st :
  completed ≡ₚ matching →
  NoDup (cache_file "backup_storage" <$> matching) →
  (∀ om, om ∈ matching →
         remove_error w (cache_file "backup_storage" om) = None ∧
         ∀ e, fs st !! cache_file "backup_storage" om ≠ Some (Corrupt e)) →
  calls (backup_storage_page_aggregate w true matching completed st).2
  = calls st ++ ((λ om, ("backup_storage", url om)) <$> completed).
Proof.
  intros Hperm Hnd Hok. unfold backup_storage_page_aggregate. unfold_monad.
  destruct (missing_cache_count_returns "backup_storage" matching 0 st) as [m ->].
  { intros om e Hin. by apply Hok. }
  simpl.
  pose proof (fetch_multiple_ops_managers_concurrent_state w matching "backup_storage" true
                completed st) as Hst.
  assert (calls (run_tasks w "backup_storage" true completed st)
          = calls st ++ ((λ om, ("backup_storage", url om)) <$> completed)) as Hrun.
  { apply refresh_run_calls; [by rewrite Hperm |].
    intros om Hin. apply Hok. by rewrite <- Hperm. }
  destruct (fetch_multiple_ops_managers_concurrent w matching "backup_storage" true
              completed st) as [[a|e] st1]; simpl in *; by subst st1.
Qed.

(** X27: on [backup_storage_page] a refresh without any selection selects
    every region and every environment: when the configured sources are
    labelled and have pairwise different cache files, all of which can be
    read and deleted, the adapter of every configured source is called
    exactly once.  The calls are compared as a multiset: nothing is said
    about the order in which they are made.  (The same request on
    [backup_page] calls nothing and asks the user to select first.) *)
Theorem storage_refresh_selects_everything (w : world) (config : list config_entry)
    (schedule : list ops_manager → list ops_manager) (st : state) :
  let managers := entry_source <$> config in
  Forall labelled managers →
  schedule managers ≡ₚ managers →
  NoDup (cache_file "backup_storage" <$> managers) →
  (∀ om, om ∈ managers →
         remove_error w (cache_file "backup_storage" om) = None ∧
         ∀ e, fs st !! cache_file "backup_storage" om ≠ Some (Corrupt e)) →
  ∃ new_calls,
    calls (backup_storage_page w config schedule (PagePost [] [] true) st).2
    = calls st ++ new_calls ∧
    new_calls ≡ₚ (λ om, ("backup_storage", url om)) <$> managers.
Proof.
  intros managers Hall Hperm Hnd Hok.
  exists ((λ om, ("backup_storage", url om)) <$> schedule managers).
  split; [| by rewrite Hperm].
  unfold backup_storage_page. fold managers. unfold_monad.
  rewrite (index_all_ok "region" region _ st).
  2: { eapply Forall_impl; [exact Hall|]. by intros om [? ?]. }
  rewrite (index_all_ok "environment" environment _ st).
  2: { eapply Forall_impl; [exact Hall|]. by intros om [? ?]. }
  simpl.
  destruct managers as [|om0 rest] eqn:Hm.
  { apply Permutation_nil_r in Hperm. rewrite Hperm. simpl.
    rewrite elements_empty. simpl. by rewrite app_nil_r. }
  rewrite <- Hm in *.
  assert (∀ om, om ∈ managers →
            ∃ rg env, region om = Some rg ∧
                      rg ∈ elements (list_to_set (omap region managers) : gset string) ∧
                      environment om = Some env ∧
                      env ∈ elements (list_to_set (omap environment managers) : gset string))
    as Hin.
  { intros om Hom. rewrite Forall_forall in Hall. destruct (Hall om Hom) as [[rg Hr] [env He]].
    exists rg, env. rewrite !elem_of_elements, !elem_of_list_to_set, !list_elem_of_omap.
    eauto 10. }
  assert (truthy_list (elements (list_to_set (omap region managers) : gset string)) = true)
    as Hsr.
  { destruct (Hin om0) as (rg & env & _ & Hrg & _); [rewrite Hm; left|].
    by apply (truthy_list_elem rg). }
  assert (truthy_list (elements (list_to_set (omap environment managers) : gset string))
          = true) as Hse.
  { destruct (Hin om0) as (rg & env & _ & _ & _ & Henv); [rewrite Hm; left|].
    by apply (truthy_list_elem env). }
  rewrite Hsr, Hse. simpl.
  rewrite (matching_loop_all _ _ managers [] st Hsr Hse).
  2: { apply Forall_forall. exact Hin. }
  simpl.
  pose proof (storage_aggregate_refresh_calls w managers (schedule managers) st Hperm Hnd Hok)
    as Hcalls.
  destruct (backup_storage_page_aggregate w true managers (schedule managers) st)
    as [[[[data message] kind]|e] st1]; simpl in *; [|done].
  pose proof (latest_timestamp_loop_state "backup_storage"
                (elements (list_to_set (omap region managers) : gset string))
                (elements (list_to_set (omap environment managers) : gset string))
                config None st1) as Hts.
  destruct (latest_timestamp_loop _ _ _ _ _ _) as [[t|e] st2]; simpl in *; by subst st2.
Qed.

Lemma storage_refresh_selects_everything_witness :
  ∃ new_calls,
    calls (backup_storage_page Sample.healthy PageSample.config reverse (PagePost [] [] true)
             Sample.no_cache).2
    = calls Sample.no_cache ++ new_calls ∧
    new_calls ≡ₚ (λ om, ("backup_storage", url om)) <$> (entry_source <$> PageSample.config).
Proof.
  apply (storage_refresh_selects_everything Sample.healthy PageSample.config reverse
           Sample.no_cache).
  - repeat constructor; by eexists.
  - apply (bool_decide_unpack _). vm_compute. reflexivity.
  - apply (bool_decide_unpack _). vm_compute. reflexivity.
  - intros om _. split; [reflexivity|]. intros e H. simpl in H.
    rewrite lookup_empty in H. discriminate H.
Defined.

Lemma ltb_le a t : String.ltb a t = true → String.le a t.
Proof.
  rewrite ltb_leb. intros H%negb_true_iff.
  destruct (total String.le a t) as [? | Hle]; [done|].
  unfold String.le in Hle. rewrite H in Hle. done.
Qed.

Lemma not_ltb_le a t : String.ltb a t = false → String.le t a.
Proof. rewrite ltb_leb. intros H%negb_false_iff. unfold String.le. by rewrite H. Qed.

Lemma get_cache_timestamp_stamp f st :
  (∀ e, fs st !! f ≠ Some (Corrupt e)) →
  ∃ timestamp, get_cache_timestamp f st = (Ok timestamp, st) ∧
               (if truthy_error timestamp then timestamp else None) = stamp_of (fs st !! f).
Proof.
  intros Hok. unfold get_cache_timestamp, stamp_of.
  destruct (fs st !! f) as [[t d|d|e]|]; eauto. by destruct (Hok e).
Qed.

Lemma latest_update_spec (latest timestamp : option string) :
  (∀ a, latest = Some a → a ≠ "") →
  (∀ b, (if truthy_error timestamp &&
            (negb (truthy_error latest) ||
             String.ltb (default "" latest) (default "" timestamp))
         then timestamp else latest) = Some b → b ≠ "") ∧
  ((if truthy_error timestamp &&
       (negb (truthy_error latest) ||
        String.ltb (default "" latest) (default "" timestamp))
    then timestamp else latest) = latest ∨
   (if truthy_error timestamp &&
       (negb (truthy_error latest) ||
        String.ltb (default "" latest) (default "" timestamp))
    then timestamp else latest) = timestamp ∧ truthy_error timestamp = true) ∧
  (∀ a, latest = Some a →
        ∃ b, (if truthy_error timestamp &&
                 (negb (truthy_error latest) ||
                  String.ltb (default "" latest) (default "" timestamp))
              then timestamp else latest) = Some b ∧ String.le a b) ∧
  (∀ s, timestamp = Some s → s ≠ "" →
        ∃ b, (if truthy_error timestamp &&
                 (negb (truthy_error latest) ||
                  String.ltb (default "" latest) (default "" timestamp))
              then timestamp else latest) = Some b ∧ String.le s b).
Proof.
  intros Hlatest.
  destruct timestamp as [t|]; simpl.
  2: { repeat split; try done; [by left | intros a ->; by exists a]. }
  destruct (truthy_str t) eqn:Ht; simpl.
  2: { repeat split; try done; [by left | intros a ->; by exists a |].
       intros s [= ->] Hs. apply truthy_str_nonempty in Hs. congruence. }
  apply truthy_str_nonempty in Ht.
  destruct latest as [a|]; simpl.
  2: { repeat split; try done.
       - by intros b [= <-].
       - by right.
       - intros s [= ->] _. by exists s. }
  assert (truthy_str a = true) as -> by (apply truthy_str_nonempty; by apply Hlatest).
  simpl. destruct (String.ltb a t) eqn:Hlt.
  - repeat split.
    + by intros b [= <-].
    + by right.
    + intros a' [= <-]. exists t. split; [done|]. by apply ltb_le.
    + intros s [= ->] _. by exists s.
  - repeat split.
    + intros b [= <-]. by apply Hlatest.
    + by left.
    + intros a' [= <-]. by exists a.
    + intros s [= ->] _. exists a. split; [done|]. by apply not_ltb_le.
Qed.

Lemma latest_timestamp_loop_spec dt sr se config latest st :
  (∀ item e, item ∈ config → shown sr se item = true →
             fs st !! timestamp_file dt item ≠ Some (Corrupt e)) →
  (∀ a, latest = Some a → a ≠ "") →
  ∃ result,
    latest_timestamp_loop dt sr se config latest st = (Ok result, st) ∧
    (∀ t, result = Some t → t ≠ "") ∧
    (result = latest ∨
     ∃ item, item ∈ config ∧ shown sr se item = true ∧
             stamp_of (fs st !! timestamp_file dt item) = result ∧ is_Some result) ∧
    (∀ a, latest = Some a → ∃ t, result = Some t ∧ String.le a t) ∧
    (∀ item s, item ∈ config → shown sr se item = true →
               stamp_of (fs st !! timestamp_file dt item) = Some s →
               ∃ t, result = Some t ∧ String.le s t).
Proof.
  revert latest. induction config as [|item config IH]; intros latest Hok Hlatest.
  - exists latest. simpl. unfold_monad. split; [done|]. split; [done|].
    split; [by left|]. split; [intros a ->; by exists a|].
    intros item s Hin. by apply elem_of_nil in Hin.
  - simpl. fold (shown sr se item). fold (timestamp_file dt item).
    destruct (shown sr se item) eqn:Hshown.
    + destruct (get_cache_timestamp_stamp (timestamp_file dt item) st)
        as (timestamp & Hts & Hstamp).
      { intros e. apply Hok; [left | done]. }
      unfold_monad. rewrite Hts.
      destruct (latest_update_spec latest timestamp Hlatest) as (N1 & N2 & N3 & N4).
      set (next := if truthy_error timestamp &&
                      (negb (truthy_error latest) ||
                       String.ltb (default "" latest) (default "" timestamp))
                   then timestamp else latest) in *.
      clearbody next.
      destruct (IH next) as (result & Hrun & Hne & Hfrom & Hge & Hmax).
      { intros item' e Hin. apply Hok. by right. }
      { done. }
      exists result. split; [done|]. split; [done|].
      split; [|split].
      * destruct Hfrom as [Hfrom | (item' & Hin & Hs' & Hst' & Hsome)].
        -- destruct N2 as [N2 | [N2 Ht]].
           ++ left. congruence.
           ++ right. exists item. split; [left|]. split; [done|].
              rewrite Ht in Hstamp. rewrite <- Hstamp, Hfrom, N2. split; [done|].
              destruct timestamp; [by eexists | done].
        -- right. exists item'. split; [by right | done].
      * intros a Ha. destruct (N3 a Ha) as (b & Hb & Hab).
        destruct (Hge b Hb) as (t & Ht & Hbt). exists t. split; [done|]. by etrans.
      * intros item' s [-> | Hin]%elem_of_cons Hs' Hst'.
        -- rewrite <- Hstamp in Hst'.
           destruct (truthy_error timestamp) eqn:Ht; [|done].
           destruct (N4 s Hst') as (b & Hb & Hsb).
           { rewrite Hst' in Ht. simpl in Ht. by apply truthy_str_nonempty. }
           destruct (Hge b Hb) as (t & Ht' & Hbt). exists t. split; [done|]. by etrans.
        -- by apply (Hmax item' s).
    + destruct (IH latest) as (result & Hrun & Hne & Hfrom & Hge & Hmax).
      { intros item' e Hin. apply Hok. by right. }
      { done. }
      exists result. split; [done|]. split; [done|]. split; [|split].
      * destruct Hfrom as [Hfrom | (item' & Hin & Hs' & Hst' & Hsome)]; [by left|].
        right. exists item'. split; [by right | done].
      * done.
      * intros item' s [-> | Hin]%elem_of_cons Hs' Hst'; [congruence|]. by apply (Hmax item' s).
Qed.

(** X28: the cache timestamp a page shows is the latest one among the
    cache files it looks up, which are the files under the configured name
    (or the URL, for an entry without a name) of the entries picked by the
    selection: when none of these files is unreadable, the loop returns
    without changing anything; it returns no timestamp exactly when none of
    these files carries a non-empty one, and otherwise a timestamp that one
    of them carries and that is not below any other. *)
Theorem latest_timestamp_is_maximum (data_type : string)
    (selected_regions selected_environments : list string)
    (config : list config_entry) (st : state) :
  (∀ item e, item ∈ config → shown selected_regions selected_environments item = true →
             fs st !! timestamp_file data_type item ≠ Some (Corrupt e)) →
  ∃ result,
    latest_timestamp_loop data_type selected_regions selected_environments config None st
    = (Ok result, st) ∧
    (result = None ↔
     ∀ item, item ∈ config → shown selected_regions selected_environments item = true →
             stamp_of (fs st !! timestamp_file data_type item) = None) ∧
    (∀ t, result = Some t →
          t ≠ "" ∧
          (∃ item, item ∈ config ∧
                   shown selected_regions selected_environments item = true ∧
                   stamp_of (fs st !! timestamp_file data_type item) = Some t) ∧
          ∀ item s, item ∈ config →
                    shown selected_regions selected_environments item = true →
                    stamp_of (fs st !! timestamp_file data_type item) = Some s →
                    String.le s t).
Proof.
  intros Hok.
  destruct (latest_timestamp_loop_spec data_type selected_regions selected_environments
              config None st Hok) as (result & Hrun & Hne & Hfrom & _ & Hmax); [done|].
  exists result. split; [done|]. split; [split|].
  - intros -> item Hin Hshown.
    destruct (stamp_of (fs st !! timestamp_file data_type item)) as [s|] eqn:E; [|done].
    destruct (Hmax item s Hin Hshown E) as (t & Ht & _). done.
  - intros Hnone. destruct Hfrom as [-> | (item & Hin & Hshown & Hs & [t Ht])]; [done|].
    rewrite (Hnone item Hin Hshown) in Hs. congruence.
  - intros t ->. split; [by apply Hne|]. split.
    + destruct Hfrom as [? | (item & Hin & Hshown & Hs & _)]; [done|]. by exists item.
    + intros item s Hin Hshown Hs. destruct (Hmax item s Hin Hshown Hs) as (t' & Ht' & Hle).
      by injection Ht' as ->.
Qed.

Lemma latest_timestamp_is_maximum_witness :
  ∃ result,
    latest_timestamp_loop "backup" [] ["prod"] PageSample.config None PageSample.both_warm
    = (Ok result, PageSample.both_warm) ∧
    (result = None ↔
     ∀ item, item ∈ PageSample.config → shown [] ["prod"] item = true →
             stamp_of (fs PageSample.both_warm !! timestamp_file "backup" item) = None) ∧
    (∀ t, result = Some t →
          t ≠ "" ∧
          (∃ item, item ∈ PageSample.config ∧ shown [] ["prod"] item = true ∧
                   stamp_of (fs PageSample.both_warm !! timestamp_file "backup" item) = Some t) ∧
          ∀ item s, item ∈ PageSample.config → shown [] ["prod"] item = true →
                    stamp_of (fs PageSample.both_warm !! timestamp_file "backup" item) = Some s →
                    String.le s t).
Proof.
  apply (latest_timestamp_is_maximum "backup" [] ["prod"] PageSample.config
           PageSample.both_warm).
  intros item e Hin _. apply list_elem_of_In in Hin. simpl in Hin.
  destruct Hin as [<- | [<- | []]]; vm_compute; discriminate.
Defined.

Lemma usable_storage_type (t : string) :
  t ∈ ["snapshot_blockstore"; "snapshot_s3"; "oplog_store"; "oplog_s3"] →
  usable (Some t) = true.
Proof.
  intros H. apply list_elem_of_In in H. simpl in H.
  destruct H as [<- | [<- | [<- | [<- | []]]]]; vm_compute; reflexivity.
Qed.

Lemma separate_step_spec (lists : storage_lists) (r : record) :
  separate_step lists r
  = StorageLists
      (snapshot_blockstore_data lists ++
       filter (λ r, r !! "type" = Some "snapshot_blockstore") [r])
      (snapshot_s3_data lists ++ filter (λ r, r !! "type" = Some "snapshot_s3") [r])
      (oplog_store_data lists ++ filter (λ r, r !! "type" = Some "oplog_store") [r])
      (oplog_s3_data lists ++ filter (λ r, r !! "type" = Some "oplog_s3") [r]).
Proof.
  unfold separate_step. rewrite !filter_cons, !filter_nil.
  destruct lists as [l1 l2 l3 l4]. simpl.
  destruct (r !! "type") as [t|] eqn:E.
  2: { simpl. repeat case_decide; simplify_eq. by rewrite !app_nil_r. }
  destruct (decide (t ∈ ["snapshot_blockstore"; "snapshot_s3"; "oplog_store"; "oplog_s3"]))
    as [Hin | Hout].
  - rewrite (usable_storage_type t Hin). simpl.
    apply list_elem_of_In in Hin. simpl in Hin.
    destruct Hin as [<- | [<- | [<- | [<- | []]]]]; simpl;
      repeat case_decide; simplify_eq; by rewrite ?app_nil_r.
  - assert (t ≠ "snapshot_blockstore" ∧ t ≠ "snapshot_s3" ∧ t ≠ "oplog_store" ∧
            t ≠ "oplog_s3") as (H1 & H2 & H3 & H4).
    { repeat split; intros ->; apply Hout; set_solver. }
    repeat case_decide; simplify_eq. rewrite !app_nil_r.
    destruct (usable (Some t)); simpl; [|done].
    apply String.eqb_neq in H1, H2, H3, H4. by rewrite H1, H2, H3, H4.
Qed.

Lemma foldl_separate (data : list record) (lists : storage_lists) :
  foldl separate_step lists data
  = StorageLists
      (snapshot_blockstore_data lists ++
       filter (λ r, r !! "type" = Some "snapshot_blockstore") data)
      (snapshot_s3_data lists ++ filter (λ r, r !! "type" = Some "snapshot_s3") data)
      (oplog_store_data lists ++ filter (λ r, r !! "type" = Some "oplog_store") data)
      (oplog_s3_data lists ++ filter (λ r, r !! "type" = Some "oplog_s3") data).
Proof.
  revert lists. induction data as [|r data IH]; intros lists; simpl.
  - rewrite !filter_nil, !app_nil_r. by destruct lists.
  - rewrite IH, separate_step_spec. simpl.
    rewrite !(filter_cons _ r data), !filter_cons, !filter_nil.
    repeat case_decide; simpl; by rewrite <- ?app_assoc, ?app_nil_r.
Qed.

(** X29: the four lists of the backup-storage page are the records of
    type snapshot_blockstore, snapshot_s3, oplog_store and oplog_s3, each in
    the order of the page's records; a record of another type, or of none,
    is in none of them, no record is in two, and together they are never
    longer than the page's records. *)
Theorem separate_by_type (data : list record) :
  let lists := separate data in
  snapshot_blockstore_data lists
  = filter (λ r, r !! "type" = Some "snapshot_blockstore") data ∧
  snapshot_s3_data lists = filter (λ r, r !! "type" = Some "snapshot_s3") data ∧
  oplog_store_data lists = filter (λ r, r !! "type" = Some "oplog_store") data ∧
  oplog_s3_data lists = filter (λ r, r !! "type" = Some "oplog_s3") data ∧
  length (snapshot_blockstore_data lists) + length (snapshot_s3_data lists) +
  length (oplog_store_data lists) + length (oplog_s3_data lists) ≤ length data.
Proof.
  simpl. unfold separate.
  assert ((if truthy_list data then foldl separate_step (StorageLists [] [] [] []) data
           else StorageLists [] [] [] [])
          = foldl separate_step (StorageLists [] [] [] []) data) as ->.
  { by destruct data. }
  rewrite foldl_separate. simpl. repeat split; try done.
  induction data as [|r data IH]; [done|].
  rewrite !filter_cons. simpl.
  repeat case_decide; simpl; try lia; congruence.
Qed.
